(** * Hypergraph payment networks: the topology builders

    A shallow embedding of the Python scripts under
    [LNTrafficSimulator/scripts]: the NetworkX graph they work on, the
    FHS, NCH, supernode and rollup hyperedge builders of [topologies/],
    the capacity split of [make_fhs_edges.py] and the clique exports.

    Conventions.
    - Node identifiers are integers ([Z]); the sources also compare them
      with [<] and hash them.
    - Capacities are Python floats; they are idealised here as exact
      rationals ([Qc]), so sums and quotients carry no rounding.
    - A [networkx.Graph] keeps its nodes and each adjacency in insertion
      order (they are Python dicts): it is an association list.
    - A Python [dict] whose iteration order has no influence on a result
      is a [gmap]; a [set]/[frozenset] is a [gset].  Where the source
      iterates over a set, the model iterates in ascending order
      ([set_iter]), which is the order CPython gives for small
      non-negative integers.
    - A [while] loop takes a fuel argument; running out of fuel is the
      outcome [OutOfFuel], distinct from a raised exception.
    - Graph objects live in a store; [create_fhs] receives a reference
      to the caller's graph and returns the store it leaves behind. *)

From Stdlib Require Import ZArith QArith Qcanon Lia.
From stdpp Require Import base option list sorting gmap strings.

Local Open Scope Z_scope.

(** ** Outcomes of a Python computation *)

Inductive exn :=
  | ValueError
  | KeyError
  | NetworkXError
  | RuntimeError (max_size threshold : Z).

Inductive outcome (A : Type) :=
  | Ok (a : A)
  | Raise (e : exn)
  | OutOfFuel.
Arguments Ok {A} a.
Arguments Raise {A} e.
Arguments OutOfFuel {A}.

#[global] Instance outcome_ret : MRet outcome := @Ok.
#[global] Instance outcome_bind : MBind outcome := λ A B f m,
  match m with
  | Ok a => f a
  | Raise e => Raise e
  | OutOfFuel => OutOfFuel
  end.

(** ** Insertion-ordered dictionaries keyed by nodes *)

Abbreviation node := Z (only parsing).

Fixpoint dict_get {V} (d : list (Z * V)) (k : Z) : option V :=
  match d with
  | [] => None
  | (k', v) :: d' => if decide (k' = k) then Some v else dict_get d' k
  end.

(** [d[k] = v]: an existing key keeps its position. *)
Fixpoint dict_set {V} (d : list (Z * V)) (k : Z) (v : V) : list (Z * V) :=
  match d with
  | [] => [(k, v)]
  | (k', v') :: d' =>
      if decide (k' = k) then (k, v) :: d' else (k', v') :: dict_set d' k v
  end.

(** [del d[k]] *)
Definition dict_del {V} (d : list (Z * V)) (k : Z) : list (Z * V) :=
  filter (λ kv, kv.1 ≠ k) d.

(** Iteration over a set. *)
Definition set_iter (s : gset Z) : list Z := merge_sort Z.le (elements s).

(** ** networkx.Graph *)

(** The attribute dict of an edge, restricted to its ['capacity'] key. *)
Abbreviation edata := (option Qc) (only parsing).
Abbreviation adjacency := (list (Z * option Qc)) (only parsing).
Abbreviation graph := (list (Z * list (Z * option Qc))) (only parsing).

Definition empty_graph : graph := [].

Definition has_node (G : graph) (n : Z) : bool :=
  bool_decide (is_Some (dict_get G n)).

Definition nodes (G : graph) : list Z := G.*1.

Definition number_of_nodes (G : graph) : nat := length G.

(** Applies [f] to the adjacency of [n]. *)
Definition adj_update (f : adjacency → adjacency) (n : Z) (G : graph) : graph :=
  map (λ ka, if decide (ka.1 = n) then (ka.1, f ka.2) else ka) G.

Definition add_node (G : graph) (n : Z) : graph :=
  match dict_get G n with
  | Some _ => G
  | None => G ++ [(n, [])]
  end.

(** The attribute dict of edge [u]-[v], when the edge exists. *)
Definition edge_data (G : graph) (u v : Z) : option edata :=
  a ← dict_get G u; dict_get a v.

Definition has_edge (G : graph) (u v : Z) : Prop := is_Some (edge_data G u v).

(** [G.add_edge(u, v, **attr)]: both endpoints are created when missing
    and the (shared) attribute dict is stored under both directions. *)
Definition add_edge (G : graph) (u v : Z) (attr : edata) : graph :=
  let G := add_node (add_node G u) v in
  let datadict := default None (edge_data G u v) in
  let datadict := match attr with Some c => Some c | None => datadict end in
  let G := adj_update (λ a, dict_set a v datadict) u G in
  adj_update (λ a, dict_set a u datadict) v G.

Definition add_nodes_from (G : graph) (ns : list Z) : graph :=
  foldl add_node G ns.

Definition add_edges_from (G : graph) (es : list (Z * Z * edata)) : graph :=
  foldl (λ G e, add_edge G e.1.1 e.1.2 e.2) G es.

(** [G.neighbors(n)] *)
Definition neighbors (G : graph) (n : Z) : outcome (list Z) :=
  match dict_get G n with
  | Some a => Ok (a.*1)
  | None => Raise NetworkXError
  end.

(** A self-loop counts twice in the degree. *)
Definition degree_of (n : Z) (a : adjacency) : nat :=
  (length a + (if bool_decide (n ∈ a.*1) then 1 else 0))%nat.

(** [G.degree()], a sequence of (node, degree) pairs in node order. *)
Definition degree_view (G : graph) : list (Z * nat) :=
  map (λ ka, (ka.1, degree_of ka.1 ka.2)) G.

(** [G.degree(n)] *)
Definition degree (G : graph) (n : Z) : outcome nat :=
  match dict_get G n with
  | Some a => Ok (degree_of n a)
  | None => Raise KeyError
  end.

Definition number_of_edges (G : graph) : nat :=
  (sum_list (degree_view G).*2 / 2)%nat.

(** [G.remove_node(n)]: the node goes, and with it every adjacency
    entry that points to it. *)
Definition drop_node (G : graph) (n : Z) : graph :=
  map (λ ka, (ka.1, dict_del ka.2 n)) (dict_del G n).

Definition remove_node (G : graph) (n : Z) : outcome graph :=
  if has_node G n then Ok (drop_node G n) else Raise NetworkXError.

(** [G.remove_nodes_from(ns)] skips the nodes that are not in [G]. *)
Definition remove_nodes_from (G : graph) (ns : list Z) : graph :=
  foldl (λ G n, if has_node G n then drop_node G n else G) G ns.

Definition remove_edge (G : graph) (u v : Z) : graph :=
  if bool_decide (has_edge G u v) then
    adj_update (λ a, dict_del a u) v (adj_update (λ a, dict_del a v) u G)
  else G.

(** [G.remove_edges_from(ebunch)] skips the edges that are not in [G]. *)
Definition remove_edges_from (G : graph) (es : list (Z * Z)) : graph :=
  foldl (λ G e, remove_edge G e.1 e.2) G es.

(** [G.edges(data=True)]: every edge once, from the endpoint that comes
    first in node order. *)
Fixpoint edges_from (G : graph) (seen : gset Z) : list (Z * Z * edata) :=
  match G with
  | [] => []
  | (n, a) :: G' =>
      map (λ vd, (n, vd.1, vd.2)) (filter (λ vd, vd.1 ∉ seen) a)
      ++ edges_from G' (seen ∪ {[n]})
  end.

Definition edges (G : graph) : list (Z * Z * edata) := edges_from G ∅.

(** [G.copy()]: a new graph, nodes first, then every adjacency entry
    re-added as an edge. *)
Definition copy (G : graph) : graph :=
  add_edges_from (add_nodes_from empty_graph (nodes G))
    (flat_map (λ ka, map (λ vd, (ka.1, vd.1, vd.2)) ka.2) G).

(** [max(xs, key=...)]: the first element whose key is not exceeded. *)
Definition py_max {A} (gt : A → A → bool) (xs : list A) : outcome A :=
  match xs with
  | [] => Raise ValueError
  | x :: xs' => Ok (foldl (λ best y, if gt y best then y else best) x xs')
  end.

(** A [for] loop whose body may raise. *)
Fixpoint for_each {A S} (xs : list A) (body : S → A → outcome S) (s : S)
  : outcome S :=
  match xs with
  | [] => Ok s
  | x :: xs' => s' ← body s x; for_each xs' body s'
  end.

(** [enumerate(xs)] *)
Definition enumerate {A} (xs : list A) : list (nat * A) :=
  zip (seq 0 (length xs)) xs.

(** [d[k].append(i)] on a plain dict: a missing key raises. *)
Definition dict_append (d : gmap Z (list nat)) (k : Z) (i : nat)
  : outcome (gmap Z (list nat)) :=
  match d !! k with
  | Some l => Ok (<[k := l ++ [i]]> d)
  | None => Raise KeyError
  end.

(** [d[k].append(i)] on a [defaultdict(list)]. *)
Definition defaultdict_append (d : gmap Z (list nat)) (k : Z) (i : nat)
  : gmap Z (list nat) :=
  <[k := default [] (d !! k) ++ [i]]> d.

(** [{n: [] for n in G.nodes()}] *)
Definition empty_membership (G : graph) : gmap Z (list nat) :=
  list_to_map ((λ n, (n, [])) <$> nodes G).

(** [float(k)] for a length [k]. *)
Definition Qc_of_nat (k : nat) : Qc := Q2Qc (inject_Z (Z.of_nat k)).

(** CPython's hash of an integer: reduction modulo [2^61 - 1] with the
    sign kept, and [-1] (reserved for errors) replaced by [-2]. *)
Definition py_hash (n : Z) : Z :=
  let h := Z.sgn n * (Z.abs n mod (2 ^ 61 - 1)) in
  if decide (h = -1) then -2 else h.

(** Comparison of the tuples [(degree, -hash)]. *)
Definition tuple_gt (x y : nat * Z) : bool :=
  bool_decide (y.1 < x.1)%nat
  || (bool_decide (x.1 = y.1) && bool_decide (y.2 < x.2)).

(** The store of graph objects; a reference is a position in it. *)
Abbreviation heap := (list (list (Z * list (Z * option Qc)))) (only parsing).

(** ** topologies/nch.py *)
Module nch.

Fixpoint greedy_while (fuel : nat) (H : graph) (cover : gset Z)
    (max_nodes : option nat) : outcome (gset Z) :=
  match fuel with
  | O => OutOfFuel
  | S fuel =>
      if bool_decide (0 < number_of_edges H)%nat then
        nd ← py_max (λ x y : Z * nat, bool_decide (y.2 < x.2)%nat)
               (degree_view H);
        let cover := cover ∪ {[nd.1]} in
        H ← remove_node H nd.1;
        if match max_nodes with
           | Some m => bool_decide (m ≤ size cover)%nat
           | None => false
           end
        then Ok cover
        else greedy_while fuel H cover max_nodes
      else Ok cover
  end.

Definition greedy_vertex_cover (fuel : nat) (G : graph)
    (max_nodes : option nat) : outcome (gset Z) :=
  greedy_while fuel (copy G) ∅ max_nodes.

Definition create_nch (fuel : nat) (G : graph) (max_cover_size : option nat)
    (use_edge_capacity : bool)
  : outcome (list (gset Z) * gmap Z (list nat) * gmap (Z * nat) Qc) :=
  cover ← greedy_vertex_cover fuel G max_cover_size;
  '(hyperedges, node_to_hyperedges) ←
    for_each (enumerate (merge_sort Z.le (elements cover)))
      (λ '(hyperedges, node_to_hyperedges) '(idx, c),
         nbs ← neighbors G c;
         let neighs : gset Z := list_to_set nbs in
         if bool_decide (size neighs = 0%nat)
         then Ok (hyperedges, node_to_hyperedges)
         else Ok (hyperedges ++ [neighs],
                  foldl (λ d v, defaultdict_append d v idx)
                    node_to_hyperedges (set_iter neighs)))
      ([], ∅);
  Ok (hyperedges, node_to_hyperedges, ∅).

End nch.

(** ** topologies/fhs.py *)
Module fhs.

(** [max(G.nodes(), key=lambda n: (G.degree(n), -hash(n)))]: every node
    is paired with its degree by [degree_view]. *)
Definition highest_degree_node (G : graph) : outcome Z :=
  nd ← py_max (λ x y : Z * nat,
                 tuple_gt (x.2, - py_hash x.1) (y.2, - py_hash y.1))
         (degree_view G);
  Ok nd.1.

(** The [for nb in G.neighbors(cur)] loop of [bfs_collect_m], with its
    [break]; the state is [(visited, q, collected)]. *)
Fixpoint bfs_scan (m_max : Z) (nbs : list Z)
    (st : gset Z * list Z * list Z) : gset Z * list Z * list Z :=
  match nbs with
  | [] => st
  | nb :: nbs' =>
      if decide (nb ∈ st.1.1) then bfs_scan m_max nbs' st
      else
        let st' := (st.1.1 ∪ {[nb]}, st.1.2 ++ [nb], st.2 ++ [nb]) in
        if bool_decide (m_max ≤ Z.of_nat (length st'.2)) then st'
        else bfs_scan m_max nbs' st'
  end.

Fixpoint bfs_while (fuel : nat) (G : graph) (m_max : Z)
    (st : gset Z * list Z * list Z) : outcome (list Z) :=
  match fuel with
  | O => OutOfFuel
  | S fuel =>
      match st.1.2 with
      | cur :: q =>
          if bool_decide (Z.of_nat (length st.2) < m_max) then
            nbs ← neighbors G cur;
            bfs_while fuel G m_max (bfs_scan m_max nbs (st.1.1, q, st.2))
          else Ok st.2
      | [] => Ok st.2
      end
  end.

(** Every round of the loop takes one node off the queue and a node
    enters the queue once, so [2 * |V| + 2] rounds are never used up
    (lemma [bfs_collect_m_returns]). *)
Definition bfs_collect_m (G : graph) (start_node : Z) (m_max : Z)
  : outcome (list Z) :=
  bfs_while (2 * length G + 2) G m_max
    ({[start_node]}, [start_node], [start_node]).

(** The main loop, lines 46-77; [G] is the reference held by the local
    variable [G], the object it denotes lives in the store [h]. *)
Fixpoint fhs_while (fuel : nat) (h : heap) (G : nat) (m_max : Z)
    (hyperedges : list (gset Z)) (node_to_hyperedges : gmap Z (list nat))
  : outcome (heap * list (gset Z) * gmap Z (list nat)) :=
  match fuel with
  | O => OutOfFuel
  | S fuel =>
      if bool_decide (0 < number_of_edges (h !!! G))%nat then
        if bool_decide (number_of_nodes (h !!! G) = 0%nat)
        then Ok (h, hyperedges, node_to_hyperedges)
        else
          node ← highest_degree_node (h !!! G);
          Ve_list ← bfs_collect_m (h !!! G) node m_max;
          let Ve_set : gset Z := list_to_set Ve_list in
          if bool_decide (size Ve_set = 0%nat)
          then Ok (h, hyperedges, node_to_hyperedges)
          else
            let hed_idx := length hyperedges in
            let hyperedges := hyperedges ++ [Ve_set] in
            node_to_hyperedges ←
              for_each (set_iter Ve_set)
                (λ d v, dict_append d v hed_idx) node_to_hyperedges;
            internal_edges ←
              for_each (set_iter Ve_set)
                (λ acc u,
                   nbs ← neighbors (h !!! G) u;
                   Ok (acc ++ map (λ v, (u, v))
                                (filter (λ v, v ∈ Ve_set ∧ u < v) nbs)))
                [];
            let h := alter (λ g, remove_edges_from g internal_edges) G h in
            let isolated :=
              (filter (λ nd : Z * nat, nd.2 = 0%nat)
                 (degree_view (h !!! G))).*1 in
            let h :=
              if bool_decide (isolated = []) then h
              else alter (λ g, remove_nodes_from g isolated) G h in
            fhs_while fuel h G m_max hyperedges node_to_hyperedges
      else Ok (h, hyperedges, node_to_hyperedges)
  end.

(** The even split of one total over a node's memberships, lines
    94-100 and 103-108. *)
Definition split_evenly (total_of : Z → Qc)
    (node_to_hyperedges : gmap Z (list nat)) : gmap (Z * nat) Qc :=
  foldl (λ caps vh,
           if bool_decide (vh.2 = []) then caps
           else
             let per_hed := (total_of vh.1 / Qc_of_nat (length vh.2))%Qc in
             foldl (λ caps idx, <[(vh.1, idx) := per_hed]> caps) caps vh.2)
    ∅ (map_to_list node_to_hyperedges).

(** [node_total[k] += cap] *)
Definition total_add (d : gmap Z Qc) (k : Z) (cap : Qc)
  : outcome (gmap Z Qc) :=
  match d !! k with
  | Some t => Ok (<[k := (t + cap)%Qc]> d)
  | None => Raise KeyError
  end.

(** Lines 79-108. *)
Definition capacity_distribution (G_input : graph)
    (node_to_hyperedges : gmap Z (list nat))
  : outcome (gmap (Z * nat) Qc) :=
  let es := edges G_input in
  let has_capacity_attr := bool_decide (Exists (λ e, is_Some e.2) es) in
  if has_capacity_attr then
    node_total ←
      for_each es
        (λ tot e,
           let cap : Qc := default 0%Qc e.2 in
           tot ← total_add tot e.1.1 cap;
           total_add tot e.1.2 cap)
        (list_to_map ((λ n, (n, 0%Qc)) <$> nodes G_input));
    Ok (split_evenly (λ v, default 0%Qc (node_total !! v)) node_to_hyperedges)
  else Ok (split_evenly (λ _, 1%Qc) node_to_hyperedges).

(** [create_fhs(G_input, m_max, use_edge_capacity)]; [G_input] is the
    caller's reference, the result carries the store left behind. *)
Definition create_fhs (fuel : nat) (h : heap) (G_input : nat) (m_max : Z)
    (use_edge_capacity : bool)
  : outcome (heap * (list (gset Z) * gmap Z (list nat) * gmap (Z * nat) Qc)) :=
  let G := length h in
  let h := h ++ [copy (h !!! G_input)] in
  '(h, hyperedges, node_to_hyperedges) ←
    fhs_while fuel h G m_max [] (empty_membership (h !!! G_input));
  node_capacity_in_hyperedge ←
    (if use_edge_capacity
     then capacity_distribution (h !!! G_input) node_to_hyperedges
     else Ok ∅);
  Ok (h, (hyperedges, node_to_hyperedges, node_capacity_in_hyperedge)).

End fhs.

(** ** topologies/supernodes.py *)
Module supernodes.

(** [neigh[n]]; [neigh] holds the neighbour set of every node. *)
Definition neigh (G : graph) (n : Z) : outcome (gset Z) :=
  match dict_get G n with
  | Some a => Ok (list_to_set a.*1)
  | None => Raise KeyError
  end.

(** [id_map]: an integer identifier is its own rank. *)
Definition id_map (n : Z) : Z := n.

Fixpoint two_hop_while (fuel : nat) (G : graph) (visited : gset Z)
    (q : list (Z * nat)) : outcome (gset Z) :=
  match fuel with
  | O => OutOfFuel
  | S fuel =>
      match q with
      | [] => Ok visited
      | (cur, d) :: q =>
          if bool_decide (2 ≤ d)%nat then two_hop_while fuel G visited q
          else
            nbs ← neigh G cur;
            let st :=
              foldl (λ (st : gset Z * list (Z * nat)) nb,
                       if decide (nb ∈ st.1) then st
                       else (st.1 ∪ {[nb]}, st.2 ++ [(nb, S d)]))
                (visited, q) (set_iter nbs) in
            two_hop_while fuel G st.1 st.2
      end
  end.

Definition two_hop_nodes (fuel : nat) (G : graph) (n : Z) : outcome (gset Z) :=
  two_hop_while fuel G {[n]} [(n, 0%nat)].

(** The [for nb in neigh[cur]] loop of [exists_monotone_path]; [inl b]
    is [return b], [inr] carries [(seen_states, q)] on. *)
Fixpoint monotone_scan (v : Z) (Vn_set : gset Z) (prev : option Z)
    (depth : nat) (nbs : list Z)
    (st : gset (Z * Z) * list (Z * option Z * nat))
  : bool + gset (Z * Z) * list (Z * option Z * nat) :=
  match nbs with
  | [] => inr st
  | nb :: nbs' =>
      if decide (nb ∉ Vn_set) then monotone_scan v Vn_set prev depth nbs' st
      else if decide (nb = v) then inl true
      else
        let new_state := (nb, id_map nb) in
        let admissible :=
          match prev with
          | None => true
          | Some p => bool_decide (id_map nb < p)
          end in
        if admissible && negb (bool_decide (new_state ∈ st.1)) then
          monotone_scan v Vn_set prev depth nbs'
            (st.1 ∪ {[new_state]}, st.2 ++ [(nb, Some (id_map nb), S depth)])
        else monotone_scan v Vn_set prev depth nbs' st
  end.

(** The [while q] loop; [budget] is [max_states_local - states_explored]. *)
Fixpoint monotone_while (budget : nat) (G : graph) (v : Z) (Vn_set : gset Z)
    (max_depth : nat) (st : gset (Z * Z) * list (Z * option Z * nat))
  : outcome bool :=
  match st.2 with
  | [] => Ok false
  | (cur, prev, depth) :: q =>
      match budget with
      | O => Ok false
      | S budget =>
          if bool_decide (max_depth ≤ depth)%nat
          then monotone_while budget G v Vn_set max_depth (st.1, q)
          else
            nbs ← neigh G cur;
            match monotone_scan v Vn_set prev depth (set_iter nbs) (st.1, q) with
            | inl b => Ok b
            | inr st' => monotone_while budget G v Vn_set max_depth st'
            end
      end
  end.

Definition exists_monotone_path (G : graph) (u v : Z) (Vn_set : gset Z)
    (max_depth max_states_local : nat) : outcome bool :=
  if decide (u = v) then Ok true
  else if decide (u ∉ Vn_set ∨ v ∉ Vn_set) then Ok false
  else monotone_while max_states_local G v Vn_set max_depth (∅, [(u, None, 0%nat)]).

(** The [for j in range(i + 1, ln)] loop: [true] when [n] was removed. *)
Fixpoint scan_partners (G : graph) (Vn_set : gset Z)
    (max_search_depth max_states : nat) (u : Z) (vs : list Z) : outcome bool :=
  match vs with
  | [] => Ok false
  | v :: vs' =>
      nu ← neigh G u;
      if decide (v ∈ nu) then Ok true
      else if decide (u ∉ Vn_set ∨ v ∉ Vn_set)
      then scan_partners G Vn_set max_search_depth max_states u vs'
      else
        found ← exists_monotone_path G u v Vn_set max_search_depth max_states;
        if (found : bool) then Ok true
        else scan_partners G Vn_set max_search_depth max_states u vs'
  end.

(** The [for i in range(ln)] loop. *)
Fixpoint scan_pairs (G : graph) (Vn_set : gset Z)
    (max_search_depth max_states : nat) (NGn_list : list Z) : outcome bool :=
  match NGn_list with
  | [] => Ok false
  | u :: rest =>
      removed ← scan_partners G Vn_set max_search_depth max_states u rest;
      if (removed : bool) then Ok true
      else scan_pairs G Vn_set max_search_depth max_states rest
  end.

Definition select_supernodes (fuel : nat) (G : graph)
    (max_search_depth max_states : nat) : outcome (gset Z) :=
  for_each (nodes G)
    (λ S n,
       Vn ← two_hop_nodes fuel G n;
       NGn ← neigh G n;
       removed ← scan_pairs G Vn max_search_depth max_states (set_iter NGn);
       Ok (if (removed : bool) then S ∖ {[n]} else S))
    (list_to_set (nodes G)).

End supernodes.

(** ** topologies/utils.py *)
Module utils.

(** A row of the edge table: [src], [trg] and the [capacity] cell when
    [float] accepts it. *)
Definition edges_df_to_nx (edges_df : list (Z * Z * option Qc)) : graph :=
  foldl (λ G r, add_edge G r.1.1 r.1.2 None) empty_graph edges_df.

Definition create_lnrollup_hyperedges (G : graph)
  : list (gset Z) * gmap Z (list nat) * gmap (Z * nat) Qc :=
  ([list_to_set (nodes G)],
   list_to_map ((λ n, (n, [0%nat])) <$> nodes G),
   list_to_map ((λ n, ((n, 0%nat), 1%Qc)) <$> nodes G)).

Definition create_supernode_hyperedges (fuel : nat) (G : graph)
  : outcome (list (gset Z) * gmap Z (list nat) * gmap (Z * nat) Qc) :=
  S ← supernodes.select_supernodes fuel G 4 5000;
  '(hyperedges, node_to_hyperedges) ←
    for_each (enumerate (set_iter S))
      (λ '(hyperedges, node_to_hyperedges) '(i, s),
         nbs ← neighbors G s;
         let neighbors : gset Z := list_to_set nbs in
         if bool_decide (size neighbors = 0%nat)
         then Ok (hyperedges, node_to_hyperedges)
         else
           node_to_hyperedges ←
             for_each (set_iter neighbors) (λ d v, dict_append d v i)
               node_to_hyperedges;
           Ok (hyperedges ++ [neighbors], node_to_hyperedges))
      ([], empty_membership G);
  let node_capacity :=
    foldl (λ caps vi,
             foldl (λ caps idx,
                      <[(vi.1, idx) := (1 / Qc_of_nat (length vi.2))%Qc]> caps)
               caps vi.2)
      ∅ (map_to_list node_to_hyperedges) in
  Ok (hyperedges, node_to_hyperedges, node_capacity).

End utils.

(** ** The pairwise edge records of the clique exports *)

Record edge_row := {
  src : Z;
  trg : Z;
  capacity : Qc;
  base_fee : Qc;
  fee_rate : Qc;
  enabled : bool
}.

(** [max(sizes)] of a non-empty list of sizes. *)
Definition max_size (sizes : list nat) : nat := foldr Nat.max 0%nat sizes.

(** ** make_fhs_edges.py *)
Module make_fhs_edges.

Definition compute_node_totals (edges_df : list (Z * Z * option Qc))
  : gmap Z Qc :=
  foldl (λ node_totals r,
           let cap : Qc := default 0%Qc r.2 in
           let node_totals :=
             <[r.1.1 := (default 0 (node_totals !! r.1.1) + cap)%Qc]>
               node_totals in
           <[r.1.2 := (default 0 (node_totals !! r.1.2) + cap)%Qc]>
             node_totals)
    ∅ edges_df.

Definition export_clique_edges_csv (hyperedges : list (gset Z))
    (node_caps : gmap (Z * nat) Qc) (warn_threshold : Z)
  : outcome (list edge_row) :=
  let sizes := size <$> hyperedges in
  if bool_decide (sizes ≠ []) && bool_decide (warn_threshold < Z.of_nat (max_size sizes))
  then Raise (RuntimeError (Z.of_nat (max_size sizes)) warn_threshold)
  else
    Ok (foldl (λ rows ih,
                 foldl (λ rows u,
                          let cap := default 1%Qc (node_caps !! (u, ih.1)) in
                          foldl (λ rows v,
                                   if decide (u = v) then rows
                                   else rows ++ [{| src := u; trg := v;
                                                    capacity := cap;
                                                    base_fee := Qc_of_nat 100;
                                                    fee_rate := 1;
                                                    enabled := true |}])
                            rows (set_iter ih.2))
                   rows (set_iter ih.2))
          [] (enumerate hyperedges)).

(** Lines 131-150 of [main]: the node deposits computed from the edge
    table, for a table that has a [capacity] column. *)
Definition main_node_caps (df : list (Z * Z * option Qc))
    (node_to_hyperedges : gmap Z (list nat)) : gmap (Z * nat) Qc :=
  let node_totals := compute_node_totals df in
  foldl (λ node_caps nh,
           if bool_decide (nh.2 = []) then node_caps
           else
             let total := default 0%Qc (node_totals !! nh.1) in
             let total := if decide (total ≤ 0)%Qc then 1%Qc else total in
             let per := (total / Qc_of_nat (length nh.2))%Qc in
             foldl (λ node_caps idx, <[(nh.1, idx) := per]> node_caps)
               node_caps nh.2)
    ∅ (map_to_list node_to_hyperedges).

(** Lines 114-150 of [main], for a table that has a [capacity] column:
    the graph of the table, its FHS hyperedges and the node deposits. *)
Definition main_hypergraph (fuel : nat) (df : list (Z * Z * option Qc))
    (m_max : Z)
  : outcome (list (gset Z) * gmap Z (list nat) * gmap (Z * nat) Qc) :=
  let G := utils.edges_df_to_nx df in
  '(_, (hyperedges, node_to_hyperedges, _)) ←
    fhs.create_fhs fuel [G] 0 m_max false;
  Ok (hyperedges, node_to_hyperedges,
      main_node_caps df node_to_hyperedges).

(** [detect_endpoint_cols], on the column names of the table; [None] is
    the [RuntimeError] of the last line. *)
Definition detect_endpoint_cols (cols : list string)
  : option (string * string) :=
  if decide ("src" ∈ cols ∧ "trg" ∈ cols) then Some ("src", "trg")
  else if decide ("source" ∈ cols ∧ "target" ∈ cols)
  then Some ("source", "target")
  else
    match
      List.find (λ ab : string * string,
                   bool_decide (ab.1 ∈ cols ∧ ab.2 ∈ cols))
        [("node1", "node2"); ("u", "v"); ("from", "to")]
    with
    | Some ab => Some ab
    | None =>
        if decide (3 ≤ length cols)%nat
        then a ← cols !! 1%nat; b ← cols !! 2%nat; Some (a, b)
        else None
    end.

End make_fhs_edges.

(** ** make_nch_edges.py *)
Module make_nch_edges.

(** [compute_node_totals], for a table that has a [capacity] column; a
    capacity that is no number counts as 0. *)
Definition compute_node_totals (df : list (Z * Z * option Qc)) : gmap Z Qc :=
  foldl (λ totals r,
           let c : Qc := default 0%Qc r.2 in
           let totals :=
             <[r.1.1 := (default 0 (totals !! r.1.1) + c)%Qc]> totals in
           <[r.1.2 := (default 0 (totals !! r.1.2) + c)%Qc]> totals)
    ∅ df.

Definition export_clique (hyperedges : list (gset Z))
    (node_caps : gmap (Z * nat) Qc) (max_clique_size : Z)
    (fee_profile : gmap Z Qc) : outcome (list edge_row) :=
  let sizes := size <$> hyperedges in
  if bool_decide (sizes ≠ []) && bool_decide (max_clique_size < Z.of_nat (max_size sizes))
  then Raise (RuntimeError (Z.of_nat (max_size sizes)) max_clique_size)
  else
    Ok (foldl (λ rows ih,
                 foldl (λ rows u,
                          let cap_u := default 1%Qc (node_caps !! (u, ih.1)) in
                          let base_fee :=
                            if decide (fee_profile = ∅) then Qc_of_nat 100
                            else default (Qc_of_nat 100) (fee_profile !! u) in
                          foldl (λ rows v,
                                   if decide (u = v) then rows
                                   else rows ++ [{| src := u; trg := v;
                                                    capacity := cap_u;
                                                    base_fee := base_fee;
                                                    fee_rate := 1;
                                                    enabled := true |}])
                            rows (set_iter ih.2))
                   rows (set_iter ih.2))
          [] (enumerate hyperedges)).

(** Lines 91-99 of [main]: the node deposits, for a table that has a
    [capacity] column; [or 1.0] replaces a total that is zero. *)
Definition main_node_caps (df : list (Z * Z * option Qc))
    (node_to_hyperedges : gmap Z (list nat)) : gmap (Z * nat) Qc :=
  let node_totals := compute_node_totals df in
  foldl (λ node_caps nh,
           if bool_decide (nh.2 = []) then node_caps
           else
             let total := default 0%Qc (node_totals !! nh.1) in
             let total := if decide (total = 0%Qc) then 1%Qc else total in
             let per := (total / Qc_of_nat (length nh.2))%Qc in
             foldl (λ node_caps idx, <[(nh.1, idx) := per]> node_caps)
               node_caps nh.2)
    ∅ (map_to_list node_to_hyperedges).

(** [detect_endpoint_cols], on the column names of the table; [None] is
    the [IndexError] of [cols[1], cols[2]]. *)
Definition detect_endpoint_cols (cols : list string)
  : option (string * string) :=
  if decide ("src" ∈ cols ∧ "trg" ∈ cols) then Some ("src", "trg")
  else if decide ("source" ∈ cols ∧ "target" ∈ cols)
  then Some ("source", "target")
  else a ← cols !! 1%nat; b ← cols !! 2%nat; Some (a, b).

(** Lines 81-99 of [main], with [--use_edge_capacity] and for a table
    that has a [capacity] column: the graph of the table, its NCH
    hyperedges and the node deposits. *)
Definition main_hypergraph (fuel : nat) (df : list (Z * Z * option Qc))
    (max_cover_size : option nat)
  : outcome (list (gset Z) * gmap Z (list nat) * gmap (Z * nat) Qc) :=
  let G := utils.edges_df_to_nx df in
  '(hyperedges, node_to_hyperedges, _) ←
    nch.create_nch fuel G max_cover_size false;
  Ok (hyperedges, node_to_hyperedges,
      main_node_caps df node_to_hyperedges).

(** [counts[n]] *)
Definition counts_get (counts : gmap Z nat) (n : Z) : outcome nat :=
  match counts !! n with
  | Some c => Ok c
  | None => Raise KeyError
  end.

(** Lines 109-125 of [main], for a table that has one of the fee
    columns; the third component of a row is its fee cell, when [float]
    accepts it. *)
Definition fee_profile (df : list (Z * Z * option Qc)) : outcome (gmap Z Qc) :=
  let pc :=
    foldl (λ (pc : gmap Z Qc * gmap Z nat) r,
             let fee : Qc := default 0%Qc r.2 in
             let profile :=
               <[r.1.1 := (default 0 (pc.1 !! r.1.1) + fee)%Qc]> pc.1 in
             let counts :=
               <[r.1.1 := (default 0 (pc.2 !! r.1.1) + 1)%nat]> pc.2 in
             let profile :=
               <[r.1.2 := (default 0 (profile !! r.1.2) + fee)%Qc]> profile in
             let counts :=
               <[r.1.2 := (default 0 (counts !! r.1.2) + 1)%nat]> counts in
             (profile, counts))
      (∅, ∅) df in
  for_each (map_to_list pc.1)
    (λ (fee_profile : gmap Z Qc) np,
       c ← counts_get pc.2 np.1;
       Ok (<[np.1 := if bool_decide (0 < c)%nat
                      then (np.2 / Qc_of_nat c)%Qc else Qc_of_nat 100]>
             fee_profile))
    ∅.

End make_nch_edges.

(** ** hyper_to_edges.py *)
Module hyper_to_edges.

(** The capacity map is looked up under [(u, idx)] and, failing that,
    under the bare node [u]: its keys are of either shape. *)
Definition hyperedges_to_directed_edges_df (hyperedges : list (gset Z))
    (node_capacity_map : gmap (Z * nat + Z) Qc) (base_fee fee_rate : Qc)
  : list edge_row :=
  foldl (λ rows ih,
           foldl (λ rows u,
                    let cap :=
                      default (default 1%Qc (node_capacity_map !! inr u))
                        (node_capacity_map !! inl (u, ih.1)) in
                    foldl (λ rows v,
                             if decide (u = v) then rows
                             else rows ++ [{| src := u; trg := v;
                                              capacity := cap;
                                              base_fee := base_fee;
                                              fee_rate := fee_rate;
                                              enabled := true |}])
                      rows (set_iter ih.2))
             rows (set_iter ih.2))
    [] (enumerate hyperedges).

End hyper_to_edges.

(** ** make_supernode_edges.py *)
Module make_supernode_edges.

(** Lines 58-76: the conversion of the hyperedges into [rows]. *)
Definition rows (hyperedges : list (gset Z)) (node_caps : gmap (Z * nat) Qc)
  : list edge_row :=
  foldl (λ rows ih,
           foldl (λ rows u,
                    let cap := default 1%Qc (node_caps !! (u, ih.1)) in
                    foldl (λ rows v,
                             if decide (u = v) then rows
                             else rows ++ [{| src := u; trg := v;
                                              capacity := cap;
                                              base_fee := Qc_of_nat 100;
                                              fee_rate := 1;
                                              enabled := true |}])
                      rows (set_iter ih.2))
             rows (set_iter ih.2))
    [] (enumerate hyperedges).

(** Lines 33-37: the incident capacity of every node; [float] raises on
    a cell that is no number. *)
Definition node_totals (edges_df : list (Z * Z * option Qc))
  : outcome (gmap Z Qc) :=
  for_each edges_df
    (λ (node_totals : gmap Z Qc) r,
       match r.2 with
       | None => Raise ValueError
       | Some cap =>
           let node_totals :=
             <[r.1.1 := (default 0 (node_totals !! r.1.1) + cap)%Qc]>
               node_totals in
           Ok (<[r.1.2 := (default 0 (node_totals !! r.1.2) + cap)%Qc]>
                 node_totals)
       end)
    ∅.

(** Lines 39-45: the even split of the totals. *)
Definition split_totals (node_totals : gmap Z Qc)
    (node_to_hyperedges : gmap Z (list nat)) (node_caps : gmap (Z * nat) Qc)
  : gmap (Z * nat) Qc :=
  foldl (λ node_caps ni,
           if bool_decide (ni.2 = []) then node_caps
           else
             let total := default 1%Qc (node_totals !! ni.1) in
             let per := (total / Qc_of_nat (length ni.2))%Qc in
             foldl (λ node_caps idx, <[(ni.1, idx) := per]> node_caps)
               node_caps ni.2)
    node_caps (map_to_list node_to_hyperedges).

(** Lines 30-45, for a table that has a [capacity] column: the deposits
    are computed from the table only when [node_caps] is empty. *)
Definition main_node_caps (edges_df : list (Z * Z * option Qc))
    (node_to_hyperedges : gmap Z (list nat)) (node_caps : gmap (Z * nat) Qc)
  : outcome (gmap (Z * nat) Qc) :=
  if bool_decide (size node_caps = 0%nat) then
    totals ← node_totals edges_df;
    Ok (split_totals totals node_to_hyperedges node_caps)
  else Ok node_caps.

End make_supernode_edges.

(** ** hyperjson_split_and_export.py *)
Module hyperjson_split_and_export.



End hyperjson_split_and_export.

(** ** make_supernode_edges_fixed.py *)
Module make_supernode_edges_fixed.


(** Lines 57-61: the incident capacity of every node; [float] raises on
    a cell that is no number. *)
Definition node_total (df : list (Z * Z * option Qc)) : outcome (gmap Z Qc) :=
  for_each df
    (λ (node_total : gmap Z Qc) r,
       match r.2 with
       | None => Raise ValueError
       | Some cap =>
           let node_total :=
             <[r.1.1 := (default 0 (node_total !! r.1.1) + cap)%Qc]>
               node_total in
           Ok (<[r.1.2 := (default 0 (node_total !! r.1.2) + cap)%Qc]>
                 node_total)
       end)
    ∅.

(** Lines 62-67. *)
Definition split_total (node_total : gmap Z Qc)
    (node_to_hyperedges : gmap Z (list nat)) (node_caps : gmap (Z * nat) Qc)
  : gmap (Z * nat) Qc :=
  foldl (λ node_caps vi,
           if bool_decide (vi.2 = []) then node_caps
           else
             let per :=
               (default 1%Qc (node_total !! vi.1)
                / Qc_of_nat (length vi.2))%Qc in
             foldl (λ node_caps idx, <[(vi.1, idx) := per]> node_caps)
               node_caps vi.2)
    node_caps (map_to_list node_to_hyperedges).

(** Lines 55-67, for a table that has a [capacity] column. *)
Definition main_node_caps (df : list (Z * Z * option Qc))
    (node_to_hyperedges : gmap Z (list nat)) (node_caps : gmap (Z * nat) Qc)
  : outcome (gmap (Z * nat) Qc) :=
  if bool_decide (size node_caps = 0%nat) then
    totals ← node_total df;
    Ok (split_total totals node_to_hyperedges node_caps)
  else Ok node_caps.

(** Lines 76-87. *)
Definition rows (hyperedges : list (gset Z)) (node_caps : gmap (Z * nat) Qc)
  : list edge_row :=
  foldl (λ rows ih,
           if bool_decide (size ih.2 = 0%nat) then rows
           else
             foldl (λ rows u,
                      let cap := default 1%Qc (node_caps !! (u, ih.1)) in
                      foldl (λ rows v,
                               if decide (u = v) then rows
                               else rows ++ [{| src := u; trg := v;
                                                capacity := cap;
                                                base_fee := Qc_of_nat 100;
                                                fee_rate := 1;
                                                enabled := true |}])
                        rows (set_iter ih.2))
               rows (set_iter ih.2))
    [] (enumerate hyperedges).


End make_supernode_edges_fixed.

(** ** Well-formed graphs *)

(** What NetworkX maintains of a [Graph]: one entry per node, and an
    adjacency entry for [v] under [u] exactly when there is one for [u]
    under [v]. *)
Definition wf (G : graph) : Prop :=
  NoDup (nodes G)
  ∧ Forall (λ ka, Forall (λ vd, has_edge G vd.1 ka.1) ka.2) G.

#[global] Instance wf_dec G : Decision (wf G).
Proof. unfold wf, has_edge. apply _. Defined.

(** Graphs without self-loops. *)
Definition simple (G : graph) : Prop := Forall (λ ka, ka.1 ∉ ka.2.*1) G.

#[global] Instance simple_dec G : Decision (simple G).
Proof. unfold simple. apply _. Defined.

(** A set of nodes that touches every edge of [G]. *)
Definition vertex_cover (G : graph) (cover : gset Z) : Prop :=
  ∀ u v, has_edge G u v → u ∈ cover ∨ v ∈ cover.

(** The sum of all degrees, twice the number of edges. *)
Definition total_degree (G : graph) : nat :=
  sum_list ((λ ka, degree_of ka.1 ka.2) <$> G).

(** The measure that every round of the search of [bfs_collect_m]
    decreases. *)
Definition bfs_measure (G : graph) (st : gset Z * list Z * list Z) : nat :=
  (length st.1.2 + 2 * length (filter (λ n, n ∉ st.1.1) (nodes G)))%nat.

(** ** The clique projection, member by member *)

(** The records that member [u] of the hyperedge [hed] sends to every
    other member, in iteration order. *)
Definition outgoing_records (cap base_fee fee_rate : Qc) (hed : gset Z) (u : Z)
  : list edge_row :=
  (λ v, {| src := u; trg := v; capacity := cap; base_fee := base_fee;
           fee_rate := fee_rate; enabled := true |})
  <$> filter (λ v, v ≠ u) (set_iter hed).

(** The projection of a whole hypergraph: hyperedges by index, then the
    members of each, [cap_of u idx] being the capacity of the records of
    [u] in hyperedge [idx]. *)
Definition clique_rows (cap_of : Z → nat → Qc) (fee_of : Z → Qc)
    (fee_rate : Qc) (hyperedges : list (gset Z)) : list edge_row :=
  flat_map (λ ih,
              flat_map (λ u, outgoing_records (cap_of u ih.1) (fee_of u)
                               fee_rate ih.2 u)
                (set_iter ih.2))
    (enumerate hyperedges).

(** ** The membership index *)

(** Every index recorded for a node is a position of the hyperedge
    sequence, the hyperedge there has the node as a member, and no index
    is recorded twice for one node. *)
Definition membership_consistent (hyperedges : list (gset Z))
    (node_to_hyperedges : gmap Z (list nat)) : Prop :=
  ∀ n idxs, node_to_hyperedges !! n = Some idxs →
    NoDup idxs ∧ ∀ i, i ∈ idxs → ∃ hed, hyperedges !! i = Some hed ∧ n ∈ hed.

(** ** Totals and sums of capacities *)

(** The total incident capacity of [n] in an edge table: every row
    credits its capacity to both of its endpoints. *)
Definition incident_total (edges_df : list (Z * Z * option Qc)) (n : Z) : Qc :=
  foldr (λ r acc,
           ((if decide (r.1.1 = n) then default 0 r.2 else 0)
            + (if decide (r.1.2 = n) then default 0 r.2 else 0) + acc)%Qc)
    0%Qc edges_df.

Definition sum_Qc (l : list Qc) : Qc := foldr Qcplus 0%Qc l.

(** ** Example graphs *)

(** The graph of the self-test of [fhs.py], every capacity 100. *)
Definition demo_graph : graph :=
  add_edges_from empty_graph
    ((λ uv : Z * Z, (uv.1, uv.2, Some (Qc_of_nat 100))) <$>
       [(1, 2); (1, 3); (1, 4); (2, 5); (3, 6); (4, 7); (5, 6); (6, 7);
        (7, 8); (8, 9); (9, 10)]).

(** The single edge 1-2, without a capacity and with capacity 0. *)
Definition one_edge : graph := add_edge empty_graph 1 2 None.
Definition one_edge_cap0 : graph := add_edge empty_graph 1 2 (Some (Qc_of_nat 0)).

(** The triangle 0-1-2 with a fourth node 3 joined to 1 and 2. *)
Definition kite : graph :=
  add_edges_from empty_graph
    [(1, 0, None); (1, 2, None); (0, 2, None); (1, 3, None); (2, 3, None)].

(** The isolated node 0 next to the edge 1-2. *)
Definition lone_node_and_edge : graph :=
  add_edge (add_node empty_graph 0) 1 2 None.

(** ** The search of [bfs_collect_m] *)

(** What every round of the search keeps: the visited set is the
    set of the collected nodes, no node is collected twice, the
    queue holds collected nodes, every collected node but the
    first was found from an earlier one, at most
    [max(1, m_max)] nodes are collected, and, until [m_max]
    nodes are collected, the neighbours of a collected node that
    has left the queue are all visited. *)
Definition bfs_inv (G : graph) (m_max : Z) (st : gset Z * list Z * list Z)
  : Prop :=
  (∀ x, x ∈ st.1.1 ↔ x ∈ st.2)
  ∧ NoDup st.2
  ∧ (∀ x, x ∈ st.1.2 → x ∈ st.2)
  ∧ (∀ i x, st.2 !! S i = Some x →
       ∃ j y, (j ≤ i)%nat ∧ st.2 !! j = Some y ∧ has_edge G y x)
  ∧ Z.of_nat (length st.2) ≤ Z.max 1 m_max
  ∧ (m_max ≤ Z.of_nat (length st.2)
     ∨ ∀ x y, x ∈ st.2 → x ∉ st.1.2 → has_edge G x y → y ∈ st.1.1).

(** ** Hyperedges as clusters of the graph *)

(** Any two members of [S] are joined by a path of [G] that stays
    inside [S]. *)
Definition connected_in (G : graph) (S : gset Z) : Prop :=
  ∀ x y, x ∈ S → y ∈ S →
    rtc (λ a b, has_edge G a b ∧ a ∈ S ∧ b ∈ S) x y.

(** The positions, in increasing order, of the hyperedges that
    have [v] as a member. *)
Definition positions_of (hyperedges : list (gset Z)) (v : Z) : list nat :=
  filter (λ i, v ∈ default ∅ (hyperedges !! i)) (seq 0 (length hyperedges)).

(** The index a [defaultdict] ends with: the positions of the
    hyperedges a node is in, and no key for a node that is in
    none. *)
Definition member_index (hyperedges : list (gset Z)) (v : Z)
  : option (list nat) :=
  if decide (positions_of hyperedges v = []) then None
  else Some (positions_of hyperedges v).

(** What [create_fhs] keeps of every hyperedge and of the index. *)
Definition fhs_structure (g0 : graph) (m_max : Z)
    (hyperedges : list (gset Z)) (node_to_hyperedges : gmap Z (list nat))
  : Prop :=
  Forall (λ hed, (2 ≤ size hed)%nat ∧ Z.of_nat (size hed) ≤ m_max
                 ∧ (∀ x, x ∈ hed → ∃ y, has_edge g0 x y)
                 ∧ connected_in g0 hed) hyperedges
  ∧ ∀ v, node_to_hyperedges !! v
         = if decide (v ∈ nodes g0) then Some (positions_of hyperedges v)
           else None.

(** ** Neighbourhoods *)

(** The set of the neighbours of [c]; empty when [c] is no node. *)
Definition neighbour_set (G : graph) (c : Z) : gset Z :=
  list_to_set (default [] (dict_get G c)).*1.

(** The nodes at most two edges away from [n]. *)
Definition within_two_hops (G : graph) (n x : Z) : Prop :=
  x = n ∨ has_edge G n x ∨ ∃ y, has_edge G n y ∧ has_edge G y x.

(** What the search of [two_hop_nodes] decreases: the queue and
    the nodes not yet visited. *)
Definition two_hop_measure (G : graph) (visited : gset Z)
    (q : list (Z * nat)) : nat :=
  (length q + length (filter (λ n, n ∉ visited) (nodes G)))%nat.

(** Graphs none of whose edges carries a capacity. *)
Definition no_capacity (G : graph) : Prop :=
  ∀ n adj, dict_get G n = Some adj → Forall (λ vd, vd.2 = None) adj.

(** ** The split of a hypergraph by hyperedge size *)


(** ** The endpoint columns of a table *)

(** The pairs of column names that [make_fhs_edges.py] knows. *)
Definition known_endpoint_cols : list (string * string) :=
  [("src", "trg"); ("source", "target"); ("node1", "node2"); ("u", "v");
   ("from", "to")].

(** ** Monotone paths *)

(** A trail of the path search from [u]: the internal nodes visited so
    far, each adjacent to the one before it (the first to [u]), all in
    [Vn_set] and with strictly decreasing identifiers; the last argument
    is the node the trail stands on. *)
Inductive trail (G : graph) (Vn_set : gset Z) (u : Z) : list Z → Z → Prop :=
  | trail_start : trail G Vn_set u [] u
  | trail_step mid cur nb :
      trail G Vn_set u mid cur → has_edge G cur nb → nb ∈ Vn_set →
      (∀ p, last mid = Some p → supernodes.id_map nb < supernodes.id_map p) →
      trail G Vn_set u (mid ++ [nb]) nb.

(** What a state [(cur, prev_internal_id, depth)] of the queue stands
    for: a trail that ends on [cur]. *)
Definition reached (G : graph) (Vn_set : gset Z) (u : Z)
    (s : Z * option Z * nat) : Prop :=
  ∃ mid, trail G Vn_set u mid s.1.1
         ∧ s.1.2 = supernodes.id_map <$> last mid
         ∧ s.2 = length mid.

(** The number of times [n] is an endpoint of a row. *)
Definition incident_count (edges_df : list (Z * Z * option Qc)) (n : Z) : nat :=
  foldr (λ r acc,
           ((if decide (r.1.1 = n) then 1 else 0)
            + (if decide (r.1.2 = n) then 1 else 0) + acc)%nat)
    0%nat edges_df.

(** * Properties *)

(** ** Dictionaries *)
Section dict.
Context {V : Type}.
Implicit Types (d : list (Z * V)) (k : Z) (v : V).

Lemma dict_get_set d k v k' :
  dict_get (dict_set d k v) k' = if decide (k = k') then Some v else dict_get d k'.
Proof.
  induction d as [|[k0 v0] d IH]; simpl.
  - repeat case_decide; congruence.
  - destruct (decide (k0 = k)) as [->|Hne]; simpl.
    + repeat case_decide; congruence.
    + rewrite IH. repeat case_decide; congruence.
Qed.

Lemma dict_get_del d k k' :
  dict_get (dict_del d k) k' = if decide (k = k') then None else dict_get d k'.
Proof.
  unfold dict_del. induction d as [|[k0 v0] d IH]; simpl.
  - by case_decide.
  - rewrite filter_cons. simpl. destruct (decide (k0 ≠ k)) as [Hne|Heq]; simpl.
    + rewrite IH. repeat case_decide; congruence.
    + apply dec_stable in Heq. subst k0. rewrite IH. repeat case_decide; congruence.
Qed.

Lemma dict_get_app d1 d2 k :
  dict_get (d1 ++ d2) k = from_option Some (dict_get d2 k) (dict_get d1 k).
Proof.
  induction d1 as [|[k0 v0] d1 IH]; simpl; [done|]. by case_decide.
Qed.

Lemma dict_get_Some_elem d k v : dict_get d k = Some v → (k, v) ∈ d.
Proof.
  induction d as [|[k0 v0] d IH]; simpl; [done|].
  case_decide; intros ?; simplify_eq; [left | right; auto].
Qed.

Lemma dict_get_is_Some d k : is_Some (dict_get d k) ↔ k ∈ d.*1.
Proof.
  induction d as [|[k0 v0] d IH]; simpl.
  - split; [by intros [? ?] | by intros ?%elem_of_nil].
  - rewrite elem_of_cons. case_decide; subst.
    + split; eauto.
    + rewrite IH. split; [by right | by intros [?|?]].
Qed.

Lemma dict_get_None d k : dict_get d k = None ↔ k ∉ d.*1.
Proof. by rewrite <-dict_get_is_Some, eq_None_not_Some. Qed.

Lemma dict_get_elem_NoDup d k v :
  NoDup d.*1 → (k, v) ∈ d → dict_get d k = Some v.
Proof.
  induction d as [|[k0 v0] d IH]; simpl; [by intros _ ?%elem_of_nil|].
  rewrite NoDup_cons, elem_of_cons. intros [Hk0 Hnd] [Heq|Hin].
  - simplify_eq. by rewrite decide_True.
  - rewrite decide_False; [auto|]. intros ->. apply Hk0.
    apply list_elem_of_fmap. by exists (k, v).
Qed.

Lemma dict_del_keys d k : (dict_del d k).*1 = filter (λ k', k' ≠ k) d.*1.
Proof.
  unfold dict_del. induction d as [|[k0 v0] d IH]; simpl; [done|].
  rewrite !filter_cons. simpl. case_decide; csimpl; by rewrite IH.
Qed.

Lemma dict_del_length d k : (length (dict_del d k) ≤ length d)%nat.
Proof. apply length_filter. Qed.

Lemma dict_del_length_lt d k :
  k ∈ d.*1 → (length (dict_del d k) < length d)%nat.
Proof.
  unfold dict_del. induction d as [|[k0 v0] d IH]; simpl.
  - by intros ?%elem_of_nil.
  - rewrite elem_of_cons, filter_cons. simpl. intros Hin.
    case_decide as Hk; simpl.
    + destruct Hin as [->|Hin]; [done|]. apply IH in Hin. lia.
    + pose proof (length_filter (λ kv : Z * V, kv.1 ≠ k) d). lia.
Qed.

Lemma dict_del_id d k : k ∉ d.*1 → dict_del d k = d.
Proof.
  unfold dict_del. induction d as [|[k0 v0] d IH]; simpl; [done|].
  rewrite not_elem_of_cons, filter_cons. simpl. intros [Hne Hin].
  rewrite decide_True by done. by rewrite IH.
Qed.

Lemma elem_of_dict_set_keys d k v k' :
  k' ∈ (dict_set d k v).*1 ↔ k' = k ∨ k' ∈ d.*1.
Proof.
  rewrite <-!dict_get_is_Some, dict_get_set. case_decide; subst.
  - split; [by left | by eauto].
  - split; [by right | by intros [?|?]].
Qed.

Lemma elem_of_dict_del_keys d k k' :
  k' ∈ (dict_del d k).*1 ↔ k' ≠ k ∧ k' ∈ d.*1.
Proof.
  rewrite <-!dict_get_is_Some, dict_get_del. case_decide; subst.
  - split; [by intros [? ?] | by intros [? _]].
  - split; [by split | by intros [_ ?]].
Qed.

End dict.

(** ** The graph operations *)
Section graph_ops.
Implicit Types (G : graph) (u v a b n k : Z).

Lemma has_edge_alt G u v :
  has_edge G u v ↔ ∃ adj, dict_get G u = Some adj ∧ v ∈ adj.*1.
Proof.
  unfold has_edge, edge_data. destruct (dict_get G u) as [adj|]; simpl.
  - rewrite dict_get_is_Some. split; [by eauto|]. by intros (? & [= <-] & ?).
  - split; [by intros [? ?]|]. by intros (? & ? & ?).
Qed.

Lemma has_edge_node G u v : has_edge G u v → u ∈ nodes G.
Proof.
  rewrite has_edge_alt. intros (adj & Hu & _).
  apply dict_get_is_Some. eauto.
Qed.

Lemma wf_alt G :
  wf G ↔ NoDup (nodes G) ∧ ∀ u v, has_edge G u v → has_edge G v u.
Proof.
  unfold wf. split; intros [Hnd Hsym]; split; try done.
  - intros u v (adj & Hu & Hv)%has_edge_alt.
    apply dict_get_Some_elem in Hu.
    apply list_elem_of_fmap in Hv as ([v' d] & -> & Hv).
    rewrite Forall_forall in Hsym. specialize (Hsym _ Hu).
    rewrite Forall_forall in Hsym. apply (Hsym _ Hv).
  - apply Forall_forall. intros [u adj] Hu. apply Forall_forall.
    intros [v d] Hv. simpl. apply Hsym, has_edge_alt. exists adj. split.
    + by apply dict_get_elem_NoDup.
    + apply list_elem_of_fmap. by exists (v, d).
Qed.

Lemma wf_NoDup G : wf G → NoDup (nodes G).
Proof. by intros [? _]%wf_alt. Qed.

Lemma wf_sym G u v : wf G → has_edge G u v → has_edge G v u.
Proof. intros [_ Hsym]%wf_alt. apply Hsym. Qed.

Lemma simple_alt G : NoDup (nodes G) → simple G ↔ ∀ u, ¬ has_edge G u u.
Proof.
  intros Hnd. unfold simple. rewrite Forall_forall. split.
  - intros Hs u (adj & Hu & Hin)%has_edge_alt.
    apply dict_get_Some_elem in Hu. by apply (Hs _ Hu).
  - intros Hs [u adj] Hu Hin. apply (Hs u), has_edge_alt.
    exists adj. split; [by apply dict_get_elem_NoDup | done].
Qed.

Lemma dict_get_adj_update f n G k :
  dict_get (adj_update f n G) k
  = if decide (k = n) then f <$> dict_get G k else dict_get G k.
Proof.
  unfold adj_update. induction G as [|[k0 a0] G IH]; simpl.
  - by case_decide.
  - destruct (decide (k0 = n)) as [->|Hne]; simpl.
    + destruct (decide (n = k)) as [->|Hne]; simpl.
      * by rewrite decide_True.
      * rewrite IH. by rewrite (decide_False (P := k = n)).
    + destruct (decide (k0 = k)) as [->|Hne']; simpl.
      * by rewrite decide_False.
      * apply IH.
Qed.

Lemma nodes_adj_update f n G : nodes (adj_update f n G) = nodes G.
Proof.
  unfold nodes, adj_update. induction G as [|[k0 a0] G IH]; csimpl; [done|].
  rewrite IH. by case_decide.
Qed.

Lemma length_adj_update f n G : length (adj_update f n G) = length G.
Proof. apply length_map. Qed.

Lemma dict_get_add_node G n k :
  dict_get (add_node G n) k
  = if decide (k = n) then Some (default [] (dict_get G n)) else dict_get G k.
Proof.
  unfold add_node. destruct (dict_get G n) as [adj|] eqn:Hn; simpl.
  - case_decide; by subst.
  - rewrite dict_get_app. simpl. case_decide as Hk.
    + subst. by rewrite Hn, decide_True.
    + rewrite decide_False by done. by destruct (dict_get G k).
Qed.

Lemma nodes_add_node G n :
  nodes (add_node G n) = if decide (n ∈ nodes G) then nodes G else nodes G ++ [n].
Proof.
  unfold add_node, nodes. destruct (dict_get G n) as [adj|] eqn:Hn.
  - rewrite decide_True; [done|]. apply dict_get_is_Some. eauto.
  - rewrite decide_False; [|by apply dict_get_None].
    by rewrite fmap_app.
Qed.

Lemma elem_of_nodes_add_node G n k :
  k ∈ nodes (add_node G n) ↔ k ∈ nodes G ∨ k = n.
Proof.
  rewrite nodes_add_node. case_decide.
  - split; [by left|]. by intros [?| ->].
  - rewrite elem_of_app, list_elem_of_singleton. done.
Qed.

Lemma NoDup_nodes_add_node G n : NoDup (nodes G) → NoDup (nodes (add_node G n)).
Proof.
  intros Hnd. rewrite nodes_add_node. case_decide; [done|].
  apply NoDup_app. split_and!; [done| |apply NoDup_singleton].
  intros x Hx ->%list_elem_of_singleton. done.
Qed.

Lemma has_edge_add_node G n a b : has_edge (add_node G n) a b ↔ has_edge G a b.
Proof.
  rewrite !has_edge_alt, dict_get_add_node. case_decide as Ha; [|done].
  subst. destruct (dict_get G n) as [adj|]; simpl; [done|].
  split; intros (adj & Hadj & Hin); simplify_eq. by apply elem_of_nil in Hin.
Qed.

Lemma has_edge_add_edge G u v attr a b :
  has_edge (add_edge G u v attr) a b
  ↔ has_edge G a b ∨ (a = u ∧ b = v) ∨ (a = v ∧ b = u).
Proof.
  unfold add_edge.
  set (G1 := add_node (add_node G u) v).
  set (dd := match attr with Some c => Some c | None => _ end).
  assert (HG1 : ∀ x y, has_edge G1 x y ↔ has_edge G x y).
  { intros x y. unfold G1. by rewrite !has_edge_add_node. }
  assert (Hu : is_Some (dict_get G1 u)).
  { apply dict_get_is_Some. unfold G1.
    rewrite !elem_of_nodes_add_node. auto. }
  assert (Hv : is_Some (dict_get G1 v)).
  { apply dict_get_is_Some. unfold G1.
    rewrite !elem_of_nodes_add_node. auto. }
  rewrite <-HG1. rewrite !has_edge_alt. rewrite !dict_get_adj_update.
  destruct Hu as [au Hu], Hv as [av Hv].
  destruct (decide (a = v)) as [Hav|Hav], (decide (a = u)) as [Hau|Hau];
    simplify_eq; rewrite ?Hu, ?Hv; simpl.
  all: try (split; [by left | by intros [?|[[? _]|[? _]]]]).
  all: split;
    [ intros (adj & [= <-] & Hin); rewrite !elem_of_dict_set_keys in Hin;
      destruct_or!; subst; eauto 6
    | intros Hor; eexists; split; [done|]; rewrite !elem_of_dict_set_keys;
      destruct Hor as [(adj & [= <-] & Hin)|[[? ?]|[? ?]]]; subst; auto ].
Qed.

Lemma elem_of_nodes_add_edge G u v attr k :
  k ∈ nodes (add_edge G u v attr) ↔ k ∈ nodes G ∨ k = u ∨ k = v.
Proof.
  unfold add_edge. rewrite !nodes_adj_update, !elem_of_nodes_add_node.
  tauto.
Qed.

Lemma wf_add_node G n : wf G → wf (add_node G n).
Proof.
  rewrite !wf_alt. intros [Hnd Hsym]. split.
  - by apply NoDup_nodes_add_node.
  - intros u v. rewrite !has_edge_add_node. apply Hsym.
Qed.

Lemma wf_add_edge G u v attr : wf G → wf (add_edge G u v attr).
Proof.
  rewrite !wf_alt. intros [Hnd Hsym]. split.
  - unfold add_edge. rewrite !nodes_adj_update.
    by do 2 apply NoDup_nodes_add_node.
  - intros a b. rewrite !has_edge_add_edge.
    intros [?|[[-> ->]|[-> ->]]]; auto.
Qed.

Lemma wf_empty : wf empty_graph.
Proof. split; [apply NoDup_nil_2 | apply Forall_nil_2]. Qed.

End graph_ops.

Section graph_removal.
Implicit Types (G : graph) (u v a b n k : Z).

Lemma dict_get_map_values {V W} (f : V → W) (d : list (Z * V)) k :
  dict_get (map (λ kv, (kv.1, f kv.2)) d) k = f <$> dict_get d k.
Proof.
  induction d as [|[k0 v0] d IH]; simpl; [done|]. by case_decide.
Qed.

Lemma dict_get_drop_node G n k :
  dict_get (drop_node G n) k
  = if decide (n = k) then None else (λ adj, dict_del adj n) <$> dict_get G k.
Proof.
  unfold drop_node.
  rewrite (dict_get_map_values (λ adj : list (Z * option Qc), dict_del adj n)).
  rewrite dict_get_del. by case_decide.
Qed.

Lemma has_edge_drop_node G n a b :
  has_edge (drop_node G n) a b ↔ has_edge G a b ∧ a ≠ n ∧ b ≠ n.
Proof.
  rewrite !has_edge_alt, dict_get_drop_node. case_decide as Hn.
  - subst. split; [by intros (? & ? & ?) | by intros (_ & ? & _)].
  - destruct (dict_get G a) as [adj|]; simpl.
    + split.
      * intros (? & [= <-] & Hin). apply elem_of_dict_del_keys in Hin as [? ?].
        split_and!; eauto.
      * intros ((? & [= <-] & Hin) & _ & Hb). eexists. split; [done|].
        by apply elem_of_dict_del_keys.
    + split; [by intros (? & ? & ?) | by intros ((? & ? & ?) & _)].
Qed.

Lemma nodes_drop_node G n : nodes (drop_node G n) = filter (λ k, k ≠ n) (nodes G).
Proof.
  unfold drop_node, nodes. rewrite <-dict_del_keys.
  rewrite <-list_fmap_compose. done.
Qed.

Lemma wf_drop_node G n : wf G → wf (drop_node G n).
Proof.
  rewrite !wf_alt. intros [Hnd Hsym]. split.
  - rewrite nodes_drop_node. by apply NoDup_filter.
  - intros u v. rewrite !has_edge_drop_node. intros (? & ? & ?). auto.
Qed.

Lemma length_drop_node G n :
  n ∈ nodes G → (length (drop_node G n) < length G)%nat.
Proof.
  intros Hn. unfold drop_node. rewrite length_map.
  by apply dict_del_length_lt.
Qed.

Lemma nodes_remove_edge G u v : nodes (remove_edge G u v) = nodes G.
Proof.
  unfold remove_edge. case_bool_decide; [|done].
  by rewrite !nodes_adj_update.
Qed.

Lemma has_edge_remove_edge G u v a b :
  wf G →
  has_edge (remove_edge G u v) a b
  ↔ has_edge G a b ∧ ¬ (a = u ∧ b = v) ∧ ¬ (a = v ∧ b = u).
Proof.
  intros Hwf. unfold remove_edge. case_bool_decide as Huv.
  - rewrite !has_edge_alt, !dict_get_adj_update.
    destruct (dict_get G a) as [adj|]; simpl.
    + destruct (decide (a = v)) as [Hav|Hav], (decide (a = u)) as [Hau|Hau];
        simpl; split.
      all: try (intros (? & [= <-] & Hin);
                rewrite ?elem_of_dict_del_keys in Hin;
                split; [by exists adj; split; [|apply Hin]|]; split; intros [? ?];
                simplify_eq; tauto).
      all: intros ((? & [= <-] & Hin) & Hn1 & Hn2); eexists; split; [done|];
        rewrite ?elem_of_dict_del_keys; split_and?; try done;
        intros ->; auto.
    + repeat case_decide; simpl; split;
        solve [by intros (? & ? & ?) | by intros ((? & ? & ?) & _)].
  - split; [|by intros [? _]]. intros Hab. split_and!; [done|..].
    + intros [-> ->]. done.
    + intros [-> ->]. by apply Huv, wf_sym.
Qed.

Lemma wf_remove_edge G u v : wf G → wf (remove_edge G u v).
Proof.
  intros Hwf. apply wf_alt. split.
  - rewrite nodes_remove_edge. by apply wf_NoDup.
  - intros a b. rewrite !has_edge_remove_edge by done.
    intros (Hab & Hn1 & Hn2). split_and!; [by apply wf_sym|..]; tauto.
Qed.

Lemma wf_remove_edges_from G es : wf G → wf (remove_edges_from G es).
Proof.
  unfold remove_edges_from. revert G.
  induction es as [|e es IH]; intros G Hwf; simpl; [done|].
  by apply IH, wf_remove_edge.
Qed.

Lemma nodes_remove_edges_from G es : nodes (remove_edges_from G es) = nodes G.
Proof.
  unfold remove_edges_from. revert G.
  induction es as [|e es IH]; intros G; simpl; [done|].
  by rewrite IH, nodes_remove_edge.
Qed.

Lemma has_edge_remove_edges_from G es a b :
  wf G →
  has_edge (remove_edges_from G es) a b
  ↔ has_edge G a b ∧ ((a, b) ∉ es) ∧ ((b, a) ∉ es).
Proof.
  unfold remove_edges_from. revert G.
  induction es as [|[x y] es IH]; intros G Hwf; simpl.
  - split; [|by intros [? _]]. intros ?. split_and!; [done|..]; apply not_elem_of_nil.
  - rewrite IH by (by apply wf_remove_edge).
    rewrite has_edge_remove_edge by done. rewrite !not_elem_of_cons.
    split.
    + intros ((? & ? & ?) & ? & ?). split_and!; try done; intros [= -> ->]; tauto.
    + intros (? & [? ?] & [? ?]). split_and!; try done; intros [-> ->]; done.
Qed.

Lemma wf_remove_nodes_from G ns : wf G → wf (remove_nodes_from G ns).
Proof.
  unfold remove_nodes_from. revert G.
  induction ns as [|n ns IH]; intros G Hwf; simpl; [done|].
  apply IH. destruct (has_node G n); [by apply wf_drop_node | done].
Qed.

Lemma has_node_spec G n : has_node G n = true ↔ n ∈ nodes G.
Proof.
  unfold has_node. rewrite bool_decide_eq_true. apply dict_get_is_Some.
Qed.

Lemma has_edge_remove_nodes_from G ns a b :
  wf G →
  has_edge (remove_nodes_from G ns) a b
  ↔ has_edge G a b ∧ (a ∉ ns) ∧ (b ∉ ns).
Proof.
  unfold remove_nodes_from. revert G.
  induction ns as [|n ns IH]; intros G Hwf; simpl.
  - split; [|by intros [? _]]. intros ?. split_and!; [done|..]; apply not_elem_of_nil.
  - rewrite !not_elem_of_cons. destruct (has_node G n) eqn:Hn.
    + rewrite IH by (by apply wf_drop_node). rewrite has_edge_drop_node. tauto.
    + rewrite IH by done.
      assert (n ∉ nodes G) as Hn'.
      { rewrite <-has_node_spec. by rewrite Hn. }
      split; [|tauto]. intros (Hab & ? & ?). split_and!; try done.
      * intros ->. by apply Hn', (has_edge_node _ _ b).
      * intros ->. by apply Hn', (has_edge_node _ _ a), wf_sym.
Qed.

End graph_removal.

Section graph_copy.
Implicit Types (G : graph) (u v a b n k : Z).

Lemma wf_add_nodes_from G ns : wf G → wf (add_nodes_from G ns).
Proof.
  unfold add_nodes_from. revert G.
  induction ns as [|n ns IH]; intros G Hwf; simpl; [done|].
  by apply IH, wf_add_node.
Qed.

Lemma has_edge_add_nodes_from G ns a b :
  has_edge (add_nodes_from G ns) a b ↔ has_edge G a b.
Proof.
  unfold add_nodes_from. revert G.
  induction ns as [|n ns IH]; intros G; simpl; [done|].
  by rewrite IH, has_edge_add_node.
Qed.

Lemma nodes_add_nodes_from G ns :
  NoDup ns → (∀ k, k ∈ ns → k ∉ nodes G) →
  nodes (add_nodes_from G ns) = nodes G ++ ns.
Proof.
  unfold add_nodes_from. revert G.
  induction ns as [|n ns IH]; intros G Hnd Hfresh; simpl.
  - by rewrite app_nil_r.
  - apply NoDup_cons in Hnd as [Hn Hnd].
    assert (nodes (add_node G n) = nodes G ++ [n]) as Hnodes.
    { rewrite nodes_add_node, decide_False; [done|]. apply Hfresh. by left. }
    rewrite IH, Hnodes; [by rewrite <-app_assoc|done|].
    intros k Hk. rewrite Hnodes, not_elem_of_app, list_elem_of_singleton.
    split; [apply Hfresh; by right|]. by intros ->.
Qed.

Lemma wf_add_edges_from G es : wf G → wf (add_edges_from G es).
Proof.
  unfold add_edges_from. revert G.
  induction es as [|e es IH]; intros G Hwf; simpl; [done|].
  by apply IH, wf_add_edge.
Qed.

Lemma has_edge_add_edges_from G es a b :
  has_edge (add_edges_from G es) a b
  ↔ has_edge G a b ∨ ∃ d, (a, b, d) ∈ es ∨ (b, a, d) ∈ es.
Proof.
  unfold add_edges_from. revert G.
  induction es as [|[[x y] d] es IH]; intros G; simpl.
  - split; [by left|]. intros [?|(d & [?%elem_of_nil|?%elem_of_nil])]; done.
  - rewrite IH, has_edge_add_edge. split.
    + intros [[?|[[-> ->]|[-> ->]]]|(d' & [?|?])]; [by left|right..].
      * exists d. left. left.
      * exists d. right. left.
      * exists d'. left. by right.
      * exists d'. right. by right.
    + intros [?|(d' & [Hin|Hin])]; [by auto|..];
        apply elem_of_cons in Hin as [[= -> -> ->]|Hin]; eauto 6.
Qed.

Lemma nodes_add_edge_id G u v attr :
  u ∈ nodes G → v ∈ nodes G → nodes (add_edge G u v attr) = nodes G.
Proof.
  intros Hu Hv. unfold add_edge. rewrite !nodes_adj_update.
  rewrite nodes_add_node, decide_True.
  - by rewrite nodes_add_node, decide_True.
  - apply elem_of_nodes_add_node. by left.
Qed.

Lemma nodes_add_edges_from G es :
  (∀ e, e ∈ es → e.1.1 ∈ nodes G ∧ e.1.2 ∈ nodes G) →
  nodes (add_edges_from G es) = nodes G.
Proof.
  unfold add_edges_from. revert G.
  induction es as [|e es IH]; intros G Hes; simpl; [done|].
  destruct (Hes e) as [Hu Hv]; [by left|].
  rewrite IH; [by apply nodes_add_edge_id|].
  intros e' He'. rewrite nodes_add_edge_id by done. apply Hes. by right.
Qed.

Lemma elem_of_adjacency_entries G a b d :
  (a, b, d) ∈ flat_map (λ ka, map (λ vd, (ka.1, vd.1, vd.2)) ka.2) G
  ↔ ∃ adj, (a, adj) ∈ G ∧ (b, d) ∈ adj.
Proof.
  rewrite list_elem_of_In, in_flat_map. split.
  - intros ([a' adj] & Hin & Hmap). simpl in *.
    apply list_elem_of_In, list_elem_of_fmap in Hmap as ([b' d'] & [= -> -> ->] & Hbd).
    exists adj. split; [by apply list_elem_of_In|done].
  - intros (adj & Ha & Hbd). exists (a, adj). split; [by apply list_elem_of_In|].
    simpl. apply list_elem_of_In, list_elem_of_fmap. by exists (b, d).
Qed.

Lemma has_edge_entries G a b :
  NoDup (nodes G) →
  has_edge G a b
  ↔ ∃ d, (a, b, d) ∈ flat_map (λ ka, map (λ vd, (ka.1, vd.1, vd.2)) ka.2) G.
Proof.
  intros Hnd. rewrite has_edge_alt. split.
  - intros (adj & Ha & Hb). apply list_elem_of_fmap in Hb as ([b' d] & -> & Hb).
    exists d. apply elem_of_adjacency_entries. exists adj.
    split; [by apply dict_get_Some_elem | done].
  - intros (d & (adj & Ha & Hb)%elem_of_adjacency_entries).
    exists adj. split; [by apply dict_get_elem_NoDup|].
    apply list_elem_of_fmap. by exists (b, d).
Qed.

Lemma has_edge_copy G a b : wf G → has_edge (copy G) a b ↔ has_edge G a b.
Proof.
  intros Hwf. pose proof (wf_NoDup _ Hwf) as Hnd. unfold copy.
  rewrite has_edge_add_edges_from, has_edge_add_nodes_from. split.
  - intros [(? & ? & ?)%has_edge_alt|(d & [Hin|Hin])]; [done|..].
    + apply has_edge_entries; eauto.
    + apply wf_sym; [done|]. apply has_edge_entries; eauto.
  - intros (d & Hin)%has_edge_entries; [|done]. right. eauto.
Qed.

Lemma nodes_copy G : wf G → nodes (copy G) = nodes G.
Proof.
  intros Hwf. pose proof (wf_NoDup _ Hwf) as Hnd. unfold copy.
  assert (nodes (add_nodes_from empty_graph (nodes G)) = nodes G) as Hnodes.
  { rewrite nodes_add_nodes_from; [done..|]. intros k _. apply not_elem_of_nil. }
  rewrite nodes_add_edges_from; [done|].
  intros [[a b] d] Hin. simpl. rewrite Hnodes.
  assert (has_edge G a b) as Hab by (apply has_edge_entries; eauto).
  split; [by eapply has_edge_node|]. eapply has_edge_node, wf_sym; eauto.
Qed.

Lemma wf_copy G : wf (copy G).
Proof. apply wf_add_edges_from, wf_add_nodes_from, wf_empty. Qed.

Lemma length_copy G : wf G → length (copy G) = length G.
Proof.
  intros Hwf. apply nodes_copy in Hwf. unfold nodes in Hwf.
  by rewrite <-(length_fmap fst (copy G)), Hwf, length_fmap.
Qed.

Lemma wf_edges_df_to_nx df : wf (utils.edges_df_to_nx df).
Proof.
  unfold utils.edges_df_to_nx. generalize wf_empty. generalize empty_graph.
  induction df as [|r df IH]; intros G Hwf; simpl; [done|].
  by apply IH, wf_add_edge.
Qed.

End graph_copy.

(** ** Degrees and the number of edges *)
Section degrees.
Implicit Types (G : graph) (u v a b n k : Z).

Lemma number_of_edges_total G : number_of_edges G = (total_degree G / 2)%nat.
Proof.
  unfold number_of_edges, total_degree, degree_view. f_equal. f_equal.
  rewrite <-list_fmap_compose. done.
Qed.

Lemma sum_list_elem {A} (f : A → nat) (l : list A) x :
  x ∈ l → (f x ≤ sum_list (f <$> l))%nat.
Proof.
  induction l as [|y l IH]; [by intros ?%elem_of_nil|].
  intros [->|Hin]%elem_of_cons; csimpl; [lia|]. apply IH in Hin. lia.
Qed.

Lemma sum_list_two_elems {A} (f : A → nat) (l : list A) x y :
  x ∈ l → y ∈ l → x ≠ y → (f x + f y ≤ sum_list (f <$> l))%nat.
Proof.
  induction l as [|z l IH]; [by intros ?%elem_of_nil|].
  intros [->|Hx]%elem_of_cons [->|Hy]%elem_of_cons Hne; csimpl.
  - done.
  - pose proof (sum_list_elem f l y Hy). lia.
  - pose proof (sum_list_elem f l x Hx). lia.
  - specialize (IH Hx Hy Hne). lia.
Qed.

Lemma degree_of_pos n (adj : list (Z * option Qc)) k :
  k ∈ adj.*1 → (1 ≤ degree_of n adj)%nat.
Proof.
  unfold degree_of. destruct adj; [by intros ?%elem_of_nil|]. simpl. lia.
Qed.

Lemma degree_of_loop n (adj : list (Z * option Qc)) :
  n ∈ adj.*1 → (2 ≤ degree_of n adj)%nat.
Proof.
  unfold degree_of. intros Hn. rewrite bool_decide_eq_true_2 by done.
  destruct adj; [by apply elem_of_nil in Hn|]. simpl. lia.
Qed.

(** An edge makes the total degree at least two. *)
Lemma total_degree_edge G a b :
  wf G → has_edge G a b → (2 ≤ total_degree G)%nat.
Proof.
  intros Hwf Hab. pose proof (wf_sym _ _ _ Hwf Hab) as Hba.
  apply has_edge_alt in Hab as (adja & Ha & Hb).
  apply has_edge_alt in Hba as (adjb & Hb' & Ha').
  apply dict_get_Some_elem in Ha, Hb'. unfold total_degree.
  destruct (decide (a = b)) as [->|Hne].
  - pose proof (sum_list_elem (λ ka, degree_of ka.1 ka.2) G _ Ha) as Hle.
    pose proof (degree_of_loop _ _ Hb). cbv beta in Hle. cbn [fst snd] in Hle. lia.
  - assert ((a, adja) ≠ (b, adjb)) as Hneq by congruence.
    pose proof (sum_list_two_elems (λ ka, degree_of ka.1 ka.2) G _ _ Ha Hb' Hneq) as Hle.
    pose proof (degree_of_pos a _ _ Hb). pose proof (degree_of_pos b _ _ Ha').
    cbv beta in Hle. cbn [fst snd] in Hle. lia.
Qed.

Lemma no_edges G a b : wf G → number_of_edges G = 0%nat → ¬ has_edge G a b.
Proof.
  intros Hwf Hz Hab. pose proof (total_degree_edge _ _ _ Hwf Hab) as Hle.
  rewrite number_of_edges_total in Hz.
  apply Nat.div_small_iff in Hz; lia.
Qed.

(** While edges remain, some node has a positive degree. *)
Lemma some_degree_pos G :
  (0 < number_of_edges G)%nat → ∃ nd, nd ∈ degree_view G ∧ (0 < nd.2)%nat.
Proof.
  rewrite number_of_edges_total. intros Hpos.
  assert (0 < total_degree G)%nat as Hs.
  { destruct (total_degree G); [by rewrite Nat.Div0.div_0_l in Hpos | lia]. }
  clear Hpos. unfold total_degree, degree_view in *.
  induction G as [|[k adj] G IH]; csimpl in *; [lia|].
  destruct (degree_of k adj) as [|d] eqn:Hd.
  - destruct IH as (nd & Hin & Hnd); [lia|]. exists nd. split; [by right|done].
  - exists (k, S d). split; [by left | simpl; lia].
Qed.

Lemma elem_of_degree_view G nd :
  nd ∈ degree_view G ↔ ∃ adj, (nd.1, adj) ∈ G ∧ nd.2 = degree_of nd.1 adj.
Proof.
  unfold degree_view. rewrite list_elem_of_fmap. split.
  - intros ([k adj] & -> & Hin). by exists adj.
  - intros (adj & Hin & Hd). exists (nd.1, adj). split; [|done].
    destruct nd. simpl in *. by subst.
Qed.

(** [max] returns an element of the sequence whose measure is largest,
    for every measure that the comparison respects. *)
Lemma py_max_spec {A} (gt : A → A → bool) (m : A → nat) (xs : list A) :
  (∀ x y, (if gt x y then m y ≤ m x else m x ≤ m y)%nat) →
  xs ≠ [] →
  ∃ r, py_max gt xs = Ok r ∧ r ∈ xs ∧ ∀ x, x ∈ xs → (m x ≤ m r)%nat.
Proof.
  intros Hgt Hne. destruct xs as [|x0 xs]; [done|]. clear Hne. simpl.
  eexists. split; [done|].
  assert (∀ best, let r := foldl (λ best y, if gt y best then y else best) best xs in
                  (r = best ∨ r ∈ xs) ∧ (m best ≤ m r)%nat
                  ∧ ∀ x, x ∈ xs → (m x ≤ m r)%nat) as Hfold.
  { induction xs as [|y xs IH]; intros best; simpl.
    - split_and!; [by left|done|]. by intros ? ?%elem_of_nil.
    - destruct (IH (if gt y best then y else best)) as (Hr & Hb & Hall).
      pose proof (Hgt y best) as Hyb. split_and!.
      + destruct Hr as [->|Hr]; [|by right; right].
        destruct (gt y best); [right; by left | by left].
      + destruct (gt y best); lia.
      + intros x [->|Hx]%elem_of_cons; [|by apply Hall].
        destruct (gt y best); lia. }
  destruct (Hfold x0) as (Hr & Hb & Hall). split.
  - destruct Hr as [->|Hr]; [by left | by right].
  - intros x [->|Hx]%elem_of_cons; [done | by apply Hall].
Qed.

(** Removing adjacency entries never raises a degree. *)
Lemma degree_of_del n (adj : list (Z * option Qc)) k :
  (degree_of n (dict_del adj k) ≤ degree_of n adj)%nat.
Proof.
  unfold degree_of. pose proof (dict_del_length adj k).
  repeat case_bool_decide; try lia.
  exfalso. match goal with H : n ∈ _ |- _ => apply elem_of_dict_del_keys in H as [_ ?] end.
  done.
Qed.

Lemma degree_of_del_lt n (adj : list (Z * option Qc)) k :
  k ∈ adj.*1 → (degree_of n (dict_del adj k) < degree_of n adj)%nat.
Proof.
  intros Hk. unfold degree_of. pose proof (dict_del_length_lt adj k Hk).
  repeat case_bool_decide; try lia.
  exfalso. match goal with H : n ∈ _ |- _ => apply elem_of_dict_del_keys in H as [_ ?] end.
  done.
Qed.

Lemma total_degree_adj_del G n k :
  (total_degree (adj_update (λ adj, dict_del adj k) n G) ≤ total_degree G)%nat.
Proof.
  unfold total_degree, adj_update.
  induction G as [|[k0 adj0] G IH]; csimpl; [done|].
  case_decide; simpl; [|lia]. pose proof (degree_of_del k0 adj0 k). lia.
Qed.

Lemma total_degree_adj_del_lt G n k adj :
  dict_get G n = Some adj → k ∈ adj.*1 →
  (total_degree (adj_update (λ adj, dict_del adj k) n G) < total_degree G)%nat.
Proof.
  unfold total_degree, adj_update.
  induction G as [|[k0 adj0] G IH]; csimpl; [done|].
  intros Hget Hk. destruct (decide (k0 = n)) as [->|Hne]; simpl.
  - simplify_eq.
    pose proof (degree_of_del_lt n adj k Hk).
    pose proof (total_degree_adj_del G n k) as Hle.
    unfold total_degree, adj_update in Hle. lia.
  - specialize (IH Hget Hk). lia.
Qed.

Lemma total_degree_remove_edge G u v :
  (total_degree (remove_edge G u v) ≤ total_degree G)%nat.
Proof.
  unfold remove_edge. case_bool_decide; [|done].
  etrans; [apply total_degree_adj_del|]. apply total_degree_adj_del.
Qed.

Lemma total_degree_remove_edge_lt G u v :
  wf G → has_edge G u v → u ≠ v →
  (total_degree (remove_edge G u v) + 2 ≤ total_degree G)%nat.
Proof.
  intros Hwf Huv Hne. unfold remove_edge. rewrite bool_decide_eq_true_2 by done.
  pose proof (wf_sym _ _ _ Hwf Huv) as Hvu.
  apply has_edge_alt in Huv as (adju & Hu & Hv).
  apply has_edge_alt in Hvu as (adjv & Hv' & Hu').
  pose proof (total_degree_adj_del_lt G u v adju Hu Hv) as H1.
  pose proof (total_degree_adj_del_lt
                (adj_update (λ adj, dict_del adj v) u G) v u adjv) as H2.
  rewrite dict_get_adj_update, decide_False in H2 by done.
  specialize (H2 Hv' Hu'). lia.
Qed.

Lemma total_degree_remove_edges_from G es :
  (total_degree (remove_edges_from G es) ≤ total_degree G)%nat.
Proof.
  unfold remove_edges_from. revert G.
  induction es as [|e es IH]; intros G; simpl; [done|].
  etrans; [apply IH|]. apply total_degree_remove_edge.
Qed.

Lemma total_degree_remove_edges_from_lt G es u v :
  wf G → (u, v) ∈ es → has_edge G u v → u ≠ v →
  (total_degree (remove_edges_from G es) + 2 ≤ total_degree G)%nat.
Proof.
  unfold remove_edges_from. revert G.
  induction es as [|[x y] es IH]; intros G Hwf Hin Huv Hne; simpl.
  - by apply elem_of_nil in Hin.
  - destruct (decide (has_edge (remove_edge G x y) u v)) as [Hstill|Hgone].
    + apply elem_of_cons in Hin as [[= -> ->]|Hin].
      { apply has_edge_remove_edge in Hstill; [|done]. tauto. }
      etrans; [apply IH; [by apply wf_remove_edge|done..]|].
      apply total_degree_remove_edge.
    + pose proof (total_degree_remove_edges_from (remove_edge G x y) es) as Hle.
      unfold remove_edges_from in Hle.
      assert (has_edge G x y ∧ x ≠ y) as [Hxy Hxy'].
      { rewrite has_edge_remove_edge in Hgone by done.
        destruct (decide (u = x ∧ v = y)) as [[-> ->]|?]; [done|].
        destruct (decide (u = y ∧ v = x)) as [[-> ->]|?]; [|tauto].
        split; [by apply wf_sym | done]. }
      pose proof (total_degree_remove_edge_lt G x y Hwf Hxy Hxy'). simpl. lia.
Qed.

Lemma total_degree_drop_node G n :
  (total_degree (drop_node G n) ≤ total_degree G)%nat.
Proof.
  unfold total_degree, drop_node, dict_del.
  induction G as [|[k0 adj0] G IH]; csimpl; [done|].
  rewrite filter_cons. simpl. case_decide; csimpl; [|lia].
  pose proof (degree_of_del k0 adj0 n) as Hd. unfold dict_del in Hd. lia.
Qed.

Lemma total_degree_remove_nodes_from G ns :
  (total_degree (remove_nodes_from G ns) ≤ total_degree G)%nat.
Proof.
  unfold remove_nodes_from. revert G.
  induction ns as [|n ns IH]; intros G; simpl; [done|].
  etrans; [apply IH|]. destruct (has_node G n); [|done].
  apply total_degree_drop_node.
Qed.

End degrees.

(** ** The greedy vertex cover *)
Section greedy_cover.
Implicit Types (G H : graph) (cover : gset Z).

Lemma bind_Ok {A B} (a : A) (f : A → outcome B) : (Ok a ≫= f) = f a.
Proof. done. Qed.

Lemma for_each_cons {A S} (x : A) xs (body : S → A → outcome S) s :
  for_each (x :: xs) body s = body s x ≫= for_each xs body.
Proof. done. Qed.

Lemma dict_append_Some (d : gmap Z (list nat)) k i l :
  d !! k = Some l → dict_append d k i = Ok (<[k := l ++ [i]]> d).
Proof. unfold dict_append. by intros ->. Qed.

Lemma neighbors_Some G n adj : dict_get G n = Some adj → neighbors G n = Ok adj.*1.
Proof. unfold neighbors. by intros ->. Qed.

Lemma elem_of_degree_view_node G nd : nd ∈ degree_view G → nd.1 ∈ nodes G.
Proof.
  intros (adj & Hin & _)%elem_of_degree_view.
  apply list_elem_of_fmap. by exists (nd.1, adj).
Qed.

Lemma greedy_while_cover fuel G H cover :
  wf H → (length H < fuel)%nat →
  (∀ u v, has_edge G u v → u ∈ cover ∨ v ∈ cover ∨ has_edge H u v) →
  ∃ cover', nch.greedy_while fuel H cover None = Ok cover'
            ∧ vertex_cover G cover'.
Proof.
  revert H cover. induction fuel as [|fuel IH]; intros H cover Hwf Hlen Hinv; [lia|].
  simpl. case_bool_decide as Hedges.
  - destruct (some_degree_pos H Hedges) as (nd0 & Hnd0 & _).
    destruct (py_max_spec (λ x y : Z * nat, bool_decide (y.2 < x.2)%nat) snd
                (degree_view H)) as (nd & -> & Hnd & _).
    { intros x y. case_bool_decide; lia. }
    { intros Hnil. rewrite Hnil in Hnd0. by apply elem_of_nil in Hnd0. }
    rewrite bind_Ok. apply elem_of_degree_view_node in Hnd.
    unfold remove_node. rewrite (proj2 (has_node_spec H nd.1)) by done.
    rewrite bind_Ok. apply IH.
    + by apply wf_drop_node.
    + pose proof (length_drop_node H nd.1 Hnd). lia.
    + intros u v Huv. rewrite has_edge_drop_node.
      rewrite !elem_of_union, !elem_of_singleton.
      destruct (Hinv u v Huv) as [?|[?|?]]; [by auto..|].
      destruct (decide (u = nd.1)); [by auto|].
      destruct (decide (v = nd.1)); by auto.
  - exists cover. split; [done|]. intros u v Huv.
    destruct (Hinv u v Huv) as [?|[?|Hh]]; [auto..|].
    exfalso. apply (no_edges H u v); [done|lia|done].
Qed.

End greedy_cover.

(** C4. NCH cover guarantee: without a size cap, [greedy_vertex_cover]
    returns (any fuel above the number of nodes is enough for its loop)
    and the set it returns is a vertex cover of the input graph: every
    edge has at least one endpoint in it. *)
Theorem greedy_vertex_cover_covers (fuel : nat) (G : graph) :
  wf G → (number_of_nodes G < fuel)%nat →
  ∃ cover, nch.greedy_vertex_cover fuel G None = Ok cover
           ∧ vertex_cover G cover.
Proof.
  intros Hwf Hfuel. unfold nch.greedy_vertex_cover.
  apply greedy_while_cover.
  - apply wf_copy.
  - rewrite length_copy by done. exact Hfuel.
  - intros u v Huv. right. right. by apply has_edge_copy.
Qed.

(** ** The bounded breadth-first search *)
Section bfs.
Implicit Types (G : graph) (visited : gset Z) (q collected : list Z).

Lemma bfs_scan_prefix m_max nbs st :
  st.2 `prefix_of` (fhs.bfs_scan m_max nbs st).2.
Proof.
  revert st. induction nbs as [|nb nbs IH]; intros st; simpl; [done|].
  case_decide; [apply IH|].
  case_bool_decide; simpl; [by apply prefix_app_r|].
  etrans; [|apply IH]. simpl. by apply prefix_app_r.
Qed.

Lemma bfs_scan_first_new m_max nbs st nb :
  nb ∈ nbs → (nb ∉ st.1.1) →
  ∃ nb', nb' ∈ nbs ∧ (nb' ∉ st.1.1) ∧ nb' ∈ (fhs.bfs_scan m_max nbs st).2.
Proof.
  revert st. induction nbs as [|x nbs IH]; intros st Hin Hnew; simpl.
  - by apply elem_of_nil in Hin.
  - case_decide as Hx.
    + apply elem_of_cons in Hin as [->|Hin]; [done|].
      destruct (IH st Hin Hnew) as (nb' & ? & ? & ?).
      exists nb'. split_and!; [by right|done..].
    + exists x. split_and!; [by left|done|].
      assert (x ∈ st.2 ++ [x]) as Hxin by (apply elem_of_app; right; by left).
      case_bool_decide; simpl; [done|].
      eapply elem_of_prefix; [|apply bfs_scan_prefix]. done.
Qed.

Lemma bfs_scan_nodes m_max nbs st (N : Z → Prop) :
  (∀ x, x ∈ nbs → N x) →
  (∀ x, x ∈ st.1.2 → N x) → (∀ x, x ∈ st.2 → N x) →
  (∀ x, x ∈ (fhs.bfs_scan m_max nbs st).1.2 → N x)
  ∧ (∀ x, x ∈ (fhs.bfs_scan m_max nbs st).2 → N x).
Proof.
  revert st. induction nbs as [|nb nbs IH]; intros st Hnbs Hq Hc; simpl; [done|].
  assert (∀ x, x ∈ nbs → N x) as Hnbs' by (intros; apply Hnbs; by right).
  assert (N nb) as Hnb by (apply Hnbs; by left).
  case_decide; [by apply IH|].
  assert (∀ x, x ∈ st.1.2 ++ [nb] → N x) as Hq'.
  { intros x [?| ->%list_elem_of_singleton]%elem_of_app; auto. }
  assert (∀ x, x ∈ st.2 ++ [nb] → N x) as Hc'.
  { intros x [?| ->%list_elem_of_singleton]%elem_of_app; auto. }
  case_bool_decide; simpl; [done|]. by apply IH.
Qed.

Lemma length_filter_unvisited (ns : list Z) visited nb :
  nb ∈ ns → nb ∉ visited →
  (length (filter (λ n, n ∉ visited ∪ {[nb]}) ns)
   < length (filter (λ n, n ∉ visited) ns))%nat.
Proof.
  induction ns as [|x ns IH]; [by intros ?%elem_of_nil|].
  intros Hin Hnew. rewrite !filter_cons.
  assert (length (filter (λ n, n ∉ visited ∪ {[nb]}) ns)
          ≤ length (filter (λ n, n ∉ visited) ns))%nat as Hle.
  { clear. induction ns as [|y ns IH]; [done|]. rewrite !filter_cons.
    destruct (decide (y ∉ visited ∪ {[nb]})), (decide (y ∉ visited));
      simpl; try lia. set_solver. }
  apply elem_of_cons in Hin as [->|Hin].
  - rewrite decide_False by set_solver. rewrite decide_True by done. simpl. lia.
  - specialize (IH Hin Hnew).
    destruct (decide (x ∉ visited ∪ {[nb]})), (decide (x ∉ visited));
      simpl; try lia. set_solver.
Qed.

Lemma bfs_scan_measure G m_max nbs st :
  (∀ x, x ∈ nbs → x ∈ nodes G) →
  (bfs_measure G (fhs.bfs_scan m_max nbs st) ≤ bfs_measure G st)%nat.
Proof.
  revert st. induction nbs as [|nb nbs IH]; intros st Hnbs; simpl; [done|].
  assert (∀ x, x ∈ nbs → x ∈ nodes G) as Hnbs' by (intros; apply Hnbs; by right).
  case_decide as Hnb; [by apply IH|].
  assert (bfs_measure G (st.1.1 ∪ {[nb]}, st.1.2 ++ [nb], st.2 ++ [nb])
          ≤ bfs_measure G st)%nat as Hstep.
  { unfold bfs_measure. simpl. rewrite length_app. simpl.
    pose proof (length_filter_unvisited (nodes G) st.1.1 nb) as Hlt.
    specialize (Hlt (Hnbs nb ltac:(by left)) Hnb). lia. }
  case_bool_decide; [done|]. etrans; [by apply IH|done].
Qed.

Lemma bfs_while_spec fuel G m_max st :
  wf G → (∀ x, x ∈ st.1.2 → x ∈ nodes G) → (∀ x, x ∈ st.2 → x ∈ nodes G) →
  (bfs_measure G st < fuel)%nat →
  ∃ l, fhs.bfs_while fuel G m_max st = Ok l ∧ st.2 `prefix_of` l
       ∧ ∀ x, x ∈ l → x ∈ nodes G.
Proof.
  intros Hwf. revert st.
  induction fuel as [|fuel IH]; intros [[visited q] collected] Hq Hc Hfuel; [lia|].
  simpl in *. destruct q as [|cur q]; [by eauto|].
  case_bool_decide; [|by eauto].
  assert (cur ∈ nodes G) as Hcur by (apply Hq; by left).
  apply dict_get_is_Some in Hcur as [adj Hadj].
  unfold neighbors. rewrite Hadj, bind_Ok.
  assert (∀ x, x ∈ adj.*1 → x ∈ nodes G) as Hnbs.
  { intros x Hx. apply (has_edge_node _ _ cur), wf_sym; [done|].
    apply has_edge_alt. eauto. }
  pose proof (bfs_scan_measure G m_max adj.*1 (visited, q, collected) Hnbs) as Hm.
  destruct (bfs_scan_nodes m_max adj.*1 (visited, q, collected)
              (λ x, x ∈ nodes G)) as [Hq' Hc']; simpl; auto.
  { intros x Hx. apply Hq. by right. }
  destruct (IH (fhs.bfs_scan m_max adj.*1 (visited, q, collected)))
    as (l & -> & Hpre & Hl); [done..| |].
  - unfold bfs_measure in *. simpl in *. lia.
  - exists l. split_and!; [done| |done].
    etrans; [|done]. apply (bfs_scan_prefix m_max adj.*1 (visited, q, collected)).
Qed.

(** [bfs_collect_m] returns; the list holds the start node, only nodes
    of the graph and, from [m_max = 2] on, a neighbour of the start node
    when it has one. *)
Lemma bfs_collect_m_returns G start m_max :
  wf G → start ∈ nodes G →
  ∃ l, fhs.bfs_collect_m G start m_max = Ok l ∧ start ∈ l
       ∧ (∀ x, x ∈ l → x ∈ nodes G)
       ∧ (2 ≤ m_max → ∀ nb, has_edge G start nb → nb ≠ start →
          ∃ nb', nb' ∈ l ∧ has_edge G start nb' ∧ nb' ≠ start).
Proof.
  intros Hwf Hstart. unfold fhs.bfs_collect_m.
  replace (2 * length G + 2)%nat with (S (2 * length G + 1)) by lia.
  remember (2 * length G + 1)%nat as fuel eqn:Hfuel.
  simpl. case_bool_decide as Hm.
  - pose proof Hstart as [adj Hadj]%dict_get_is_Some.
    unfold neighbors. rewrite Hadj, bind_Ok.
    assert (∀ x, x ∈ adj.*1 → x ∈ nodes G) as Hnbs.
    { intros x Hx. apply (has_edge_node _ _ start), wf_sym; [done|].
      apply has_edge_alt. eauto. }
    set (st0 := ({[start]}, [], [start]) : gset Z * list Z * list Z).
    destruct (bfs_scan_nodes m_max adj.*1 st0 (λ x, x ∈ nodes G)) as [Hq Hc]; auto.
    { by intros x ?%elem_of_nil. }
    { by intros x ->%list_elem_of_singleton. }
    destruct (bfs_while_spec fuel G m_max
                (fhs.bfs_scan m_max adj.*1 st0)) as (l & -> & Hpre & Hl);
      [done..| |].
    { pose proof (bfs_scan_measure G m_max adj.*1 st0 Hnbs) as Hle.
      assert (bfs_measure G st0 ≤ 2 * length G)%nat; [|lia].
      unfold bfs_measure, st0. simpl.
      pose proof (length_filter (λ n, n ∉ ({[start]} : gset Z)) (nodes G)) as Hf.
      unfold nodes in Hf at 2. rewrite length_fmap in Hf. lia. }
    exists l. split_and!; [done| |done|].
    + eapply elem_of_prefix; [|done].
      eapply elem_of_prefix; [|apply bfs_scan_prefix]. by left.
    + intros _ nb (adj' & Hadj' & Hnb)%has_edge_alt Hne.
      assert (adj' = adj) as -> by congruence.
      destruct (bfs_scan_first_new m_max adj.*1 st0 nb) as (nb' & Hin & Hnew & Hcol);
        [done|set_solver|].
      exists nb'. split_and!.
      * by eapply elem_of_prefix.
      * apply has_edge_alt. eauto.
      * simpl in Hnew. set_solver.
  - exists [start]. split_and!; [done|by left| |lia].
    by intros x ->%list_elem_of_singleton.
Qed.

End bfs.

(** ** What the search collects *)
Section bfs_order.
Implicit Types (G : graph) (visited : gset Z) (q collected : list Z).

Lemma bfs_scan_inv G m_max cur nbs st :
  (∀ x, x ∈ st.1.1 ↔ x ∈ st.2) → NoDup st.2 →
  (∀ x, x ∈ st.1.2 → x ∈ st.2) →
  (∀ i x, st.2 !! S i = Some x →
     ∃ j y, (j ≤ i)%nat ∧ st.2 !! j = Some y ∧ has_edge G y x) →
  Z.of_nat (length st.2) < m_max →
  (∀ x y, x ∈ st.2 → x ∉ st.1.2 → x ≠ cur → has_edge G x y → y ∈ st.1.1) →
  cur ∈ st.2 → (∀ nb, nb ∈ nbs → has_edge G cur nb) →
  (∀ y, has_edge G cur y → y ∈ st.1.1 ∨ y ∈ nbs) →
  bfs_inv G m_max (fhs.bfs_scan m_max nbs st).
Proof.
  revert st. induction nbs as [|nb nbs IH];
    intros [[visited q] collected] Hvis Hnd Hq Hchain Hlen Hclosed Hcur Hnbs Hrest;
    simpl in *.
  - unfold bfs_inv. simpl. split_and!; [done..|lia|].
    right. intros x y Hx Hxq Hxy.
    destruct (decide (x = cur)) as [->|Hne]; [|by eauto].
    destruct (Hrest y Hxy) as [?|?%elem_of_nil]; done.
  - case_decide as Hnb.
    { apply IH; simpl; try done.
      - intros nb' Hnb'. apply Hnbs. by right.
      - intros y [?|[->|?]%elem_of_cons]%Hrest; auto. }
    assert (nb ∉ collected) as Hnew by (by rewrite <-Hvis).
    assert (∀ x, x ∈ visited ∪ {[nb]} ↔ x ∈ collected ++ [nb]) as Hvis'.
    { intros x. rewrite elem_of_union, elem_of_singleton, elem_of_app,
        list_elem_of_singleton, Hvis. done. }
    assert (NoDup (collected ++ [nb])) as Hnd'.
    { apply NoDup_app. split_and!; [done| |apply NoDup_singleton].
      by intros x ? ->%list_elem_of_singleton. }
    assert (∀ x, x ∈ q ++ [nb] → x ∈ collected ++ [nb]) as Hq'.
    { intros x. rewrite !elem_of_app. intros [?|?]; auto. }
    assert (∀ i x, (collected ++ [nb]) !! S i = Some x →
              ∃ j y, (j ≤ i)%nat ∧ (collected ++ [nb]) !! j = Some y
                     ∧ has_edge G y x) as Hchain'.
    { intros i x Hi. destruct (decide (S i < length collected)%nat) as [Hlt|Hge].
      - rewrite lookup_app_l in Hi by done.
        destruct (Hchain i x Hi) as (j & y & Hj & Hy & Hyx).
        exists j, y. split_and!; [done| |done].
        rewrite lookup_app_l; [done|]. by eapply lookup_lt_Some.
      - pose proof (lookup_lt_Some _ _ _ Hi) as Hb. rewrite length_app in Hb.
        simpl in Hb. assert (S i = length collected) as Heq by lia.
        rewrite Heq, list_lookup_middle in Hi by done. simplify_eq.
        apply list_elem_of_lookup in Hcur as [j Hj].
        exists j, cur. split_and!.
        + apply lookup_lt_Some in Hj. lia.
        + rewrite lookup_app_l; [done|]. by eapply lookup_lt_Some.
        + apply Hnbs. by left. }
    case_bool_decide as Hfull; simpl in *.
    + unfold bfs_inv. simpl. split_and!; [done..| |by left].
      rewrite length_app. simpl. lia.
    + rewrite length_app in Hfull. simpl in Hfull. apply IH; simpl; try done.
      * rewrite length_app. simpl. lia.
      * intros x y [Hx| ->%list_elem_of_singleton]%elem_of_app Hxq Hne Hxy.
        -- apply elem_of_union. left. apply (Hclosed x y); try done.
           intros ?. apply Hxq, elem_of_app. by left.
        -- exfalso. apply Hxq, elem_of_app. right. by left.
      * apply elem_of_app. by left.
      * intros nb' Hnb'. apply Hnbs. by right.
      * intros y [?|[->|?]%elem_of_cons]%Hrest;
          rewrite elem_of_union, elem_of_singleton; auto.
Qed.

Lemma bfs_while_inv fuel G m_max st l :
  bfs_inv G m_max st → fhs.bfs_while fuel G m_max st = Ok l →
  st.2 `prefix_of` l
  ∧ ∃ st', st'.2 = l ∧ bfs_inv G m_max st'
           ∧ (Z.of_nat (length l) < m_max → st'.1.2 = []).
Proof.
  revert st. induction fuel as [|fuel IH];
    intros [[visited q] collected] Hinv; [done|].
  simpl. destruct q as [|cur q].
  { intros [= <-]. split; [done|]. by eexists (_, _, _). }
  case_bool_decide as Hlen; last first.
  { intros [= <-]. split; [done|]. exists (visited, cur :: q, collected).
    split_and!; [done..|]. simpl. lia. }
  unfold neighbors. destruct (dict_get G cur) as [adj|] eqn:Hadj; [|done].
  rewrite bind_Ok. intros Hrun. apply IH in Hrun as [Hpre Hrun].
  - split; [|done]. etrans; [|exact Hpre].
    apply (bfs_scan_prefix m_max adj.*1 (visited, q, collected)).
  - destruct Hinv as (Hvis & Hnd & Hq & Hchain & _ & Hclosed). simpl in *.
    apply (bfs_scan_inv G m_max cur); simpl; try done.
    + intros x Hx. apply Hq. by right.
    + destruct Hclosed as [?|Hclosed]; [lia|].
      intros x y Hx Hxq Hne. apply Hclosed; [done|].
      rewrite not_elem_of_cons. done.
    + apply Hq. by left.
    + intros nb Hnb. apply has_edge_alt. eauto.
    + intros y (adj' & Hadj' & Hy)%has_edge_alt. right. by simplify_eq.
Qed.

Lemma bfs_inv_init G m_max start :
  bfs_inv G m_max ({[start]}, [start], [start]).
Proof.
  unfold bfs_inv. simpl. split_and!.
  - intros x. by rewrite elem_of_singleton, list_elem_of_singleton.
  - apply NoDup_singleton.
  - done.
  - by intros [|i] x.
  - lia.
  - right. intros x y ->%list_elem_of_singleton Hx. exfalso. apply Hx. by left.
Qed.

Lemma bfs_inv_reachable G m_max st x :
  bfs_inv G m_max st → x ∈ st.2 → ∃ s, head st.2 = Some s ∧ rtc (has_edge G) s x.
Proof.
  intros (_ & _ & _ & Hchain & _) [i Hi]%list_elem_of_lookup.
  revert x Hi. induction (lt_wf i) as [i _ IH]. intros x Hi.
  destruct i as [|i].
  - exists x. split; [by rewrite head_lookup|done].
  - destruct (Hchain i x Hi) as (j & y & Hj & Hy & Hyx).
    destruct (IH j ltac:(lia) y Hy) as (s & Hs & Hsy).
    exists s. split; [done|]. by eapply rtc_r.
Qed.

End bfs_order.

(** X1. On a well-formed graph, [bfs_collect_m] from a node of the graph
    returns a list that starts with the start node, has no node twice,
    has at most [max(1, m_max)] nodes, and in which every node after the
    first is a neighbour of a node placed before it. *)
Theorem bfs_collect_m_order (G : graph) (start : Z) (m_max : Z) :
  wf G → start ∈ nodes G →
  ∃ l, fhs.bfs_collect_m G start m_max = Ok l
       ∧ head l = Some start ∧ NoDup l
       ∧ Z.of_nat (length l) ≤ Z.max 1 m_max
       ∧ ∀ i x, l !! S i = Some x →
           ∃ j y, (j ≤ i)%nat ∧ l !! j = Some y ∧ has_edge G y x.
Proof.
  intros Hwf Hstart.
  destruct (bfs_collect_m_returns G start m_max Hwf Hstart) as (l & Hrun & _).
  exists l. split; [done|]. unfold fhs.bfs_collect_m in Hrun.
  apply bfs_while_inv in Hrun as [[k ->] ([[visited q] l'] & Heq & Hinv & _)];
    [|apply bfs_inv_init].
  simpl in Heq. subst l'. destruct Hinv as (_ & Hnd & _ & Hchain & Hlen & _).
  done.
Qed.

(** X2. On a well-formed graph, [bfs_collect_m] from a node of the graph
    returns only nodes that a path of the graph joins to the start node;
    when it returns fewer than [m_max] nodes, it returns every such
    node, that is the whole connected component of the start node. *)
Theorem bfs_collect_m_component (G : graph) (start : Z) (m_max : Z) :
  wf G → start ∈ nodes G →
  ∃ l, fhs.bfs_collect_m G start m_max = Ok l
       ∧ (∀ x, x ∈ l → rtc (has_edge G) start x)
       ∧ (Z.of_nat (length l) < m_max →
          ∀ x, rtc (has_edge G) start x → x ∈ l).
Proof.
  intros Hwf Hstart.
  destruct (bfs_collect_m_returns G start m_max Hwf Hstart) as (l & Hrun & _).
  exists l. split; [done|]. unfold fhs.bfs_collect_m in Hrun.
  apply bfs_while_inv in Hrun as [[k ->] ([[visited q] l'] & Heq & Hinv & Hq)];
    [|apply bfs_inv_init].
  simpl in Heq. subst l'. split.
  - intros x Hx. destruct (bfs_inv_reachable G m_max _ x Hinv Hx) as (s & Hs & Hsx).
    simpl in Hs. by simplify_eq.
  - intros Hlen. specialize (Hq Hlen). simpl in Hq. subst q.
    destruct Hinv as (Hvis & _ & _ & _ & _ & [?|Hclosed]); simpl in *; [lia|].
    apply (rtc_ind_r (λ x, x ∈ start :: k)); [by left|].
    intros y z _ Hyz Hy. apply Hvis, (Hclosed y z); [done| |done].
    apply not_elem_of_nil.
Qed.

Lemma bfs_collect_m_order_witness :
  ∃ l, fhs.bfs_collect_m demo_graph 1 3 = Ok l
       ∧ head l = Some 1 ∧ NoDup l
       ∧ Z.of_nat (length l) ≤ Z.max 1 3
       ∧ ∀ i x, l !! S i = Some x →
           ∃ j y, (j ≤ i)%nat ∧ l !! j = Some y ∧ has_edge demo_graph y x.
Proof.
  apply (bfs_collect_m_order demo_graph 1 3).
  - apply (bool_decide_unpack _). vm_compute. exact I.
  - apply (bool_decide_unpack _). vm_compute. exact I.
Defined.

Lemma bfs_collect_m_component_witness :
  ∃ l, fhs.bfs_collect_m lone_node_and_edge 1 5 = Ok l
       ∧ (∀ x, x ∈ l → rtc (has_edge lone_node_and_edge) 1 x)
       ∧ (Z.of_nat (length l) < 5 →
          ∀ x, rtc (has_edge lone_node_and_edge) 1 x → x ∈ l).
Proof.
  apply (bfs_collect_m_component lone_node_and_edge 1 5).
  - apply (bool_decide_unpack _). vm_compute. exact I.
  - apply (bool_decide_unpack _). vm_compute. exact I.
Defined.

Section bfs_cluster.
Implicit Types (G : graph).

Lemma rtc_sym_inv {A} (R : relation A) x y :
  (∀ a b, R a b → R b a) → rtc R x y → rtc R y x.
Proof.
  intros Hsym Hxy. induction Hxy as [|x y z Hxy _ IH]; [done|].
  eapply rtc_r; [exact IH|]. by apply Hsym.
Qed.

(** What [create_fhs] uses of a search: the cluster it returns. *)
Lemma bfs_collect_m_cluster G start m_max :
  wf G → start ∈ nodes G →
  ∃ l, fhs.bfs_collect_m G start m_max = Ok l
       ∧ NoDup l ∧ start ∈ l
       ∧ Z.of_nat (length l) ≤ Z.max 1 m_max
       ∧ (∀ x, x ∈ l → x ∈ nodes G)
       ∧ (∀ x, x ∈ l → x ≠ start → ∃ y, y ∈ l ∧ has_edge G y x)
       ∧ connected_in G (list_to_set l)
       ∧ (2 ≤ m_max → ∀ nb, has_edge G start nb → nb ≠ start →
          ∃ nb', nb' ∈ l ∧ has_edge G start nb' ∧ nb' ≠ start).
Proof.
  intros Hwf Hstart.
  destruct (bfs_collect_m_returns G start m_max Hwf Hstart)
    as (l & Hrun & Hin & Hnodes & Hnb).
  exists l. split; [done|]. unfold fhs.bfs_collect_m in Hrun.
  apply bfs_while_inv in Hrun as [Hpre ([[visited q] l'] & Heq & Hinv & _)];
    [|apply bfs_inv_init].
  cbn [fst snd] in Heq, Hpre. subst l'.
  destruct Hinv as (_ & Hnd & _ & Hchain & Hlen & _). cbn [fst snd] in *.
  assert (l !! 0%nat = Some start) as Hhead.
  { destruct Hpre as [k ->]. done. }
  assert (∀ i x, l !! i = Some x →
            rtc (λ a b, has_edge G a b ∧ a ∈ (list_to_set l : gset Z)
                        ∧ b ∈ (list_to_set l : gset Z)) start x)
    as Hreach.
  { intros i. induction (lt_wf i) as [i _ IH]. intros x Hi.
    destruct i as [|i]; [by simplify_eq|].
    destruct (Hchain i x Hi) as (j & y & Hj & Hy & Hyx).
    eapply rtc_r; [apply (IH j ltac:(lia) y Hy)|].
    split; [done|]. rewrite !elem_of_list_to_set.
    split; eapply list_elem_of_lookup_2; eauto. }
  split_and!; try done.
  - intros x [i Hi]%list_elem_of_lookup Hne. destruct i as [|i].
    { by simplify_eq. }
    destruct (Hchain i x Hi) as (j & y & _ & Hy & Hyx).
    exists y. split; [|done]. by eapply list_elem_of_lookup_2.
  - intros x y [i Hi]%elem_of_list_to_set%list_elem_of_lookup
             [j Hj]%elem_of_list_to_set%list_elem_of_lookup.
    etrans; [|by eapply Hreach]. apply rtc_sym_inv; [|by eapply Hreach].
    intros a b (Hab & ? & ?). split_and!; [by apply wf_sym|done..].
Qed.

End bfs_cluster.

(** ** One round of the FHS loop *)
Section fhs_round.
Implicit Types (G : nat) (g : graph) (h : heap) (Ve : gset Z).

Lemma elem_of_set_iter (s : gset Z) x : x ∈ set_iter s ↔ x ∈ s.
Proof. unfold set_iter. rewrite merge_sort_Permutation. apply elem_of_elements. Qed.

Lemma NoDup_set_iter (s : gset Z) : NoDup (set_iter s).
Proof. unfold set_iter. rewrite merge_sort_Permutation. apply NoDup_elements. Qed.

Lemma for_each_dict_append vs (d : gmap Z (list nat)) i :
  NoDup vs → (∀ v, v ∈ vs → is_Some (d !! v)) →
  ∃ d', for_each vs (λ d v, dict_append d v i) d = Ok d'
        ∧ ∀ k, d' !! k = if decide (k ∈ vs) then (λ l, l ++ [i]) <$> d !! k
                         else d !! k.
Proof.
  revert d. induction vs as [|v vs IH]; intros d Hnd Hvs.
  - exists d. split; [done|]. intros k. rewrite decide_False; [done|].
    apply not_elem_of_nil.
  - apply NoDup_cons in Hnd as [Hv Hnd].
    destruct (Hvs v) as [l Hl]; [by left|].
    rewrite for_each_cons. cbv beta.
    rewrite (dict_append_Some _ _ _ _ Hl), bind_Ok.
    destruct (IH (<[v := l ++ [i]]> d) Hnd) as (d' & -> & Hd').
    { intros v' Hv'. rewrite lookup_insert_is_Some.
      destruct (decide (v = v')); [by left|].
      right. split; [done|]. apply Hvs. by right. }
    exists d'. split; [done|]. intros k. rewrite Hd'.
    destruct (decide (k = v)) as [->|Hne].
    + rewrite (decide_False (P := v ∈ vs)) by done.
      rewrite decide_True by (by left). by rewrite lookup_insert_eq, Hl.
    + rewrite lookup_insert_ne by done. apply decide_ext.
      rewrite elem_of_cons. split; [by right|]. by intros [?|?].
Qed.

Lemma for_each_internal_edges g Ve us acc :
  (∀ u, u ∈ us → u ∈ nodes g) →
  ∃ es,
    for_each us
      (λ acc u,
         nbs ← neighbors g u;
         Ok (acc ++ map (λ v, (u, v)) (filter (λ v, v ∈ Ve ∧ u < v) nbs)))
      acc = Ok (acc ++ es)
    ∧ ∀ a b, (a, b) ∈ es ↔ a ∈ us ∧ has_edge g a b ∧ b ∈ Ve ∧ a < b.
Proof.
  revert acc. induction us as [|u us IH]; intros acc Hus.
  - exists []. rewrite app_nil_r. split; [done|]. intros a b. split.
    + by intros ?%elem_of_nil.
    + by intros [?%elem_of_nil _].
  - assert (u ∈ nodes g) as [adj Hadj]%dict_get_is_Some by (apply Hus; by left).
    rewrite for_each_cons. cbv beta. rewrite (neighbors_Some _ _ _ Hadj), !bind_Ok.
    destruct (IH (acc ++ map (λ v, (u, v)) (filter (λ v, v ∈ Ve ∧ u < v) adj.*1)))
      as (es & -> & Hes).
    { intros u' Hu'. apply Hus. by right. }
    eexists. rewrite <-app_assoc. split; [done|]. intros a b.
    rewrite elem_of_app, Hes, list_elem_of_fmap, elem_of_cons. split.
    + intros [(v & [= -> ->] & [[? ?] Hv]%list_elem_of_filter)|(? & ? & ? & ?)].
      * split_and!; [by left| |done..]. apply has_edge_alt. eauto.
      * split_and!; [by right|done..].
    + intros ([->|Ha] & Hab & Hb & Hlt); [left|right; by eauto].
      apply has_edge_alt in Hab as (adj' & Hadj' & Hin).
      assert (adj' = adj) as -> by congruence.
      exists b. split; [done|]. by apply list_elem_of_filter.
Qed.

Lemma isolated_no_edge g n b :
  wf g → n ∈ (filter (λ nd : Z * nat, nd.2 = 0%nat) (degree_view g)).*1 →
  ¬ has_edge g n b.
Proof.
  intros Hwf ([n' d] & -> & [Hd Hin]%list_elem_of_filter)%list_elem_of_fmap.
  simpl in *. subst d.
  apply elem_of_degree_view in Hin as (adj & Hin & Hdeg). simpl in *.
  intros (adj' & Hadj' & Hb)%has_edge_alt.
  apply dict_get_elem_NoDup in Hin; [|by apply wf_NoDup].
  assert (adj' = adj) as -> by congruence.
  pose proof (degree_of_pos n' adj b Hb). lia.
Qed.

Lemma elem_of_nodes_remove_nodes_from g ns n :
  n ∈ nodes (remove_nodes_from g ns) → n ∈ nodes g.
Proof.
  unfold remove_nodes_from. revert g.
  induction ns as [|x ns IH]; intros g; simpl; [done|].
  intros Hn%IH. destruct (has_node g x); [|done].
  rewrite nodes_drop_node in Hn. by apply list_elem_of_filter in Hn as [_ ?].
Qed.

Lemma fhs_while_S fuel h G m_max hyperedges node_to_hyperedges :
  fhs.fhs_while (S fuel) h G m_max hyperedges node_to_hyperedges
  = if bool_decide (0 < number_of_edges (h !!! G))%nat then
      if bool_decide (number_of_nodes (h !!! G) = 0%nat)
      then Ok (h, hyperedges, node_to_hyperedges)
      else
        node ← fhs.highest_degree_node (h !!! G);
        Ve_list ← fhs.bfs_collect_m (h !!! G) node m_max;
        let Ve_set : gset Z := list_to_set Ve_list in
        if bool_decide (size Ve_set = 0%nat)
        then Ok (h, hyperedges, node_to_hyperedges)
        else
          let hed_idx := length hyperedges in
          let hyperedges := hyperedges ++ [Ve_set] in
          node_to_hyperedges ←
            for_each (set_iter Ve_set)
              (λ d v, dict_append d v hed_idx) node_to_hyperedges;
          internal_edges ←
            for_each (set_iter Ve_set)
              (λ acc u,
                 nbs ← neighbors (h !!! G) u;
                 Ok (acc ++ map (λ v, (u, v))
                              (filter (λ v, v ∈ Ve_set ∧ u < v) nbs)))
              [];
          let h := alter (λ g, remove_edges_from g internal_edges) G h in
          let isolated :=
            (filter (λ nd : Z * nat, nd.2 = 0%nat)
               (degree_view (h !!! G))).*1 in
          let h :=
            if bool_decide (isolated = []) then h
            else alter (λ g, remove_nodes_from g isolated) G h in
          fhs.fhs_while fuel h G m_max hyperedges node_to_hyperedges
    else Ok (h, hyperedges, node_to_hyperedges).
Proof. done. Qed.

(** A node of largest degree has a neighbour while edges remain. *)
Lemma py_max_degree_spec (gt : Z * nat → Z * nat → bool) g :
  (∀ x y, (if gt x y then y.2 ≤ x.2 else x.2 ≤ y.2)%nat) →
  wf g → (0 < number_of_edges g)%nat →
  ∃ nd nb, py_max gt (degree_view g) = Ok nd ∧ has_edge g nd.1 nb.
Proof.
  intros Hgt Hwf Hedges.
  destruct (some_degree_pos g Hedges) as (nd0 & Hnd0 & Hpos).
  destruct (py_max_spec gt snd (degree_view g)) as (nd & -> & Hnd & Hmax);
    [done| |].
  { intros Hnil. rewrite Hnil in Hnd0. by apply elem_of_nil in Hnd0. }
  specialize (Hmax _ Hnd0).
  apply elem_of_degree_view in Hnd as (adj & Hin & Hdeg).
  destruct adj as [|[nb d] adj].
  { assert (degree_of nd.1 [] = 0%nat) as Hz; [|lia].
    unfold degree_of. rewrite bool_decide_eq_false_2; [done|].
    apply not_elem_of_nil. }
  exists nd, nb. split; [done|]. apply has_edge_alt.
  eexists. split; [apply dict_get_elem_NoDup; [by apply wf_NoDup|done]|].
  by left.
Qed.

(** The seed of a round of FHS. *)
Lemma highest_degree_node_spec g :
  wf g → (0 < number_of_edges g)%nat →
  ∃ node nb, fhs.highest_degree_node g = Ok node ∧ has_edge g node nb.
Proof.
  intros Hwf Hedges. unfold fhs.highest_degree_node.
  destruct (py_max_degree_spec
              (λ x y : Z * nat, tuple_gt (x.2, - py_hash x.1) (y.2, - py_hash y.1))
              g) as (nd & nb & -> & Hnb); [|done..|].
  { intros x y. unfold tuple_gt. simpl.
    repeat case_bool_decide; simpl; lia. }
  rewrite bind_Ok. by exists nd.1, nb.
Qed.

(** One round of the loop, with what it gives of the new hyperedge. *)
Lemma fhs_round_full fuel h G m_max hyperedges node_to_hyperedges g :
  h !! G = Some g → wf g → (∀ u, ¬ has_edge g u u) → 2 ≤ m_max →
  (0 < number_of_edges g)%nat →
  (∀ n, n ∈ nodes g → is_Some (node_to_hyperedges !! n)) →
  ∃ Ve g' h' node_to_hyperedges',
    fhs.fhs_while (S fuel) h G m_max hyperedges node_to_hyperedges
    = fhs.fhs_while fuel h' G m_max (hyperedges ++ [Ve]) node_to_hyperedges'
    ∧ h' !! G = Some g' ∧ wf g'
    ∧ (∀ a b, has_edge g' a b ↔ has_edge g a b ∧ ¬ (a ∈ Ve ∧ b ∈ Ve))
    ∧ (number_of_edges g' < number_of_edges g)%nat
    ∧ (∀ n, n ∈ nodes g' → n ∈ nodes g)
    ∧ (∀ k, node_to_hyperedges' !! k
            = if decide (k ∈ Ve)
              then (λ l, l ++ [length hyperedges]) <$> node_to_hyperedges !! k
              else node_to_hyperedges !! k)
    ∧ (2 ≤ size Ve)%nat ∧ Z.of_nat (size Ve) ≤ m_max
    ∧ (∀ x, x ∈ Ve → ∃ y, has_edge g x y)
    ∧ connected_in g Ve.
Proof.
  intros Hh Hwf Hsimple Hm Hedges Hkeys.
  rewrite fhs_while_S. rewrite (list_lookup_total_correct _ _ _ Hh).
  rewrite (bool_decide_eq_true_2 _ Hedges).
  destruct (highest_degree_node_spec g Hwf Hedges) as (node & nb & -> & Hnb).
  rewrite bool_decide_eq_false_2; last first.
  { unfold number_of_nodes. apply has_edge_node in Hnb.
    destruct g; [by apply elem_of_nil in Hnb | done]. }
  rewrite bind_Ok.
  destruct (bfs_collect_m_cluster g node m_max Hwf)
    as (l & -> & Hnd & Hstart & Hlen & Hl & Hprev & Hconn & Hnb');
    [by eapply has_edge_node|].
  rewrite bind_Ok. cbv zeta.
  set (Ve := list_to_set l : gset Z).
  assert (∀ x, x ∈ Ve ↔ x ∈ l) as HVe by (intros; apply elem_of_list_to_set).
  rewrite bool_decide_eq_false_2; last first.
  { apply size_non_empty_iff. intros Hempty. apply (proj2 (HVe node)) in Hstart.
    rewrite Hempty in Hstart. by apply not_elem_of_empty in Hstart. }
  destruct (for_each_dict_append (set_iter Ve) node_to_hyperedges (length hyperedges))
    as (n2h' & -> & Hn2h').
  { apply NoDup_set_iter. }
  { intros v Hv%elem_of_set_iter%HVe. auto. }
  rewrite bind_Ok.
  destruct (for_each_internal_edges g Ve (set_iter Ve) [])
    as (es & -> & Hes).
  { intros v Hv%elem_of_set_iter%HVe. auto. }
  rewrite bind_Ok. simpl app.
  set (g1 := remove_edges_from g es).
  assert (alter (λ g, remove_edges_from g es) G h !! G = Some g1) as Hh1.
  { by rewrite list_lookup_alter_eq, Hh. }
  rewrite (list_lookup_total_correct _ _ _ Hh1).
  set (isolated := (filter (λ nd : Z * nat, nd.2 = 0%nat) (degree_view g1)).*1).
  set (g2 := remove_nodes_from g1 isolated).
  assert (wf g1) as Hwf1 by (by apply wf_remove_edges_from).
  assert (∀ a b, has_edge g1 a b ↔ has_edge g a b ∧ ¬ (a ∈ Ve ∧ b ∈ Ve)) as Hg1.
  { intros a b. unfold g1. rewrite has_edge_remove_edges_from by done.
    rewrite !Hes, !elem_of_set_iter. split.
    - intros (Hab & Hn1 & Hn2). split; [done|]. intros [Ha Hb].
      assert (a ≠ b) by (intros ->; by apply (Hsimple b)).
      destruct (decide (a < b)).
      + apply Hn1. done.
      + apply Hn2. split_and!; [done|by apply wf_sym|done|lia].
    - intros (Hab & Hn). split_and!; [done|..]; intros (? & ? & ? & ?); tauto. }
  assert (∀ a b, has_edge g2 a b ↔ has_edge g1 a b) as Hg2.
  { intros a b. unfold g2. rewrite has_edge_remove_nodes_from by done.
    split; [by intros [? _]|]. intros Hab. split_and!; [done|..].
    - intros Hiso. by apply (isolated_no_edge g1 a b).
    - intros Hiso. apply (isolated_no_edge g1 b a); [done..|]. by apply wf_sym. }
  exists Ve, g2.
  eexists (if bool_decide (isolated = []) then _ else _), n2h'.
  split; [reflexivity|]. split_and!.
  - case_bool_decide as Hiso.
    + unfold g2. by rewrite Hiso.
    + by rewrite list_lookup_alter_eq, Hh1.
  - by apply wf_remove_nodes_from.
  - intros a b. by rewrite Hg2, Hg1.
  - destruct (Hnb' Hm nb Hnb) as (nb' & Hin & Hedge & Hne).
    { intros ->. by apply (Hsimple node). }
    assert (total_degree g1 + 2 ≤ total_degree g)%nat as Hdrop.
    { destruct (decide (node < nb')).
      - apply (total_degree_remove_edges_from_lt g es node nb'); try done.
        apply Hes. rewrite elem_of_set_iter, !HVe. done.
      - apply (total_degree_remove_edges_from_lt g es nb' node); try done.
        + apply Hes. rewrite elem_of_set_iter, !HVe.
          split_and!; [done|by apply wf_sym|done|lia].
        + by apply wf_sym. }
    pose proof (total_degree_remove_nodes_from g1 isolated) as Hle.
    rewrite !number_of_edges_total. fold g2 in Hle.
    assert (total_degree g2 + 2 ≤ total_degree g)%nat as Hle2 by lia.
    clear -Hle2. generalize dependent (total_degree g2).
    generalize (total_degree g). intros n k Hk.
    replace n with ((n - 2) + 1 * 2)%nat by lia.
    rewrite Nat.div_add by done.
    pose proof (Nat.Div0.div_le_mono k (n - 2) 2). lia.
  - intros n Hn%elem_of_nodes_remove_nodes_from.
    unfold g1 in Hn. by rewrite nodes_remove_edges_from in Hn.
  - intros k. rewrite Hn2h'. apply decide_ext, elem_of_set_iter.
  - destruct (Hnb' Hm nb Hnb) as (nb' & Hin & _ & Hne).
    { intros ->. by apply (Hsimple node). }
    unfold Ve. rewrite size_list_to_set by done.
    apply list_elem_of_split in Hstart as (l1 & l2 & ->).
    rewrite elem_of_app, elem_of_cons in Hin. rewrite length_app. simpl.
    destruct Hin as [Hin|[?|Hin]]; [|done|];
      apply list_elem_of_split in Hin as (? & ? & ->);
      rewrite length_app; simpl; lia.
  - unfold Ve. rewrite size_list_to_set by done. lia.
  - intros x Hx%HVe. destruct (decide (x = node)) as [->|Hne]; [by eauto|].
    destruct (Hprev x Hx Hne) as (y & _ & Hyx). exists y. by apply wf_sym.
  - done.
Qed.

Lemma fhs_round fuel h G m_max hyperedges node_to_hyperedges g :
  h !! G = Some g → wf g → (∀ u, ¬ has_edge g u u) → 2 ≤ m_max →
  (0 < number_of_edges g)%nat →
  (∀ n, n ∈ nodes g → is_Some (node_to_hyperedges !! n)) →
  ∃ Ve g' h' node_to_hyperedges',
    fhs.fhs_while (S fuel) h G m_max hyperedges node_to_hyperedges
    = fhs.fhs_while fuel h' G m_max (hyperedges ++ [Ve]) node_to_hyperedges'
    ∧ h' !! G = Some g' ∧ wf g'
    ∧ (∀ a b, has_edge g' a b ↔ has_edge g a b ∧ ¬ (a ∈ Ve ∧ b ∈ Ve))
    ∧ (number_of_edges g' < number_of_edges g)%nat
    ∧ (∀ n, n ∈ nodes g' → n ∈ nodes g)
    ∧ (∀ k, node_to_hyperedges' !! k
            = if decide (k ∈ Ve)
              then (λ l, l ++ [length hyperedges]) <$> node_to_hyperedges !! k
              else node_to_hyperedges !! k).
Proof.
  intros Hh Hwf Hsimple Hm Hedges Hkeys.
  destruct (fhs_round_full fuel h G m_max hyperedges node_to_hyperedges g)
    as (Ve & g' & h' & n2h' & ? & ? & ? & ? & ? & ? & ? & _); [done..|].
  by exists Ve, g', h', n2h'.
Qed.

End fhs_round.

(** ** The FHS loop *)
Section fhs_loop.
Implicit Types (G : nat) (g : graph) (h : heap).

(** The loop touches no object of the store but the one it works on. *)
Lemma fhs_while_frame fuel h G m_max hyperedges node_to_hyperedges h' hs' n2h' :
  fhs.fhs_while fuel h G m_max hyperedges node_to_hyperedges
  = Ok (h', hs', n2h') →
  length h' = length h ∧ ∀ j, j ≠ G → h' !! j = h !! j.
Proof.
  revert h hyperedges node_to_hyperedges.
  induction fuel as [|fuel IH]; intros h hyperedges node_to_hyperedges; [done|].
  rewrite fhs_while_S. case_bool_decide; [|by intros [= <- <- <-]].
  case_bool_decide; [by intros [= <- <- <-]|].
  destruct (fhs.highest_degree_node (h !!! G)) as [node| |]; [|done..].
  rewrite bind_Ok.
  destruct (fhs.bfs_collect_m (h !!! G) node m_max) as [Ve_list| |]; [|done..].
  rewrite bind_Ok. cbv zeta. case_bool_decide; [by intros [= <- <- <-]|].
  destruct (for_each (set_iter (list_to_set Ve_list)) _ node_to_hyperedges)
    as [n2h| |]; [|done..].
  rewrite bind_Ok.
  destruct (for_each (set_iter (list_to_set Ve_list)) _ [])
    as [internal_edges| |]; [|done..].
  rewrite bind_Ok. intros [Hlen Hframe]%IH. split.
  - rewrite Hlen. case_bool_decide; by rewrite ?length_alter.
  - intros j Hj. rewrite (Hframe j Hj).
    case_bool_decide; by rewrite ?list_lookup_alter_ne.
Qed.

Lemma membership_consistent_round hyperedges (n2h n2h' : gmap Z (list nat))
    (Ve : gset Z) :
  membership_consistent hyperedges n2h →
  (∀ k idxs, n2h' !! k = Some idxs →
     (k ∈ Ve ∧ idxs = default [] (n2h !! k) ++ [length hyperedges])
     ∨ ((k ∉ Ve) ∧ n2h !! k = Some idxs)) →
  membership_consistent (hyperedges ++ [Ve]) n2h'.
Proof.
  intros Hcons Hn2h' n idxs Hn.
  assert (∀ l, n2h !! n = Some l →
            ∀ i, i ∈ l → ∃ hed, (hyperedges ++ [Ve]) !! i = Some hed ∧ n ∈ hed)
    as Hold.
  { intros l Hl i Hi. destruct (Hcons n l Hl) as [_ Hmem].
    destruct (Hmem i Hi) as (hed & Hhed & ?). exists hed.
    split; [by apply lookup_app_l_Some|done]. }
  destruct (Hn2h' n idxs Hn) as [[HVe ->]|[HVe Hsame]].
  - assert (NoDup (default [] (n2h !! n))
            ∧ ∀ i, i ∈ default [] (n2h !! n) →
                ∃ hed, hyperedges !! i = Some hed ∧ n ∈ hed) as [Hnd Hmem].
    { destruct (n2h !! n) as [l|] eqn:Hl; simpl; [by apply Hcons|].
      split; [apply NoDup_nil_2|]. by intros i ?%elem_of_nil. }
    split.
    + apply NoDup_app. split_and!; [done| |apply NoDup_singleton].
      intros i Hi ->%list_elem_of_singleton.
      destruct (Hmem _ Hi) as (hed & Hhed%lookup_lt_Some & _). lia.
    + intros i [Hi| ->%list_elem_of_singleton]%elem_of_app.
      * destruct (Hmem i Hi) as (hed & Hhed & ?). exists hed.
        split; [by apply lookup_app_l_Some|done].
      * exists Ve. by rewrite list_lookup_middle.
  - destruct (Hcons n idxs Hsame) as [Hnd _]. split; [done|]. by apply Hold.
Qed.

Lemma fhs_while_covers fuel h G m_max hyperedges node_to_hyperedges g g0 :
  h !! G = Some g → wf g → (∀ u, ¬ has_edge g u u) → 2 ≤ m_max →
  (number_of_edges g < fuel)%nat →
  (∀ n, n ∈ nodes g → is_Some (node_to_hyperedges !! n)) →
  (∀ u v, has_edge g0 u v →
     has_edge g u v ∨ ∃ i Ve, hyperedges !! i = Some Ve ∧ u ∈ Ve ∧ v ∈ Ve) →
  membership_consistent hyperedges node_to_hyperedges →
  ∃ h' hyperedges' node_to_hyperedges',
    fhs.fhs_while fuel h G m_max hyperedges node_to_hyperedges
    = Ok (h', hyperedges', node_to_hyperedges')
    ∧ (∀ u v, has_edge g0 u v →
         ∃ i Ve, hyperedges' !! i = Some Ve ∧ u ∈ Ve ∧ v ∈ Ve)
    ∧ membership_consistent hyperedges' node_to_hyperedges'
    ∧ (∀ k, is_Some (node_to_hyperedges' !! k)
            ↔ is_Some (node_to_hyperedges !! k)).
Proof.
  revert h hyperedges node_to_hyperedges g.
  induction fuel as [|fuel IH];
    intros h hyperedges n2h g Hh Hwf Hsimple Hm Hfuel Hkeys Hinv Hcons; [lia|].
  destruct (decide (0 < number_of_edges g)%nat) as [Hedges|Hnone].
  - destruct (fhs_round fuel h G m_max hyperedges n2h g)
      as (Ve & g' & h1 & n2h1 & -> & Hh1 & Hwf1 & Hg1 & Hlt & Hnodes & Hn2h1);
      [done..|].
    assert (∀ k, is_Some (n2h1 !! k) ↔ is_Some (n2h !! k)) as Hkeys1.
    { intros k. rewrite Hn2h1. case_decide; [|done]. by rewrite fmap_is_Some. }
    destruct (IH h1 (hyperedges ++ [Ve]) n2h1 g')
      as (h' & hs' & n2h' & -> & Hcov & Hcons' & Hk'); try done.
    + intros u [Hu _]%Hg1. by apply (Hsimple u).
    + lia.
    + intros n Hn. apply Hkeys1, Hkeys, Hnodes, Hn.
    + intros u v [Huv|(i & Ve' & Hi & ? & ?)]%Hinv.
      * destruct (decide (u ∈ Ve ∧ v ∈ Ve)) as [[? ?]|?].
        -- right. exists (length hyperedges), Ve.
           by rewrite list_lookup_middle.
        -- left. by apply Hg1.
      * right. exists i, Ve'. split; [|done].
        by apply lookup_app_l_Some.
    + apply (membership_consistent_round hyperedges n2h n2h1 Ve Hcons).
      intros k idxs. rewrite Hn2h1. case_decide; [|by right].
      destruct (n2h !! k); intros [= <-]. by left.
    + exists h', hs', n2h'. split_and!; [done..|].
      intros k. by rewrite Hk', Hkeys1.
  - rewrite fhs_while_S, (list_lookup_total_correct _ _ _ Hh).
    rewrite bool_decide_eq_false_2 by done.
    exists h, hyperedges, n2h. split_and!; [done| |done..].
    intros u v [Huv|?]%Hinv; [|done].
    exfalso. apply (no_edges g u v); [done|lia|done].
Qed.

End fhs_loop.

(** ** The copy has no more edges than the original *)
Section copy_degree.
Implicit Types (G : graph) (u v n k : Z).

Lemma NoDup_dict_set_keys {V} (d : list (Z * V)) k x :
  NoDup d.*1 → NoDup (dict_set d k x).*1.
Proof.
  induction d as [|[k0 x0] d IH]; csimpl.
  - intros _. apply NoDup_singleton.
  - rewrite NoDup_cons. intros [Hk0 Hnd]. case_decide; subst; csimpl.
    + by apply NoDup_cons.
    + apply NoDup_cons. split; [|by apply IH].
      rewrite elem_of_dict_set_keys. by intros [?|?].
Qed.

Lemma adjacency_NoDup_add_edges_from G es :
  (∀ n adj, dict_get G n = Some adj → NoDup adj.*1) →
  ∀ n adj, dict_get (add_edges_from G es) n = Some adj → NoDup adj.*1.
Proof.
  unfold add_edges_from. revert G.
  induction es as [|[[u v] d] es IH]; intros G HG; simpl; [done|].
  apply IH. clear IH. intros n adj. unfold add_edge.
  rewrite !dict_get_adj_update, !dict_get_add_node.
  assert (∀ k, NoDup (default [] (dict_get G k)).*1) as Hdef.
  { intros k. destruct (dict_get G k) eqn:Hk; simpl; [by eapply HG|].
    apply NoDup_nil_2. }
  repeat case_decide; simpl; intros ?; simplify_eq;
    repeat apply NoDup_dict_set_keys; eauto.
Qed.

Lemma adjacency_NoDup_copy G n adj :
  dict_get (copy G) n = Some adj → NoDup adj.*1.
Proof.
  unfold copy. apply adjacency_NoDup_add_edges_from.
  intros k a Hk.
  assert (has_edge (add_nodes_from empty_graph (nodes G)) k k → False) as _.
  { by intros (? & ? & ?)%has_edge_add_nodes_from%has_edge_alt. }
  destruct a as [|[b d] a]; [apply NoDup_nil_2|].
  exfalso.
  assert (has_edge (add_nodes_from empty_graph (nodes G)) k b) as Hb.
  { apply has_edge_alt. eexists. split; [done|]. by left. }
  by apply has_edge_add_nodes_from, has_edge_alt in Hb as (? & ? & ?).
Qed.

Lemma total_degree_le_ext G G' :
  NoDup (nodes G) → nodes G' = nodes G →
  (∀ n adj adj', dict_get G' n = Some adj' → dict_get G n = Some adj →
                 (degree_of n adj' ≤ degree_of n adj)%nat) →
  (total_degree G' ≤ total_degree G)%nat.
Proof.
  unfold total_degree, nodes. revert G'.
  induction G as [|[k adj] G IH]; intros [|[k' adj'] G']; csimpl; try done.
  rewrite NoDup_cons. intros [Hk Hnd] [= -> Hnodes] Hdeg.
  pose proof (Hdeg k adj adj') as Hhead. simpl in Hhead.
  rewrite !decide_True in Hhead by done. specialize (Hhead eq_refl eq_refl).
  assert (sum_list ((λ ka, degree_of ka.1 ka.2) <$> G')
          ≤ sum_list ((λ ka, degree_of ka.1 ka.2) <$> G))%nat; [|lia].
  apply IH; [done..|]. intros n a a' Ha' Ha. apply Hdeg; simpl.
  - rewrite decide_False; [done|]. intros ->. apply Hk.
    rewrite <-Hnodes. apply dict_get_is_Some. eauto.
  - rewrite decide_False; [done|]. intros ->. apply Hk.
    apply dict_get_is_Some. eauto.
Qed.

Lemma number_of_edges_copy G :
  wf G → (number_of_edges (copy G) ≤ number_of_edges G)%nat.
Proof.
  intros Hwf. rewrite !number_of_edges_total.
  apply Nat.Div0.div_le_mono. apply total_degree_le_ext.
  - by apply wf_NoDup.
  - by apply nodes_copy.
  - intros n adj adj' Hadj' Hadj.
    assert (∀ b, b ∈ adj'.*1 → b ∈ adj.*1) as Hsub.
    { intros b Hb. assert (has_edge G n b) as (a & Ha & Hin)%has_edge_alt.
      { apply has_edge_copy; [done|]. apply has_edge_alt. eauto. }
      by simplify_eq. }
    assert (length adj' ≤ length adj)%nat as Hlen.
    { rewrite <-(length_fmap fst adj'), <-(length_fmap fst adj).
      apply submseteq_length, NoDup_submseteq; [|done].
      by eapply adjacency_NoDup_copy. }
    unfold degree_of. repeat case_bool_decide; try lia.
    exfalso. auto.
Qed.

End copy_degree.

(** ** The capacity split of [create_fhs] returns *)
Section fhs_capacity.
Implicit Types (g : graph).

Lemma elem_of_edges_from g seen e :
  e ∈ edges_from g seen → ∃ adj, (e.1.1, adj) ∈ g ∧ (e.1.2, e.2) ∈ adj.
Proof.
  revert seen. induction g as [|[n adj] g IH]; intros seen; simpl.
  - by intros ?%elem_of_nil.
  - intros [Hin|Hin]%elem_of_app.
    + apply list_elem_of_fmap in Hin as ([v d] & -> & [_ Hin]%list_elem_of_filter).
      exists adj. split; [by left|done].
    + apply IH in Hin as (adj' & ? & ?). exists adj'. split; [by right|done].
Qed.

Lemma edges_has_edge g e : wf g → e ∈ edges g → has_edge g e.1.1 e.1.2.
Proof.
  intros Hwf (adj & Hadj & Hin)%elem_of_edges_from. apply has_edge_alt.
  exists adj. split; [apply dict_get_elem_NoDup; [by apply wf_NoDup|done]|].
  apply list_elem_of_fmap. by exists (e.1.2, e.2).
Qed.

Lemma total_add_Some (tot : gmap Z Qc) k cap t :
  tot !! k = Some t → fhs.total_add tot k cap = Ok (<[k := (t + cap)%Qc]> tot).
Proof. unfold fhs.total_add. by intros ->. Qed.

Lemma for_each_total_add (es : list (Z * Z * option Qc)) (tot : gmap Z Qc) :
  (∀ e, e ∈ es → is_Some (tot !! e.1.1) ∧ is_Some (tot !! e.1.2)) →
  ∃ tot',
    for_each es
      (λ tot e,
         tot ← fhs.total_add tot e.1.1 (default 0%Qc e.2);
         fhs.total_add tot e.1.2 (default 0%Qc e.2))
      tot = Ok tot'.
Proof.
  revert tot. induction es as [|e es IH]; intros tot Hes; [by eexists|].
  rewrite for_each_cons. cbv beta zeta.
  destruct (Hes e) as [[t1 Ht1] [t2 Ht2]]; [by left|].
  rewrite (total_add_Some _ _ _ _ Ht1), bind_Ok.
  assert (is_Some (<[e.1.1 := (t1 + default 0 e.2)%Qc]> tot !! e.1.2)) as [t2' Ht2'].
  { rewrite lookup_insert_is_Some. destruct (decide (e.1.1 = e.1.2)); eauto. }
  rewrite (total_add_Some _ _ _ _ Ht2'), bind_Ok.
  apply IH. intros e' He'. rewrite !lookup_insert_is_Some.
  destruct (Hes e') as [? ?]; [by right|].
  split.
  - destruct (decide (e.1.2 = e'.1.1)); [by left|right]. split; [done|].
    destruct (decide (e.1.1 = e'.1.1)); [by left|by right].
  - destruct (decide (e.1.2 = e'.1.2)); [by left|right]. split; [done|].
    destruct (decide (e.1.1 = e'.1.2)); [by left|by right].
Qed.

Lemma lookup_node_init {V} g (x : V) n :
  n ∈ nodes g →
  is_Some ((list_to_map ((λ n, (n, x)) <$> nodes g) : gmap Z V) !! n).
Proof.
  intros Hn. apply not_eq_None_Some. intros Hnone%not_elem_of_list_to_map_2.
  apply Hnone. rewrite <-list_fmap_compose.
  apply list_elem_of_fmap. by exists n.
Qed.

Lemma capacity_distribution_returns g node_to_hyperedges :
  wf g → ∃ caps, fhs.capacity_distribution g node_to_hyperedges = Ok caps.
Proof.
  intros Hwf. unfold fhs.capacity_distribution. cbv zeta.
  case_bool_decide; [|by eexists].
  destruct (for_each_total_add (edges g)
              (list_to_map ((λ n, (n, 0%Qc)) <$> nodes g))) as (tot & ->).
  - intros e He%edges_has_edge; [|done]. split; apply lookup_node_init.
    + by eapply has_edge_node.
    + eapply has_edge_node, wf_sym; eauto.
  - rewrite bind_Ok. by eexists.
Qed.

End fhs_capacity.

(** [create_fhs] on a graph without self-loops, with [m_max >= 2]: it
    returns, every edge is covered and the membership index is
    consistent with the hyperedge sequence. *)
Lemma create_fhs_returns (fuel : nat) (h : heap) (G_input : nat) (g : graph)
    (m_max : Z) (use_edge_capacity : bool) :
  h !! G_input = Some g → wf g → simple g → 2 ≤ m_max →
  (number_of_edges g < fuel)%nat →
  ∃ h' hyperedges node_to_hyperedges caps,
    fhs.create_fhs fuel h G_input m_max use_edge_capacity
    = Ok (h', (hyperedges, node_to_hyperedges, caps))
    ∧ (∀ u v, has_edge g u v →
         ∃ i Ve, hyperedges !! i = Some Ve ∧ u ∈ Ve ∧ v ∈ Ve)
    ∧ membership_consistent hyperedges node_to_hyperedges.
Proof.
  intros Hh Hwf Hsimple Hm Hfuel. unfold fhs.create_fhs. cbv zeta.
  assert (G_input < length h)%nat as Hlt by (by eapply lookup_lt_Some).
  assert ((h ++ [copy g]) !! G_input = Some g) as Hin.
  { by rewrite lookup_app_l. }
  rewrite (list_lookup_total_correct _ _ _ Hh).
  rewrite (list_lookup_total_correct _ _ _ Hin).
  pose proof (proj1 (simple_alt g (wf_NoDup _ Hwf)) Hsimple) as Hloops.
  destruct (fhs_while_covers fuel (h ++ [copy g]) (length h) m_max []
              (empty_membership g) (copy g) g)
    as (h' & hs & n2h & Hrun & Hcov & Hcons & _).
  - by rewrite list_lookup_middle.
  - apply wf_copy.
  - intros u Hu. apply (has_edge_copy g u u Hwf) in Hu. by apply (Hloops u).
  - done.
  - pose proof (number_of_edges_copy g Hwf). lia.
  - intros n Hn. rewrite nodes_copy in Hn by done. by apply lookup_node_init.
  - intros u v Huv. left. by apply has_edge_copy.
  - intros n idxs Hn. apply elem_of_list_to_map_2 in Hn.
    apply list_elem_of_fmap in Hn as (n' & [= -> ->] & _).
    split; [apply NoDup_nil_2|]. by intros i ?%elem_of_nil.
  - rewrite Hrun, bind_Ok.
    apply fhs_while_frame in Hrun as [_ Hframe].
    assert (h' !!! G_input = g) as ->.
    { apply list_lookup_total_correct. rewrite Hframe by lia. done. }
    destruct use_edge_capacity.
    + destruct (capacity_distribution_returns g n2h Hwf) as (caps & ->).
      rewrite bind_Ok. by exists h', hs, n2h, caps.
    + rewrite bind_Ok. by exists h', hs, n2h, ∅.
Qed.

(** C1, as the code has it.  FHS edge coverage: on a graph without
    self-loops and with [m_max >= 2], [create_fhs] returns (any fuel
    above the number of edges is enough) and every edge of the input
    graph has both endpoints together in at least one of the hyperedges
    it produced. *)
Theorem fhs_edge_coverage (fuel : nat) (h : heap) (G_input : nat) (g : graph)
    (m_max : Z) (use_edge_capacity : bool) :
  h !! G_input = Some g → wf g → simple g → 2 ≤ m_max →
  (number_of_edges g < fuel)%nat →
  ∃ h' hyperedges node_to_hyperedges caps,
    fhs.create_fhs fuel h G_input m_max use_edge_capacity
    = Ok (h', (hyperedges, node_to_hyperedges, caps))
    ∧ ∀ u v, has_edge g u v →
        ∃ i Ve, hyperedges !! i = Some Ve ∧ u ∈ Ve ∧ v ∈ Ve.
Proof.
  intros Hh Hwf Hsimple Hm Hfuel.
  destruct (create_fhs_returns fuel h G_input g m_max use_edge_capacity)
    as (h' & hs & n2h & caps & Hrun & Hcov & _); [done..|].
  by exists h', hs, n2h, caps.
Qed.

(** Evaluation of a closed subterm. *)
Ltac eval_closed t :=
  let v := eval vm_compute in t in
  replace t with v by (vm_compute; reflexivity).

Lemma for_each_nil {A S} (body : S → A → outcome S) s : for_each [] body s = Ok s.
Proof. done. Qed.

(** With [m_max = 1] every round adds the hyperedge [{1}] and leaves the
    working graph as it was. *)
Lemma fhs_while_one_edge_spins fuel :
  ∀ hyperedges (node_to_hyperedges : gmap Z (list nat)),
    is_Some (node_to_hyperedges !! 1) →
    fhs.fhs_while fuel [one_edge; copy one_edge] 1 1 hyperedges node_to_hyperedges
    = OutOfFuel.
Proof.
  induction fuel as [|fuel IH]; intros hs n2h [l Hl]; [done|].
  rewrite fhs_while_S.
  change ([one_edge; copy one_edge] !!! 1%nat) with (copy one_edge).
  eval_closed (number_of_edges (copy one_edge)).
  eval_closed (number_of_nodes (copy one_edge)).
  rewrite bool_decide_eq_true_2 by lia.
  rewrite bool_decide_eq_false_2 by lia.
  eval_closed (fhs.highest_degree_node (copy one_edge)). rewrite bind_Ok.
  eval_closed (fhs.bfs_collect_m (copy one_edge) 1 1). rewrite bind_Ok.
  cbv zeta.
  rewrite (bool_decide_eq_false_2 (size _ = 0%nat)) by (vm_compute; lia).
  eval_closed (set_iter (list_to_set [1])).
  rewrite (for_each_cons 1 [] (λ d v, dict_append d v (length hs)) n2h).
  cbv beta.
  rewrite (dict_append_Some _ _ _ _ Hl), bind_Ok, for_each_nil, bind_Ok.
  match goal with
  | |- context [for_each [1] ?f []] => eval_closed (for_each [1] f [])
  end.
  rewrite bind_Ok.
  match goal with
  | |- fhs.fhs_while _ ?h _ _ _ _ = _ => eval_closed h
  end.
  apply IH. rewrite lookup_insert_eq. by eexists.
Qed.

(** C2 at [m_max = 1]: on the single edge 1-2 the main loop of
    [create_fhs] removes no edge in any round and never ends; whatever
    the fuel, it is used up. *)
Theorem create_fhs_m_max_1_diverges (fuel : nat) (use_edge_capacity : bool) :
  fhs.create_fhs fuel [one_edge] 0 1 use_edge_capacity = OutOfFuel.
Proof.
  unfold fhs.create_fhs. cbv zeta.
  change ([one_edge] ++ [copy ([one_edge] !!! 0%nat)])
    with [one_edge; copy one_edge].
  change (length [one_edge]) with 1%nat.
  rewrite fhs_while_one_edge_spins; [done|].
  change ([one_edge; copy one_edge] !!! 0%nat) with one_edge.
  apply lookup_node_init. vm_compute. by left.
Qed.

(** C1, counterexample.  On the kite with [m_max = 3] the endpoints of
    the edge 1-2 are together in both hyperedges produced, [{0, 1, 2}]
    and [{1, 2, 3}]: not in exactly one. *)
Lemma fhs_edge_in_two_hyperedges :
  ∃ h' node_to_hyperedges caps,
    fhs.create_fhs 6 [kite] 0 3 false
    = Ok (h', ([{[0; 1; 2]}; {[1; 2; 3]}], node_to_hyperedges, caps))
    ∧ has_edge kite 1 2
    ∧ 1 ∈ ({[0; 1; 2]} : gset Z) ∧ 2 ∈ ({[0; 1; 2]} : gset Z)
    ∧ 1 ∈ ({[1; 2; 3]} : gset Z) ∧ 2 ∈ ({[1; 2; 3]} : gset Z).
Proof.
  do 3 eexists. split; [vm_compute; reflexivity|].
  split_and!; [by vm_compute; eexists|set_solver..].
Qed.

(** C1, witness: the self-test graph of [fhs.py] with [m_max = 3]. *)
Lemma fhs_edge_coverage_witness :
  ∃ h' hyperedges node_to_hyperedges caps,
    fhs.create_fhs 12 [demo_graph] 0 3 true
    = Ok (h', (hyperedges, node_to_hyperedges, caps))
    ∧ ∀ u v, has_edge demo_graph u v →
        ∃ i Ve, hyperedges !! i = Some Ve ∧ u ∈ Ve ∧ v ∈ Ve.
Proof.
  apply (fhs_edge_coverage 12 [demo_graph] 0 demo_graph 3 true).
  - reflexivity.
  - apply (bool_decide_unpack _). vm_compute. exact I.
  - apply (bool_decide_unpack _). vm_compute. exact I.
  - lia.
  - vm_compute. lia.
Defined.

(** C4, witness: the self-test graph of [fhs.py]. *)
Lemma greedy_vertex_cover_covers_witness :
  ∃ cover, nch.greedy_vertex_cover 11 demo_graph None = Ok cover
           ∧ vertex_cover demo_graph cover.
Proof.
  apply (greedy_vertex_cover_covers 11 demo_graph).
  - apply (bool_decide_unpack _). vm_compute. exact I.
  - vm_compute. lia.
Defined.

(** C9, as the code has it.  [create_fhs] does not mutate the caller's
    graph: it works on a copy, a new object of the store, and when it
    returns every object that was there before the call, the input
    graph among them, is what it was. *)
Theorem create_fhs_keeps_input (fuel : nat) (h : heap) (G_input : nat)
    (m_max : Z) (use_edge_capacity : bool) h' r :
  fhs.create_fhs fuel h G_input m_max use_edge_capacity = Ok (h', r) →
  length h' = S (length h) ∧ ∀ j, (j < length h)%nat → h' !! j = h !! j.
Proof.
  unfold fhs.create_fhs. cbv zeta.
  destruct (fhs.fhs_while fuel _ _ _ _ _) as [[[h1 hs] n2h]| |] eqn:Hrun; [|done..].
  rewrite bind_Ok.
  destruct (if use_edge_capacity then _ else _) as [caps| |]; [|done..].
  rewrite bind_Ok. intros [= <- <-].
  apply fhs_while_frame in Hrun as [Hlen Hframe]. split.
  - rewrite Hlen, length_app. simpl. lia.
  - intros j Hj. rewrite Hframe by lia. by rewrite lookup_app_l.
Qed.

(** C9, witness: the single edge 1-2 with [m_max = 2]. *)
Lemma create_fhs_keeps_input_witness :
  ∃ r, fhs.create_fhs 2 [one_edge] 0 2 true = Ok ([one_edge; empty_graph], r)
       ∧ length [one_edge; empty_graph] = S (length [one_edge])
       ∧ ∀ j, (j < length [one_edge])%nat →
           [one_edge; empty_graph] !! j = [one_edge] !! j.
Proof.
  eexists.
  assert (fhs.create_fhs 2 [one_edge] 0 2 true
          = Ok ([one_edge; empty_graph], _)) as Hrun
    by (vm_compute; reflexivity).
  split; [exact Hrun|].
  exact (create_fhs_keeps_input _ _ _ _ _ _ _ Hrun).
Defined.

(** C9, counterexample.  After [create_fhs] has consumed the edge 1-2
    into the hyperedge [{1, 2}], the caller's graph still has the edge;
    it is the copy that was emptied. *)
Lemma create_fhs_input_not_mutated :
  ∃ node_to_hyperedges caps,
    fhs.create_fhs 2 [one_edge] 0 2 true
    = Ok ([one_edge; empty_graph], ([{[1; 2]}], node_to_hyperedges, caps))
    ∧ has_edge one_edge 1 2.
Proof.
  do 2 eexists. split; [vm_compute; reflexivity|].
  vm_compute. by eexists.
Qed.

(** ** The clique exports *)
Section clique.
Implicit Types (hyperedges : list (gset Z)) (hed : gset Z).

Lemma foldl_snoc_flat_map {A B} (f : A → list B) (step : list B → A → list B)
    (l : list A) (acc : list B) :
  (∀ acc x, step acc x = acc ++ f x) →
  foldl step acc l = acc ++ flat_map f l.
Proof.
  intros Hstep. revert acc. induction l as [|x l IH]; intros acc; simpl.
  - by rewrite app_nil_r.
  - by rewrite IH, Hstep, <-app_assoc.
Qed.

Lemma flat_map_skip {A B} (r : A → B) (P : A → Prop) `{!∀ x, Decision (P x)}
    (l : list A) :
  flat_map (λ v, if decide (P v) then [] else [r v]) l
  = r <$> filter (λ v, ¬ P v) l.
Proof.
  induction l as [|x l IH]; simpl; [done|]. rewrite filter_cons.
  destruct (decide (P x)); simpl.
  - by rewrite decide_False by auto.
  - rewrite decide_True by done. csimpl. by rewrite IH.
Qed.

Lemma member_loop_records (cap bf fr : Qc) hed u (rows : list edge_row) :
  foldl (λ rows v,
           if decide (u = v) then rows
           else rows ++ [{| src := u; trg := v; capacity := cap;
                            base_fee := bf; fee_rate := fr; enabled := true |}])
    rows (set_iter hed)
  = rows ++ outgoing_records cap bf fr hed u.
Proof.
  rewrite (foldl_snoc_flat_map
             (λ v, if decide (u = v) then []
                   else [{| src := u; trg := v; capacity := cap;
                            base_fee := bf; fee_rate := fr; enabled := true |}])).
  - f_equal. rewrite (flat_map_skip _ (λ v, u = v)). unfold outgoing_records.
    f_equal. apply list_filter_iff. intros v. split; congruence.
  - intros acc v. case_decide; by rewrite ?app_nil_r.
Qed.

Lemma projection_clique_rows (cap_of : Z → nat → Qc) (fee_of : Z → Qc) (fr : Qc)
    hyperedges :
  foldl (λ rows ih,
           foldl (λ rows u,
                    foldl (λ rows v,
                             if decide (u = v) then rows
                             else rows ++ [{| src := u; trg := v;
                                              capacity := cap_of u ih.1;
                                              base_fee := fee_of u;
                                              fee_rate := fr;
                                              enabled := true |}])
                      rows (set_iter ih.2))
             rows (set_iter ih.2))
    [] (enumerate hyperedges)
  = clique_rows cap_of fee_of fr hyperedges.
Proof.
  unfold clique_rows.
  rewrite (foldl_snoc_flat_map
             (λ ih, flat_map (λ u, outgoing_records (cap_of u ih.1) (fee_of u)
                                     fr ih.2 u) (set_iter ih.2))); [done|].
  intros acc ih.
  rewrite (foldl_snoc_flat_map
             (λ u, outgoing_records (cap_of u ih.1) (fee_of u) fr ih.2 u));
    [done|].
  intros acc' u. apply member_loop_records.
Qed.

Lemma rows_clique_rows hyperedges (node_caps : gmap (Z * nat) Qc) :
  make_supernode_edges.rows hyperedges node_caps
  = clique_rows (λ u idx, default 1%Qc (node_caps !! (u, idx)))
      (λ _, Qc_of_nat 100) 1%Qc hyperedges.
Proof.
  unfold make_supernode_edges.rows.
  apply (projection_clique_rows
           (λ u idx, default 1%Qc (node_caps !! (u, idx))) (λ _, Qc_of_nat 100)).
Qed.

Lemma hyperedges_to_directed_edges_df_clique_rows hyperedges
    (node_capacity_map : gmap (Z * nat + Z) Qc) (bf fr : Qc) :
  hyper_to_edges.hyperedges_to_directed_edges_df hyperedges node_capacity_map bf fr
  = clique_rows
      (λ u idx, default (default 1%Qc (node_capacity_map !! inr u))
                  (node_capacity_map !! inl (u, idx)))
      (λ _, bf) fr hyperedges.
Proof.
  unfold hyper_to_edges.hyperedges_to_directed_edges_df.
  apply (projection_clique_rows
           (λ u idx, default (default 1%Qc (node_capacity_map !! inr u))
                       (node_capacity_map !! inl (u, idx))) (λ _, bf)).
Qed.

Lemma max_size_ge (sizes : list nat) x : x ∈ sizes → (x ≤ max_size sizes)%nat.
Proof.
  unfold max_size. induction sizes as [|y sizes IH]; [by intros ?%elem_of_nil|].
  intros [->|Hx]%elem_of_cons; simpl; [lia|]. apply IH in Hx. lia.
Qed.

Lemma max_size_elem (sizes : list nat) : sizes ≠ [] → max_size sizes ∈ sizes.
Proof.
  unfold max_size. induction sizes as [|y sizes IH]; [done|]. intros _. simpl.
  destruct sizes as [|z sizes].
  - simpl. rewrite Nat.max_0_r. by left.
  - destruct (Nat.max_spec y (foldr Nat.max 0%nat (z :: sizes))) as [[_ ->]|[_ ->]].
    + right. by apply IH.
    + by left.
Qed.

(** The guard of both exports: whether some hyperedge is too large. *)
Lemma guard_spec hyperedges (T : Z) :
  bool_decide (size <$> hyperedges ≠ [])
  && bool_decide (T < Z.of_nat (max_size (size <$> hyperedges)))
  = bool_decide (Exists (λ hed, T < Z.of_nat (size hed)) hyperedges).
Proof.
  rewrite <-bool_decide_and. apply bool_decide_ext.
  rewrite Exists_exists. split.
  - intros [Hne Hlt]. apply max_size_elem in Hne.
    apply list_elem_of_fmap in Hne as (hed & Heq & Hin).
    exists hed. split; [done|]. by rewrite <-Heq.
  - intros (hed & Hin & Hlt).
    assert (size hed ∈ size <$> hyperedges) as Hs.
    { apply list_elem_of_fmap. eauto. }
    split.
    + intros Hnil. rewrite Hnil in Hs. by apply elem_of_nil in Hs.
    + apply max_size_ge in Hs. lia.
Qed.

Lemma export_clique_edges_csv_spec hyperedges (node_caps : gmap (Z * nat) Qc) T :
  make_fhs_edges.export_clique_edges_csv hyperedges node_caps T
  = if bool_decide (Exists (λ hed, T < Z.of_nat (size hed)) hyperedges)
    then Raise (RuntimeError (Z.of_nat (max_size (size <$> hyperedges))) T)
    else Ok (clique_rows (λ u idx, default 1%Qc (node_caps !! (u, idx)))
               (λ _, Qc_of_nat 100) 1%Qc hyperedges).
Proof.
  unfold make_fhs_edges.export_clique_edges_csv. cbv zeta.
  rewrite guard_spec. case_bool_decide; [done|]. f_equal.
  apply (projection_clique_rows
           (λ u idx, default 1%Qc (node_caps !! (u, idx))) (λ _, Qc_of_nat 100)).
Qed.

Lemma export_clique_spec hyperedges (node_caps : gmap (Z * nat) Qc) T
    (fee_profile : gmap Z Qc) :
  make_nch_edges.export_clique hyperedges node_caps T fee_profile
  = if bool_decide (Exists (λ hed, T < Z.of_nat (size hed)) hyperedges)
    then Raise (RuntimeError (Z.of_nat (max_size (size <$> hyperedges))) T)
    else Ok (clique_rows (λ u idx, default 1%Qc (node_caps !! (u, idx)))
               (λ u, if decide (fee_profile = ∅) then Qc_of_nat 100
                     else default (Qc_of_nat 100) (fee_profile !! u))
               1%Qc hyperedges).
Proof.
  unfold make_nch_edges.export_clique. cbv zeta.
  rewrite guard_spec. case_bool_decide; [done|]. f_equal.
  apply (projection_clique_rows
           (λ u idx, default 1%Qc (node_caps !! (u, idx)))
           (λ u, if decide (fee_profile = ∅) then Qc_of_nat 100
                 else default (Qc_of_nat 100) (fee_profile !! u))).
Qed.

End clique.

Section clique_blocks.
Implicit Types (hyperedges : list (gset Z)) (hed : gset Z).

Lemma lookup_zip_seq {A} (l : list A) j i :
  zip (seq j (length l)) l !! i = (λ x, ((j + i)%nat, x)) <$> l !! i.
Proof.
  revert j i. induction l as [|x l IH]; intros j [|i]; simpl; try done.
  - by rewrite Nat.add_0_r.
  - rewrite IH. by replace (S j + i)%nat with (j + S i)%nat by lia.
Qed.

Lemma lookup_enumerate {A} (l : list A) i :
  enumerate l !! i = (λ x, (i, x)) <$> l !! i.
Proof. unfold enumerate. by rewrite lookup_zip_seq. Qed.

Lemma length_set_iter hed : length (set_iter hed) = size hed.
Proof. unfold set_iter. by rewrite merge_sort_Permutation. Qed.

Lemma filter_keeps_all (l : list Z) u : u ∉ l → filter (λ v, v ≠ u) l = l.
Proof.
  induction l as [|x l IH]; [done|]. rewrite not_elem_of_cons. intros [? ?].
  rewrite filter_cons_True by done. by rewrite IH.
Qed.

Lemma length_filter_ne (l : list Z) u :
  NoDup l → u ∈ l → length (filter (λ v, v ≠ u) l) = (length l - 1)%nat.
Proof.
  induction l as [|x l IH]; [by intros _ ?%elem_of_nil|].
  rewrite NoDup_cons. intros [Hx Hnd] Hin. rewrite filter_cons.
  destruct (decide (x ≠ u)) as [Hne|Heq]; simpl.
  - apply elem_of_cons in Hin as [->|Hin]; [done|]. rewrite IH by done.
    destruct l; [by apply elem_of_nil in Hin|simpl; lia].
  - apply dec_stable in Heq. subst x. rewrite Nat.sub_0_r.
    by rewrite filter_keeps_all.
Qed.

Lemma trg_outgoing_records (cap bf fr : Qc) hed u :
  trg <$> outgoing_records cap bf fr hed u = filter (λ v, v ≠ u) (set_iter hed).
Proof.
  unfold outgoing_records. rewrite <-list_fmap_compose.
  induction (filter (λ v, v ≠ u) (set_iter hed)) as [|x l IH]; csimpl; [done|].
  by rewrite IH.
Qed.

Lemma outgoing_records_spec (cap bf fr : Qc) hed u :
  u ∈ hed →
  length (outgoing_records cap bf fr hed u) = (size hed - 1)%nat
  ∧ Forall (λ r, src r = u ∧ capacity r = cap) (outgoing_records cap bf fr hed u)
  ∧ NoDup (trg <$> outgoing_records cap bf fr hed u)
  ∧ ∀ v, v ∈ trg <$> outgoing_records cap bf fr hed u ↔ v ∈ hed ∧ v ≠ u.
Proof.
  intros Hu. split_and!.
  - unfold outgoing_records.
    rewrite length_fmap, length_filter_ne, length_set_iter;
      [done|apply NoDup_set_iter|by apply elem_of_set_iter].
  - unfold outgoing_records. apply Forall_fmap, Forall_forall. by intros v _.
  - rewrite trg_outgoing_records. apply NoDup_filter, NoDup_set_iter.
  - intros v. rewrite trg_outgoing_records.
    rewrite list_elem_of_filter, elem_of_set_iter. tauto.
Qed.

Lemma clique_rows_block (cap_of : Z → nat → Qc) (fee_of : Z → Qc) (fr : Qc)
    hyperedges idx hed u :
  hyperedges !! idx = Some hed → u ∈ hed →
  ∃ pre post,
    clique_rows cap_of fee_of fr hyperedges
    = pre ++ outgoing_records (cap_of u idx) (fee_of u) fr hed u ++ post.
Proof.
  intros Hidx Hu. unfold clique_rows.
  assert ((idx, hed) ∈ enumerate hyperedges) as Hin.
  { apply list_elem_of_lookup. exists idx. by rewrite lookup_enumerate, Hidx. }
  apply list_elem_of_split in Hin as (l1 & l2 & ->).
  apply elem_of_set_iter, list_elem_of_split in Hu as (m1 & m2 & Hm).
  rewrite flat_map_app. simpl. rewrite Hm, flat_map_app. simpl.
  match goal with
  | |- ∃ pre post, ?a ++ ((?b ++ ?r ++ ?c) ++ ?d) = _ =>
      exists (a ++ b), (c ++ d)
  end.
  by rewrite <-!app_assoc.
Qed.

End clique_blocks.

(** C6. Clique projection guard: when some hyperedge has more than [T]
    members, both exports raise the error that carries the largest
    hyperedge size (the size of a hyperedge of the input, above [T]) and
    [T], and so return no rows; otherwise both return rows. *)
Theorem clique_guard (hyperedges : list (gset Z))
    (node_caps : gmap (Z * nat) Qc) (fee_profile : gmap Z Qc) (T : Z) :
  let too_large := Exists (λ hed, T < Z.of_nat (size hed)) hyperedges in
  let m := max_size (size <$> hyperedges) in
  (too_large →
     make_fhs_edges.export_clique_edges_csv hyperedges node_caps T
     = Raise (RuntimeError (Z.of_nat m) T)
     ∧ make_nch_edges.export_clique hyperedges node_caps T fee_profile
       = Raise (RuntimeError (Z.of_nat m) T)
     ∧ T < Z.of_nat m ∧ ∃ hed, hed ∈ hyperedges ∧ size hed = m)
  ∧ (¬ too_large →
     ∃ rows rows',
       make_fhs_edges.export_clique_edges_csv hyperedges node_caps T = Ok rows
       ∧ make_nch_edges.export_clique hyperedges node_caps T fee_profile
         = Ok rows').
Proof.
  intros too_large m. rewrite export_clique_edges_csv_spec, export_clique_spec.
  fold too_large. split; intros Hbig.
  - rewrite !bool_decide_eq_true_2 by done. split_and!; [done..| |].
    + unfold too_large in Hbig. rewrite <-bool_decide_eq_true, <-guard_spec in Hbig.
      apply andb_true_iff in Hbig as [_ Hlt]. by apply bool_decide_eq_true in Hlt.
    + unfold too_large in Hbig. rewrite <-bool_decide_eq_true, <-guard_spec in Hbig.
      apply andb_true_iff in Hbig as [Hne%bool_decide_eq_true _].
      apply max_size_elem, list_elem_of_fmap in Hne as (hed & Heq & Hin).
      by exists hed.
  - rewrite !bool_decide_eq_false_2 by done. by eexists _, _.
Qed.

(** C6, witness: a hyperedge of three members against the thresholds 2
    and 3. *)
Lemma clique_guard_witness :
  (make_fhs_edges.export_clique_edges_csv [{[1; 2; 3]}] ∅ 2
   = Raise (RuntimeError 3 2))
  ∧ ∃ rows, make_fhs_edges.export_clique_edges_csv [{[1; 2; 3]}] ∅ 3 = Ok rows.
Proof.
  split.
  - destruct (proj1 (clique_guard [{[1; 2; 3]}] ∅ ∅ 2)) as (Hraise & _).
    + apply Exists_cons_hd. vm_compute. reflexivity.
    + exact Hraise.
  - destruct (proj2 (clique_guard [{[1; 2; 3]}] ∅ ∅ 3)) as (rows & _ & Hrows & _).
    + intros [Hlt|Hnil]%Exists_cons; [vm_compute in Hlt; discriminate|].
      by apply Exists_nil in Hnil.
    + by exists rows.
Defined.

(** C10. Missing allocations default to 1.0: when the capacity map has
    no entry for member [u] of the hyperedge at index [idx], no
    projection fails on it; each emits, in one block, the records from
    [u] to every other member of the hyperedge, [k - 1] for a hyperedge
    of [k] members, with capacity 1.0 (in
    [hyperedges_to_directed_edges_df] with the capacity found under the
    bare node [u], 1.0 when there is none). *)
Theorem clique_projection_default (hyperedges : list (gset Z))
    (node_caps : gmap (Z * nat) Qc) (node_capacity_map : gmap (Z * nat + Z) Qc)
    (base_fee fee_rate : Qc) (T : Z) (idx : nat) (hed : gset Z) (u : Z) :
  hyperedges !! idx = Some hed → u ∈ hed →
  node_caps !! (u, idx) = None → node_capacity_map !! inl (u, idx) = None →
  let records := outgoing_records 1 (Qc_of_nat 100) 1 hed u in
  let records' :=
    outgoing_records (default 1%Qc (node_capacity_map !! inr u))
      base_fee fee_rate hed u in
  (length records = (size hed - 1)%nat
   ∧ Forall (λ r, src r = u ∧ capacity r = 1%Qc) records
   ∧ ∀ v, v ∈ trg <$> records ↔ v ∈ hed ∧ v ≠ u)
  ∧ (∃ pre post,
       make_supernode_edges.rows hyperedges node_caps = pre ++ records ++ post)
  ∧ (¬ Exists (λ hed, T < Z.of_nat (size hed)) hyperedges →
     ∃ pre post,
       make_fhs_edges.export_clique_edges_csv hyperedges node_caps T
       = Ok (pre ++ records ++ post))
  ∧ (length records' = (size hed - 1)%nat
     ∧ ∃ pre post,
         hyper_to_edges.hyperedges_to_directed_edges_df hyperedges
           node_capacity_map base_fee fee_rate
         = pre ++ records' ++ post).
Proof.
  intros Hidx Hu Hcaps Hmap records records'.
  destruct (outgoing_records_spec 1 (Qc_of_nat 100) 1 hed u Hu)
    as (Hlen & Hall & _ & Htrg).
  destruct (clique_rows_block (λ u idx, default 1%Qc (node_caps !! (u, idx)))
              (λ _, Qc_of_nat 100) 1%Qc hyperedges idx hed u Hidx Hu)
    as (pre & post & Hrows).
  cbv beta in Hrows. rewrite Hcaps in Hrows. simpl in Hrows.
  split; [done|]. split; [|split].
  - exists pre, post. by rewrite rows_clique_rows.
  - intros Hsmall. exists pre, post. rewrite export_clique_edges_csv_spec.
    rewrite bool_decide_eq_false_2 by done. by rewrite Hrows.
  - split; [by apply outgoing_records_spec|].
    destruct (clique_rows_block
                (λ u idx, default (default 1%Qc (node_capacity_map !! inr u))
                            (node_capacity_map !! inl (u, idx)))
                (λ _, base_fee) fee_rate hyperedges idx hed u Hidx Hu)
      as (pre' & post' & Hrows').
    cbv beta in Hrows'. rewrite Hmap in Hrows'. simpl in Hrows'.
    exists pre', post'. by rewrite hyperedges_to_directed_edges_df_clique_rows.
Qed.

(** C10, witness: the hyperedge [{1, 2, 3}] and empty capacity maps. *)
Lemma clique_projection_default_witness :
  length (outgoing_records 1 (Qc_of_nat 100) 1 {[1; 2; 3]} 2) = 2%nat
  ∧ ∃ pre post,
      make_supernode_edges.rows [{[1; 2; 3]}] ∅
      = pre ++ outgoing_records 1 (Qc_of_nat 100) 1 {[1; 2; 3]} 2 ++ post.
Proof.
  destruct (clique_projection_default [{[1; 2; 3]}] ∅ ∅ 1 1 3 0 {[1; 2; 3]} 2)
    as ((Hlen & _ & _) & Hrows & _).
  - reflexivity.
  - apply (bool_decide_unpack _). vm_compute. exact I.
  - reflexivity.
  - reflexivity.
  - split; [exact Hlen | exact Hrows].
Defined.

(** C8, as the code has it.  The graph model accepts self-loops:
    [edges_df_to_nx] raises on no row, and a row [(u, u)] makes [u] its
    own neighbour. *)
Theorem edges_df_to_nx_accepts_self_loops
    (edges_df : list (Z * Z * option Qc)) (u : Z) (cap : option Qc) :
  has_edge (utils.edges_df_to_nx (edges_df ++ [(u, u, cap)])) u u
  ∧ ¬ simple (utils.edges_df_to_nx (edges_df ++ [(u, u, cap)])).
Proof.
  assert (has_edge (utils.edges_df_to_nx (edges_df ++ [(u, u, cap)])) u u) as Hloop.
  { unfold utils.edges_df_to_nx. rewrite foldl_app. simpl.
    apply has_edge_add_edge. right. by left. }
  split; [done|]. intros Hsimple.
  apply (proj1 (simple_alt _ (wf_NoDup _ (wf_edges_df_to_nx _))) Hsimple u).
  exact Hloop.
Qed.

(** C8, counterexample.  The row [(1, 1)] is accepted and gives the
    graph whose only node is its own neighbour. *)
Lemma self_loop_accepted :
  utils.edges_df_to_nx [(1, 1, None)] = [(1, [(1, None)])]
  ∧ has_edge (utils.edges_df_to_nx [(1, 1, None)]) 1 1.
Proof. split; [reflexivity|]. vm_compute. by eexists. Qed.

(** C7 on the code.  On the edge table with the single row [(2, 1)] both
    nodes have degree 1 and the vertex cover takes node 2, the first in
    node order, not the lowest identifier.  In FHS the tie is decided by
    the hash: between [1] and [2^61 - 1], whose hash is 0, the seed is
    [2^61 - 1]. *)
Theorem max_degree_tie_break_not_lowest :
  degree_view (copy (utils.edges_df_to_nx [(2, 1, None)])) = [(2, 1%nat); (1, 1%nat)]
  ∧ nch.greedy_vertex_cover 2 (utils.edges_df_to_nx [(2, 1, None)]) None
    = Ok {[2]}
  ∧ degree_view (copy (utils.edges_df_to_nx [(1, 2 ^ 61 - 1, None)]))
    = [(1, 1%nat); (2 ^ 61 - 1, 1%nat)]
  ∧ fhs.highest_degree_node (copy (utils.edges_df_to_nx [(1, 2 ^ 61 - 1, None)]))
    = Ok (2 ^ 61 - 1).
Proof. split_and!; vm_compute; reflexivity. Qed.

(** C5 on the code.  With the isolated node 0 next to the edge 1-2, all
    three nodes are supernodes; node 0 has no neighbour and gives no
    hyperedge but uses up the index 0, so node 2 is recorded under index
    1, where the hyperedge [{1}] is stored, and node 1 under index 2,
    which is no position of the two hyperedges. *)
Theorem supernode_membership_index_off :
  ∃ hyperedges node_to_hyperedges caps,
    utils.create_supernode_hyperedges 5 lone_node_and_edge
    = Ok (hyperedges, node_to_hyperedges, caps)
    ∧ hyperedges = [{[2]}; {[1]}]
    ∧ node_to_hyperedges = {[0 := []; 1 := [2%nat]; 2 := [1%nat]]}
    ∧ ¬ membership_consistent hyperedges node_to_hyperedges.
Proof.
  do 3 eexists. split; [vm_compute; reflexivity|].
  split; [reflexivity|]. split; [reflexivity|].
  intros Hcons. destruct (Hcons 1 [2%nat]) as [_ Hmem]; [done|].
  destruct (Hmem 2%nat) as (hed & Hhed & _); [by left|]. done.
Qed.

(** C3 on the code.  For the edge 1-2 with capacity 0 the totals of both
    nodes are 0; [create_fhs] divides them as they are and allocates 0
    to each node, where the pass of [make_fhs_edges.main], on the same
    edge and memberships, substitutes the floor 1.0 and allocates 1. *)
Theorem create_fhs_zero_total_no_floor :
  ∃ h' node_to_hyperedges caps,
    fhs.create_fhs 2 [one_edge_cap0] 0 2 true
    = Ok (h', ([{[1; 2]}], node_to_hyperedges, caps))
    ∧ node_to_hyperedges !! 1 = Some [0%nat]
    ∧ caps !! (1, 0%nat) = Some 0%Qc
    ∧ make_fhs_edges.main_node_caps [(1, 2, Some 0%Qc)] node_to_hyperedges
      !! (1, 0%nat) = Some 1%Qc.
Proof.
  do 3 eexists. split; [vm_compute; reflexivity|].
  split_and!; vm_compute; reflexivity.
Qed.

(** ** The even split of the node totals *)
Section capacity_split.
Implicit Types (caps : gmap (Z * nat) Qc) (idxs : list nat) (n v : Z).

Lemma Qc_of_nat_S k : Qc_of_nat (S k) = (Qc_of_nat k + 1)%Qc.
Proof.
  unfold Qc_of_nat. apply Qc_is_canon. unfold Qcplus. simpl.
  rewrite !Qred_correct, Nat2Z.inj_succ. unfold Qeq. simpl. lia.
Qed.

Lemma Qc_of_nat_nonzero k : (0 < k)%nat → Qc_of_nat k ≠ 0%Qc.
Proof.
  intros Hk Heq. unfold Qc_of_nat in Heq.
  apply (f_equal this) in Heq. simpl in Heq.
  assert (Qred (inject_Z (Z.of_nat k)) == 0)%Q as Hz by (rewrite Heq; reflexivity).
  rewrite Qred_correct in Hz. unfold Qeq in Hz. simpl in Hz. lia.
Qed.

(** [k] shares of [c / k] add up to [c]. *)
Lemma sum_Qc_shares (c : Qc) idxs :
  idxs ≠ [] →
  sum_Qc ((λ _, c / Qc_of_nat (length idxs))%Qc <$> idxs) = c.
Proof.
  intros Hne.
  assert (∀ (x : Qc) (l : list nat),
            sum_Qc ((λ _, x) <$> l) = (Qc_of_nat (length l) * x)%Qc) as Hsum.
  { intros x l. induction l as [|i l IH]; csimpl.
    - unfold sum_Qc. simpl. change (Qc_of_nat 0) with 0%Qc. ring.
    - unfold sum_Qc in *. simpl. rewrite IH, Qc_of_nat_S. ring. }
  rewrite Hsum. field. apply Qc_of_nat_nonzero.
  destruct idxs; [done|simpl; lia].
Qed.

Lemma lookup_foldl_insert caps v (c : Qc) idxs n i :
  foldl (λ caps idx, <[(v, idx) := c]> caps) caps idxs !! (n, i)
  = if decide (n = v ∧ i ∈ idxs) then Some c else caps !! (n, i).
Proof.
  revert caps. induction idxs as [|j idxs IH]; intros caps; simpl.
  - rewrite decide_False; [done|]. intros [_ ?%elem_of_nil]. done.
  - rewrite IH. destruct (decide (n = v ∧ i ∈ idxs)) as [[-> Hi]|Hno].
    + rewrite decide_True; [done|]. split; [done|by right].
    + destruct (decide ((v, j) = (n, i))) as [[= -> ->]|Hne].
      * rewrite lookup_insert_eq, decide_True; [done|]. split; [done|by left].
      * rewrite lookup_insert_ne by done. rewrite decide_False; [done|].
        rewrite elem_of_cons. intros [-> [->|?]]; [done|tauto].
Qed.

(** The loop over [node_to_hyperedges.items()] that writes the shares. *)
Lemma lookup_foldl_shares (per : Z → list nat → Qc)
    (L : list (Z * list nat)) caps n i :
  NoDup L.*1 →
  let result :=
    foldl (λ caps nh,
             if bool_decide (nh.2 = []) then caps
             else foldl (λ caps idx, <[(nh.1, idx) := per nh.1 nh.2]> caps)
                    caps nh.2)
      caps L in
  (∀ idxs, (n, idxs) ∈ L → i ∈ idxs → result !! (n, i) = Some (per n idxs))
  ∧ ((∀ idxs, (n, idxs) ∈ L → i ∉ idxs) → result !! (n, i) = caps !! (n, i)).
Proof.
  revert caps. induction L as [|[v l] L IH]; intros caps Hnd; simpl.
  - split; [by intros ? ?%elem_of_nil|done].
  - apply NoDup_cons in Hnd as [Hv Hnd].
    set (caps1 := if bool_decide (l = []) then caps else _).
    assert (caps1 !! (n, i)
            = if decide (n = v ∧ i ∈ l) then Some (per v l) else caps !! (n, i))
      as Hfirst.
    { unfold caps1. case_bool_decide as Hl.
      - subst l. rewrite decide_False; [done|]. by intros [_ ?%elem_of_nil].
      - apply lookup_foldl_insert. }
    destruct (IH caps1 Hnd) as [IH1 IH2]. split.
    + intros idxs [[= <- <-]|Hin]%elem_of_cons Hi; [|by apply IH1].
      rewrite IH2, Hfirst, decide_True; [done..|].
      intros idxs' Hin. exfalso. apply Hv.
      apply list_elem_of_fmap. by exists (n, idxs').
    + intros Hno. rewrite IH2, Hfirst.
      * rewrite decide_False; [done|]. intros [-> Hi].
        apply (Hno l); [by left|done].
      * intros idxs' Hin. apply Hno. by right.
Qed.

(** [compute_node_totals] sums, for every node, the capacities of the
    rows it is an endpoint of. *)
Lemma compute_node_totals_spec (edges_df : list (Z * Z * option Qc)) n :
  default 0%Qc (make_fhs_edges.compute_node_totals edges_df !! n)
  = incident_total edges_df n.
Proof.
  unfold make_fhs_edges.compute_node_totals.
  assert (∀ tot : gmap Z Qc,
            default 0%Qc
              (foldl (λ node_totals (r : Z * Z * option Qc),
                        let cap : Qc := default 0%Qc r.2 in
                        let node_totals :=
                          <[r.1.1 := (default 0 (node_totals !! r.1.1) + cap)%Qc]>
                            node_totals in
                        <[r.1.2 := (default 0 (node_totals !! r.1.2) + cap)%Qc]>
                          node_totals)
                 tot edges_df !! n)
            = (default 0 (tot !! n) + incident_total edges_df n)%Qc) as Hgen.
  { induction edges_df as [|[[u v] c] rows IH]; intros tot; simpl.
    - ring.
    - rewrite IH. clear IH.
      destruct (decide (v = n)) as [->|Hv], (decide (u = n)) as [->|Hu];
        repeat (rewrite lookup_insert_eq || rewrite lookup_insert_ne by done);
        cbn [from_option id]; ring. }
  rewrite Hgen, lookup_empty. simpl. ring.
Qed.

(** The pass of [make_fhs_edges.main]: for a node with total [T] in [k]
    hyperedges, each of its [k] entries holds [T / k], with 1 in the
    place of a total [T <= 0], the node has no other entry, and its
    entries add up to the total (or to the floor). *)
Lemma main_node_caps_uniform (edges_df : list (Z * Z * option Qc))
    (node_to_hyperedges : gmap Z (list nat)) n idxs :
  node_to_hyperedges !! n = Some idxs → idxs ≠ [] →
  let caps := make_fhs_edges.main_node_caps edges_df node_to_hyperedges in
  let T := incident_total edges_df n in
  let T' := if decide (T ≤ 0)%Qc then 1%Qc else T in
  (∀ idx, idx ∈ idxs → caps !! (n, idx) = Some (T' / Qc_of_nat (length idxs))%Qc)
  ∧ (∀ idx, idx ∉ idxs → caps !! (n, idx) = None)
  ∧ sum_Qc ((λ idx, default 0%Qc (caps !! (n, idx))) <$> idxs) = T'.
Proof.
  intros Hn Hne caps T T'.
  assert (∀ idx, (idx ∈ idxs → caps !! (n, idx) = Some (T' / Qc_of_nat (length idxs))%Qc)
                 ∧ (idx ∉ idxs → caps !! (n, idx) = None)) as Hlookup.
  { intros idx. unfold caps, make_fhs_edges.main_node_caps. cbv zeta.
    destruct (lookup_foldl_shares
                (λ v l,
                   ((if decide (default 0%Qc
                                  (make_fhs_edges.compute_node_totals edges_df !! v) ≤ 0)%Qc
                     then 1%Qc
                     else default 0%Qc
                            (make_fhs_edges.compute_node_totals edges_df !! v))
                    / Qc_of_nat (length l))%Qc)
                (map_to_list node_to_hyperedges) ∅ n idx) as [H1 H2].
    { apply NoDup_fst_map_to_list. }
    cbv zeta in H1, H2. split.
    - intros Hidx. rewrite (H1 idxs); [|by apply elem_of_map_to_list|done].
      by rewrite compute_node_totals_spec.
    - intros Hidx. rewrite H2; [apply lookup_empty|].
      intros idxs' Hin%elem_of_map_to_list. by simplify_eq. }
  split_and!.
  - intros idx. apply Hlookup.
  - intros idx. apply Hlookup.
  - rewrite <-(sum_Qc_shares T' idxs Hne). f_equal.
    apply list_fmap_ext. intros i idx Hidx%list_elem_of_lookup_2.
    by rewrite (proj1 (Hlookup idx) Hidx).
Qed.

(** The split of [create_fhs] on a graph with capacities: the shares
    are [total / k], whatever the total. *)
Lemma split_evenly_lookup (total_of : Z → Qc)
    (node_to_hyperedges : gmap Z (list nat)) n idxs idx :
  node_to_hyperedges !! n = Some idxs → idx ∈ idxs →
  fhs.split_evenly total_of node_to_hyperedges !! (n, idx)
  = Some (total_of n / Qc_of_nat (length idxs))%Qc.
Proof.
  intros Hn Hidx. unfold fhs.split_evenly.
  destruct (lookup_foldl_shares
              (λ v l, (total_of v / Qc_of_nat (length l))%Qc)
              (map_to_list node_to_hyperedges) ∅ n idx) as [H1 _].
  { apply NoDup_fst_map_to_list. }
  apply (H1 idxs); [by apply elem_of_map_to_list|done].
Qed.

End capacity_split.

(** ** The membership index of NCH and of the rollup *)
Section nch_membership.
Implicit Types (G H : graph) (cover : gset Z).

Lemma greedy_while_returns fuel G H cover max_nodes :
  wf H → (length H < fuel)%nat →
  (∀ u v, has_edge H u v → has_edge G u v) →
  (∀ c, c ∈ cover → ∃ b, has_edge G c b) →
  ∃ cover', nch.greedy_while fuel H cover max_nodes = Ok cover'
            ∧ ∀ c, c ∈ cover' → ∃ b, has_edge G c b.
Proof.
  revert H cover.
  induction fuel as [|fuel IH]; intros H cover Hwf Hlen Hsub Hcov; [lia|].
  simpl. case_bool_decide as Hedges; [|by eauto].
  destruct (py_max_degree_spec (λ x y : Z * nat, bool_decide (y.2 < x.2)%nat) H)
    as (nd & nb & -> & Hnb); [|done..|].
  { intros x y. case_bool_decide; lia. }
  rewrite bind_Ok. pose proof (has_edge_node _ _ _ Hnb) as Hnd.
  unfold remove_node. rewrite (proj2 (has_node_spec H nd.1)) by done.
  rewrite bind_Ok.
  assert (∀ c, c ∈ cover ∪ {[nd.1]} → ∃ b, has_edge G c b) as Hcov'.
  { intros c [?| ->%elem_of_singleton]%elem_of_union; [by auto|].
    exists nb. by apply Hsub. }
  destruct (match max_nodes with
            | Some m => bool_decide (m ≤ size (cover ∪ {[nd.1]}))%nat
            | None => false
            end); [by eauto|].
  apply IH; [by apply wf_drop_node| |..|done].
  - pose proof (length_drop_node H nd.1 Hnd). lia.
  - intros u v [? _]%has_edge_drop_node. by apply Hsub.
Qed.

Lemma lookup_foldl_defaultdict_append (vs : list Z) (d : gmap Z (list nat)) i k :
  NoDup vs →
  foldl (λ d v, defaultdict_append d v i) d vs !! k
  = if decide (k ∈ vs) then Some (default [] (d !! k) ++ [i]) else d !! k.
Proof.
  revert d. induction vs as [|v vs IH]; intros d Hnd; cbn [foldl].
  - rewrite decide_False; [done|]. apply not_elem_of_nil.
  - apply NoDup_cons in Hnd as [Hv Hnd]. rewrite IH by done.
    unfold defaultdict_append. destruct (decide (k = v)) as [->|Hne].
    + rewrite (decide_False (P := v ∈ vs)) by done.
      rewrite decide_True by (by left). by rewrite lookup_insert_eq.
    + rewrite lookup_insert_ne by done. apply decide_ext.
      rewrite elem_of_cons. split; [by right|]. by intros [?|?].
Qed.

Lemma create_nch_loop G (cs : list Z) j hyperedges
    (node_to_hyperedges : gmap Z (list nat)) :
  (∀ c, c ∈ cs → ∃ b, has_edge G c b) →
  length hyperedges = j →
  membership_consistent hyperedges node_to_hyperedges →
  ∃ hyperedges' node_to_hyperedges',
    for_each (zip (seq j (length cs)) cs)
      (λ '(hyperedges, node_to_hyperedges) '(idx, c),
         nbs ← neighbors G c;
         let neighs : gset Z := list_to_set nbs in
         if bool_decide (size neighs = 0%nat)
         then Ok (hyperedges, node_to_hyperedges)
         else Ok (hyperedges ++ [neighs],
                  foldl (λ d v, defaultdict_append d v idx)
                    node_to_hyperedges (set_iter neighs)))
      (hyperedges, node_to_hyperedges)
    = Ok (hyperedges', node_to_hyperedges')
    ∧ membership_consistent hyperedges' node_to_hyperedges'.
Proof.
  revert j hyperedges node_to_hyperedges.
  induction cs as [|c cs IH]; intros j hs n2h Hcs Hlen Hcons; [by eexists _, _|].
  destruct (Hcs c) as (b & (adj & Hadj & Hb)%has_edge_alt); [by left|].
  simpl length. simpl seq. simpl zip. rewrite for_each_cons. cbn beta iota.
  rewrite (neighbors_Some _ _ _ Hadj), bind_Ok. cbv zeta.
  rewrite bool_decide_eq_false_2; last first.
  { apply size_non_empty_iff. intros Hempty.
    assert (b ∈ (list_to_set adj.*1 : gset Z)) as Hin
      by (by apply elem_of_list_to_set).
    rewrite Hempty in Hin. by apply not_elem_of_empty in Hin. }
  rewrite bind_Ok. apply IH.
  - intros c' Hc'. apply Hcs. by right.
  - rewrite length_app. simpl. lia.
  - subst j. apply (membership_consistent_round hs n2h _ _ Hcons).
    intros k idxs.
    rewrite lookup_foldl_defaultdict_append by apply NoDup_set_iter.
    case_decide as Hk.
    + intros [= <-]. left. split; [by apply elem_of_set_iter|done].
    + intros ?. right. split; [|done]. by rewrite <-elem_of_set_iter.
Qed.

(** NCH returns and its membership index is consistent: a cover node
    was taken for its positive degree, so none is skipped and the
    enumeration index is the position of the hyperedge. *)
Lemma create_nch_membership_consistent (fuel : nat) G
    (max_cover_size : option nat) (use_edge_capacity : bool) :
  wf G → (number_of_nodes G < fuel)%nat →
  ∃ hyperedges node_to_hyperedges caps,
    nch.create_nch fuel G max_cover_size use_edge_capacity
    = Ok (hyperedges, node_to_hyperedges, caps)
    ∧ membership_consistent hyperedges node_to_hyperedges.
Proof.
  intros Hwf Hfuel. unfold nch.create_nch, nch.greedy_vertex_cover.
  destruct (greedy_while_returns fuel G (copy G) ∅ max_cover_size)
    as (cover & -> & Hcover).
  - apply wf_copy.
  - rewrite length_copy by done. exact Hfuel.
  - intros u v. by apply has_edge_copy.
  - by intros c ?%not_elem_of_empty.
  - rewrite bind_Ok. unfold enumerate.
    destruct (create_nch_loop G (merge_sort Z.le (elements cover)) 0 [] ∅)
      as (hs & n2h & Hloop & Hcons).
    + intros c Hc. apply Hcover. rewrite merge_sort_Permutation in Hc.
      by apply elem_of_elements.
    + done.
    + by intros n idxs ?.
    + cbv zeta in Hloop. rewrite Hloop, bind_Ok. by exists hs, n2h, ∅.
Qed.

Lemma create_lnrollup_membership_consistent G :
  ∀ hyperedges node_to_hyperedges caps,
    utils.create_lnrollup_hyperedges G = (hyperedges, node_to_hyperedges, caps) →
    membership_consistent hyperedges node_to_hyperedges.
Proof.
  intros hs n2h caps [= <- <- _] n idxs Hn.
  apply elem_of_list_to_map_2, list_elem_of_fmap in Hn as (n' & [= -> ->] & Hin).
  split; [apply NoDup_singleton|].
  intros i ->%list_elem_of_singleton. eexists. split; [done|].
  by apply elem_of_list_to_set.
Qed.

End nch_membership.

(** ** Invariants of the FHS loop *)
Section fhs_invariant.
Implicit Types (G : nat) (g : graph) (h : heap).
Variable (I : list (gset Z) → gmap Z (list nat) → Prop).
Variable (g0 : graph) (m_max : Z).
Hypothesis I_round : ∀ hyperedges node_to_hyperedges Ve node_to_hyperedges',
  I hyperedges node_to_hyperedges →
  (2 ≤ size Ve)%nat → Z.of_nat (size Ve) ≤ m_max →
  (∀ x, x ∈ Ve → ∃ y, has_edge g0 x y) → connected_in g0 Ve →
  (∀ x, x ∈ Ve → is_Some (node_to_hyperedges !! x)) →
  (∀ k, node_to_hyperedges' !! k
        = if decide (k ∈ Ve)
          then (λ l, l ++ [length hyperedges]) <$> node_to_hyperedges !! k
          else node_to_hyperedges !! k) →
  I (hyperedges ++ [Ve]) node_to_hyperedges'.

Lemma connected_in_mono g Ve :
  (∀ u v, has_edge g u v → has_edge g0 u v) →
  connected_in g Ve → connected_in g0 Ve.
Proof.
  intros Hsub Hconn x y Hx Hy. eapply rtc_subrel; [|by apply Hconn].
  intros a b (? & ? & ?). auto.
Qed.

Lemma fhs_while_invariant fuel h G hyperedges node_to_hyperedges g :
  h !! G = Some g → wf g → (∀ u, ¬ has_edge g u u) → 2 ≤ m_max →
  (number_of_edges g < fuel)%nat →
  (∀ n, n ∈ nodes g → is_Some (node_to_hyperedges !! n)) →
  (∀ u v, has_edge g u v → has_edge g0 u v) →
  I hyperedges node_to_hyperedges →
  ∃ h' hyperedges' node_to_hyperedges',
    fhs.fhs_while fuel h G m_max hyperedges node_to_hyperedges
    = Ok (h', hyperedges', node_to_hyperedges')
    ∧ I hyperedges' node_to_hyperedges'
    ∧ (length hyperedges' ≤ length hyperedges + number_of_edges g)%nat.
Proof.
  revert h hyperedges node_to_hyperedges g.
  induction fuel as [|fuel IH];
    intros h hyperedges n2h g Hh Hwf Hsimple Hm Hfuel Hkeys Hsub HI; [lia|].
  destruct (decide (0 < number_of_edges g)%nat) as [Hedges|Hnone].
  - destruct (fhs_round_full fuel h G m_max hyperedges n2h g)
      as (Ve & g' & h1 & n2h1 & -> & Hh1 & Hwf1 & Hg1 & Hlt & Hnodes & Hn2h1
          & Hsize2 & Hsize & Hdeg & Hconn); [done..|].
    assert (∀ x, x ∈ Ve → is_Some (n2h !! x)) as HVe.
    { intros x [y Hxy]%Hdeg. by eapply Hkeys, has_edge_node. }
    destruct (IH h1 (hyperedges ++ [Ve]) n2h1 g')
      as (h' & hs' & n2h' & -> & HI' & Hlen); try done.
    + intros u [Hu _]%Hg1. by apply (Hsimple u).
    + lia.
    + intros n Hn. rewrite Hn2h1. case_decide as Hin.
      * apply fmap_is_Some. by apply HVe.
      * by apply Hkeys, Hnodes.
    + intros u v [? _]%Hg1. by apply Hsub.
    + apply (I_round hyperedges n2h Ve n2h1); try done.
      * intros x [y Hxy]%Hdeg. exists y. by apply Hsub.
      * by apply (connected_in_mono g).
    + exists h', hs', n2h'. split_and!; [done..|].
      rewrite length_app in Hlen. simpl in Hlen. lia.
  - rewrite fhs_while_S, (list_lookup_total_correct _ _ _ Hh).
    rewrite bool_decide_eq_false_2 by done. exists h, hyperedges, n2h.
    split_and!; [done..|lia].
Qed.

Lemma create_fhs_invariant (fuel : nat) h (G_input : nat)
    (use_edge_capacity : bool) :
  h !! G_input = Some g0 → wf g0 → simple g0 → 2 ≤ m_max →
  (number_of_edges g0 < fuel)%nat →
  I [] (empty_membership g0) →
  ∃ h' hyperedges node_to_hyperedges caps,
    fhs.create_fhs fuel h G_input m_max use_edge_capacity
    = Ok (h', (hyperedges, node_to_hyperedges, caps))
    ∧ I hyperedges node_to_hyperedges
    ∧ (length hyperedges ≤ number_of_edges g0)%nat
    ∧ (if use_edge_capacity
       then fhs.capacity_distribution g0 node_to_hyperedges = Ok caps
       else caps = ∅).
Proof.
  intros Hh Hwf Hsimple Hm Hfuel HI. unfold fhs.create_fhs. cbv zeta.
  assert (G_input < length h)%nat as Hlt by (by eapply lookup_lt_Some).
  assert ((h ++ [copy g0]) !! G_input = Some g0) as Hin.
  { by rewrite lookup_app_l. }
  rewrite (list_lookup_total_correct _ _ _ Hh).
  rewrite (list_lookup_total_correct _ _ _ Hin).
  pose proof (proj1 (simple_alt g0 (wf_NoDup _ Hwf)) Hsimple) as Hloops.
  destruct (fhs_while_invariant fuel (h ++ [copy g0]) (length h) []
              (empty_membership g0) (copy g0))
    as (h' & hs & n2h & Hrun & HI' & Hlen).
  - by rewrite list_lookup_middle.
  - apply wf_copy.
  - intros u Hu. apply (has_edge_copy g0 u u Hwf) in Hu. by apply (Hloops u).
  - done.
  - pose proof (number_of_edges_copy g0 Hwf). lia.
  - intros n Hn. rewrite nodes_copy in Hn by done. by apply lookup_node_init.
  - intros u v. by apply has_edge_copy.
  - done.
  - rewrite Hrun, bind_Ok.
    assert (length hs ≤ number_of_edges g0)%nat as Hlen'.
    { pose proof (number_of_edges_copy g0 Hwf). simpl in Hlen. lia. }
    apply fhs_while_frame in Hrun as [_ Hframe].
    assert (h' !!! G_input = g0) as ->.
    { apply list_lookup_total_correct. rewrite Hframe by lia. done. }
    destruct use_edge_capacity.
    + destruct (capacity_distribution_returns g0 n2h Hwf) as (caps & Hcaps).
      rewrite Hcaps, bind_Ok. by exists h', hs, n2h, caps.
    + rewrite bind_Ok. by exists h', hs, n2h, ∅.
Qed.

End fhs_invariant.

(** ** The hyperedges and the index of FHS *)
Section fhs_structure.
Implicit Types (g : graph) (hyperedges : list (gset Z)).

Lemma filter_ext_elem {A} (P Q : A → Prop) `{!∀ x, Decision (P x)}
    `{!∀ x, Decision (Q x)} (l : list A) :
  (∀ x, x ∈ l → P x ↔ Q x) → filter P l = filter Q l.
Proof.
  induction l as [|x l IH]; intros Hext; [done|]. rewrite !filter_cons.
  rewrite IH by (intros y Hy; apply Hext; by right).
  destruct (decide (P x)) as [HP|HP], (decide (Q x)) as [HQ|HQ]; try done.
  - destruct HQ. by apply (Hext x); [left|].
  - destruct HP. by apply (Hext x); [left|].
Qed.

Lemma positions_of_snoc hyperedges (Ve : gset Z) v :
  positions_of (hyperedges ++ [Ve]) v
  = positions_of hyperedges v
    ++ (if decide (v ∈ Ve) then [length hyperedges] else []).
Proof.
  unfold positions_of. rewrite length_app. simpl.
  rewrite Nat.add_1_r, seq_S, filter_app. simpl. f_equal.
  - apply filter_ext_elem. intros i Hi%elem_of_seq.
    rewrite lookup_app_l by lia. done.
  - rewrite filter_cons, filter_nil, list_lookup_middle by done. simpl.
    by destruct (decide (v ∈ Ve)).
Qed.

Lemma fhs_structure_round g0 m_max hyperedges (n2h : gmap Z (list nat))
    (Ve : gset Z) (n2h' : gmap Z (list nat)) :
  fhs_structure g0 m_max hyperedges n2h →
  (2 ≤ size Ve)%nat → Z.of_nat (size Ve) ≤ m_max →
  (∀ x, x ∈ Ve → ∃ y, has_edge g0 x y) → connected_in g0 Ve →
  (∀ x, x ∈ Ve → is_Some (n2h !! x)) →
  (∀ k, n2h' !! k
        = if decide (k ∈ Ve)
          then (λ l, l ++ [length hyperedges]) <$> n2h !! k
          else n2h !! k) →
  fhs_structure g0 m_max (hyperedges ++ [Ve]) n2h'.
Proof.
  intros [Hall Hidx] Hsize2 Hsize Hdeg Hconn _ Hn2h'. split.
  - apply Forall_app. split; [done|]. by apply Forall_singleton.
  - intros v. rewrite Hn2h', Hidx, positions_of_snoc.
    destruct (decide (v ∈ Ve)) as [Hv|Hv].
    + destruct (Hdeg v Hv) as [y Hy%has_edge_node].
      by rewrite !decide_True by done.
    + case_decide; [|done]. by rewrite app_nil_r.
Qed.

Lemma lookup_empty_membership g v :
  empty_membership g !! v = if decide (v ∈ nodes g) then Some [] else None.
Proof.
  unfold empty_membership. case_decide as Hv.
  - destruct (lookup_node_init g ([] : list nat) v Hv) as [l Hl].
    rewrite Hl. apply elem_of_list_to_map_2 in Hl.
    apply list_elem_of_fmap in Hl as (? & [= _ ->] & _). done.
  - apply not_elem_of_list_to_map_1. rewrite <-list_fmap_compose.
    intros (? & -> & ?)%list_elem_of_fmap. done.
Qed.

Lemma fhs_structure_init g0 m_max :
  fhs_structure g0 m_max [] (empty_membership g0).
Proof. split; [done|]. intros v. by rewrite lookup_empty_membership. Qed.

Lemma create_fhs_structure (fuel : nat) (h : heap) (G_input : nat) g
    (m_max : Z) (use_edge_capacity : bool) :
  h !! G_input = Some g → wf g → simple g → 2 ≤ m_max →
  (number_of_edges g < fuel)%nat →
  ∃ h' hyperedges node_to_hyperedges caps,
    fhs.create_fhs fuel h G_input m_max use_edge_capacity
    = Ok (h', (hyperedges, node_to_hyperedges, caps))
    ∧ fhs_structure g m_max hyperedges node_to_hyperedges
    ∧ (length hyperedges ≤ number_of_edges g)%nat
    ∧ (∀ u v, has_edge g u v →
         ∃ i Ve, hyperedges !! i = Some Ve ∧ u ∈ Ve ∧ v ∈ Ve)
    ∧ (if use_edge_capacity
       then fhs.capacity_distribution g node_to_hyperedges = Ok caps
       else caps = ∅).
Proof.
  intros Hh Hwf Hsimple Hm Hfuel.
  destruct (create_fhs_invariant (fhs_structure g m_max) g m_max
              (fhs_structure_round g m_max) fuel h G_input use_edge_capacity)
    as (h' & hs & n2h & caps & Hrun & Hstruct & Hlen & Hcaps);
    [done..|apply fhs_structure_init|].
  destruct (create_fhs_returns fuel h G_input g m_max use_edge_capacity)
    as (h2 & hs2 & n2h2 & caps2 & Hrun2 & Hcov & _); [done..|].
  rewrite Hrun in Hrun2. simplify_eq.
  by exists h2, hs2, n2h2, caps2.
Qed.

End fhs_structure.

(** X3. On a well-formed graph without self-loops and for [m_max] at
    least 2, every hyperedge that [create_fhs] returns has at least two
    and at most [m_max] members, and there are at most as many
    hyperedges as the graph has edges. *)
Theorem create_fhs_hyperedge_sizes (fuel : nat) (h : heap) (G_input : nat)
    (g : graph) (m_max : Z) (use_edge_capacity : bool) :
  h !! G_input = Some g → wf g → simple g → 2 ≤ m_max →
  (number_of_edges g < fuel)%nat →
  ∃ h' hyperedges node_to_hyperedges caps,
    fhs.create_fhs fuel h G_input m_max use_edge_capacity
    = Ok (h', (hyperedges, node_to_hyperedges, caps))
    ∧ Forall (λ hed, (2 ≤ size hed)%nat ∧ Z.of_nat (size hed) ≤ m_max)
        hyperedges
    ∧ (length hyperedges ≤ number_of_edges g)%nat.
Proof.
  intros Hh Hwf Hsimple Hm Hfuel.
  destruct (create_fhs_structure fuel h G_input g m_max use_edge_capacity)
    as (h' & hs & n2h & caps & Hrun & [Hall _] & Hlen & _); [done..|].
  exists h', hs, n2h, caps. split_and!; [done| |done].
  eapply Forall_impl; [exact Hall|]. by intros hed (? & ? & _).
Qed.

Lemma create_fhs_hyperedge_sizes_witness :
  ∃ h' hyperedges node_to_hyperedges caps,
    fhs.create_fhs 12 [demo_graph] 0 3 true
    = Ok (h', (hyperedges, node_to_hyperedges, caps))
    ∧ Forall (λ hed, (2 ≤ size hed)%nat ∧ Z.of_nat (size hed) ≤ 3)
        hyperedges
    ∧ (length hyperedges ≤ number_of_edges demo_graph)%nat.
Proof.
  apply (create_fhs_hyperedge_sizes 12 [demo_graph] 0 demo_graph 3 true).
  - reflexivity.
  - apply (bool_decide_unpack _). vm_compute. exact I.
  - apply (bool_decide_unpack _). vm_compute. exact I.
  - lia.
  - vm_compute. lia.
Defined.

(** X4. The index that [create_fhs] returns has a key for every node of
    the input graph and for nothing else, and the list of a node is
    exactly the increasing list of the positions of the hyperedges that
    contain it (the empty list for a node that is in none). *)
Theorem create_fhs_membership_index (fuel : nat) (h : heap) (G_input : nat)
    (g : graph) (m_max : Z) (use_edge_capacity : bool) :
  h !! G_input = Some g → wf g → simple g → 2 ≤ m_max →
  (number_of_edges g < fuel)%nat →
  ∃ h' hyperedges node_to_hyperedges caps,
    fhs.create_fhs fuel h G_input m_max use_edge_capacity
    = Ok (h', (hyperedges, node_to_hyperedges, caps))
    ∧ ∀ v, node_to_hyperedges !! v
           = if decide (v ∈ nodes g) then Some (positions_of hyperedges v)
             else None.
Proof.
  intros Hh Hwf Hsimple Hm Hfuel.
  destruct (create_fhs_structure fuel h G_input g m_max use_edge_capacity)
    as (h' & hs & n2h & caps & Hrun & [_ Hidx] & _); [done..|].
  by exists h', hs, n2h, caps.
Qed.

Lemma create_fhs_membership_index_witness :
  ∃ h' hyperedges node_to_hyperedges caps,
    fhs.create_fhs 6 [kite] 0 3 false
    = Ok (h', (hyperedges, node_to_hyperedges, caps))
    ∧ ∀ v, node_to_hyperedges !! v
           = if decide (v ∈ nodes kite) then Some (positions_of hyperedges v)
             else None.
Proof.
  apply (create_fhs_membership_index 6 [kite] 0 kite 3 false).
  - reflexivity.
  - apply (bool_decide_unpack _). vm_compute. exact I.
  - apply (bool_decide_unpack _). vm_compute. exact I.
  - lia.
  - vm_compute. lia.
Defined.

(** X5. A node is a member of some hyperedge returned by [create_fhs]
    if and only if it has an edge in the input graph: isolated nodes
    are in no hyperedge, every other node is in at least one. *)
Theorem create_fhs_members_have_edges (fuel : nat) (h : heap) (G_input : nat)
    (g : graph) (m_max : Z) (use_edge_capacity : bool) :
  h !! G_input = Some g → wf g → simple g → 2 ≤ m_max →
  (number_of_edges g < fuel)%nat →
  ∃ h' hyperedges node_to_hyperedges caps,
    fhs.create_fhs fuel h G_input m_max use_edge_capacity
    = Ok (h', (hyperedges, node_to_hyperedges, caps))
    ∧ ∀ v, (∃ hed, hed ∈ hyperedges ∧ v ∈ hed) ↔ (∃ w, has_edge g v w).
Proof.
  intros Hh Hwf Hsimple Hm Hfuel.
  destruct (create_fhs_structure fuel h G_input g m_max use_edge_capacity)
    as (h' & hs & n2h & caps & Hrun & [Hall _] & _ & Hcov & _); [done..|].
  exists h', hs, n2h, caps. split; [done|]. intros v. split.
  - intros (hed & Hhed & Hv). rewrite Forall_forall in Hall.
    destruct (Hall hed Hhed) as (_ & _ & Hdeg & _). by apply Hdeg.
  - intros [w Hvw]. destruct (Hcov v w Hvw) as (i & Ve & Hi & Hv & _).
    exists Ve. split; [by eapply list_elem_of_lookup_2|done].
Qed.

Lemma create_fhs_members_have_edges_witness :
  ∃ h' hyperedges node_to_hyperedges caps,
    fhs.create_fhs 6 [kite] 0 3 false
    = Ok (h', (hyperedges, node_to_hyperedges, caps))
    ∧ ∀ v, (∃ hed, hed ∈ hyperedges ∧ v ∈ hed) ↔ (∃ w, has_edge kite v w).
Proof.
  apply (create_fhs_members_have_edges 6 [kite] 0 kite 3 false).
  - reflexivity.
  - apply (bool_decide_unpack _). vm_compute. exact I.
  - apply (bool_decide_unpack _). vm_compute. exact I.
  - lia.
  - vm_compute. lia.
Defined.

(** X6. Every hyperedge returned by [create_fhs] is connected in the
    input graph: any two of its members are joined by a path of edges
    of the input graph that stays inside the hyperedge. *)
Theorem create_fhs_hyperedges_connected (fuel : nat) (h : heap)
    (G_input : nat) (g : graph) (m_max : Z) (use_edge_capacity : bool) :
  h !! G_input = Some g → wf g → simple g → 2 ≤ m_max →
  (number_of_edges g < fuel)%nat →
  ∃ h' hyperedges node_to_hyperedges caps,
    fhs.create_fhs fuel h G_input m_max use_edge_capacity
    = Ok (h', (hyperedges, node_to_hyperedges, caps))
    ∧ Forall (connected_in g) hyperedges.
Proof.
  intros Hh Hwf Hsimple Hm Hfuel.
  destruct (create_fhs_structure fuel h G_input g m_max use_edge_capacity)
    as (h' & hs & n2h & caps & Hrun & [Hall _] & _); [done..|].
  exists h', hs, n2h, caps. split; [done|].
  eapply Forall_impl; [exact Hall|]. by intros hed (_ & _ & _ & ?).
Qed.

Lemma create_fhs_hyperedges_connected_witness :
  ∃ h' hyperedges node_to_hyperedges caps,
    fhs.create_fhs 12 [demo_graph] 0 3 true
    = Ok (h', (hyperedges, node_to_hyperedges, caps))
    ∧ Forall (connected_in demo_graph) hyperedges.
Proof.
  apply (create_fhs_hyperedges_connected 12 [demo_graph] 0 demo_graph 3 true).
  - reflexivity.
  - apply (bool_decide_unpack _). vm_compute. exact I.
  - apply (bool_decide_unpack _). vm_compute. exact I.
  - lia.
  - vm_compute. lia.
Defined.

(** ** The graph of an edge table *)
Section edge_table.
Implicit Types (G : graph) (edges_df : list (Z * Z * option Qc)).

Lemma Forall_dict_set {V} (P : Z * V → Prop) (d : list (Z * V)) k x :
  Forall P d → P (k, x) → Forall P (dict_set d k x).
Proof.
  intros Hd Hx. induction Hd as [|[k0 x0] d H0 Hd IH]; simpl.
  - by apply Forall_singleton.
  - case_decide; subst; by apply Forall_cons.
Qed.

Lemma no_capacity_edge_data G u v d :
  no_capacity G → edge_data G u v = Some d → d = None.
Proof.
  intros HG. unfold edge_data.
  destruct (dict_get G u) as [adj|] eqn:Hu; simpl; [|done].
  intros Hv%dict_get_Some_elem. specialize (HG u adj Hu).
  rewrite Forall_forall in HG. apply (HG _ Hv).
Qed.

Lemma no_capacity_add_edge G u v :
  no_capacity G → no_capacity (add_edge G u v None).
Proof.
  intros HG n adj. unfold add_edge.
  assert (∀ k, Forall (λ vd : Z * option Qc, vd.2 = None)
                 (default [] (dict_get G k))) as Hdef.
  { intros k. destruct (dict_get G k) eqn:Hk; simpl; [by eapply HG|done]. }
  set (G1 := add_node (add_node G u) v).
  assert (∀ k a, dict_get G1 k = Some a → Forall (λ vd, vd.2 = None) a) as HG1.
  { intros k a. unfold G1. rewrite !dict_get_add_node.
    repeat case_decide; intros; simplify_eq; eauto. }
  assert (default None (edge_data G1 u v) = None) as ->.
  { destruct (edge_data G1 u v) as [d|] eqn:Hd; [|done]. simpl.
    unfold edge_data in Hd. destruct (dict_get G1 u) as [a|] eqn:Ha; [|done].
    simpl in Hd. apply dict_get_Some_elem in Hd. specialize (HG1 u a Ha).
    rewrite Forall_forall in HG1. apply (HG1 _ Hd). }
  rewrite !dict_get_adj_update.
  repeat case_decide; destruct (dict_get G1 n) as [a|] eqn:Ha; simpl;
    intros; simplify_eq; eauto using Forall_dict_set.
Qed.

Lemma no_capacity_edges_df_to_nx edges_df :
  no_capacity (utils.edges_df_to_nx edges_df).
Proof.
  unfold utils.edges_df_to_nx.
  assert (no_capacity empty_graph) as Hempty by (by intros n adj).
  revert Hempty. generalize empty_graph.
  induction edges_df as [|r rows IH]; intros G HG; simpl; [done|].
  by apply IH, no_capacity_add_edge.
Qed.

Lemma has_edge_foldl_add_edge G edges_df u v :
  has_edge (foldl (λ G r, add_edge G r.1.1 r.1.2 None) G edges_df) u v
  ↔ has_edge G u v ∨ ∃ c, (u, v, c) ∈ edges_df ∨ (v, u, c) ∈ edges_df.
Proof.
  revert G. induction edges_df as [|[[a b] c] rows IH]; intros G; simpl.
  - split; [by left|]. intros [?|(c & [?%elem_of_nil|?%elem_of_nil])]; done.
  - rewrite IH, has_edge_add_edge. split.
    + intros [[?|[[-> ->]|[-> ->]]]|(c' & [?|?])]; [by left|..].
      * right. exists c. left. by left.
      * right. exists c. right. by left.
      * right. exists c'. left. by right.
      * right. exists c'. right. by right.
    + intros [?|(c' & [[?|?]%elem_of_cons|[?|?]%elem_of_cons])];
        simplify_eq; eauto 6.
Qed.

Lemma nodes_foldl_add_edge G edges_df n :
  n ∈ nodes (foldl (λ G r, add_edge G r.1.1 r.1.2 None) G edges_df)
  ↔ n ∈ nodes G ∨ ∃ r, r ∈ edges_df ∧ (r.1.1 = n ∨ r.1.2 = n).
Proof.
  revert G. induction edges_df as [|r rows IH]; intros G; simpl.
  - split; [by left|]. by intros [?|(r & ?%elem_of_nil & _)].
  - rewrite IH, elem_of_nodes_add_edge. split.
    + intros [[?|[->| ->]]|(r' & ? & ?)]; [by left|..].
      * right. exists r. split; [by left|by left].
      * right. exists r. split; [by left|by right].
      * right. exists r'. split; [by right|done].
    + intros [?|(r' & [->|?]%elem_of_cons & [?|?])]; eauto 6.
Qed.

(** Two nodes are adjacent in the graph of a table exactly when a row
    names them, in either order. *)
Lemma has_edge_edges_df_to_nx edges_df u v :
  has_edge (utils.edges_df_to_nx edges_df) u v
  ↔ ∃ c, (u, v, c) ∈ edges_df ∨ (v, u, c) ∈ edges_df.
Proof.
  unfold utils.edges_df_to_nx. rewrite has_edge_foldl_add_edge.
  split; [|by right]. intros [(? & ? & ?)%has_edge_alt|?]; done.
Qed.

End edge_table.

(** X7. The graph that [edges_df_to_nx] builds from an edge table is a
    well-formed undirected graph; two nodes are adjacent exactly when
    some row names them, in either order; its nodes are exactly the
    endpoints of the rows; and no edge carries data, so the capacity
    column of the table is not in the graph. *)
Theorem edges_df_to_nx_graph (edges_df : list (Z * Z * option Qc)) :
  wf (utils.edges_df_to_nx edges_df)
  ∧ (∀ u v, has_edge (utils.edges_df_to_nx edges_df) u v
            ↔ ∃ c, (u, v, c) ∈ edges_df ∨ (v, u, c) ∈ edges_df)
  ∧ (∀ n, n ∈ nodes (utils.edges_df_to_nx edges_df)
          ↔ ∃ r, r ∈ edges_df ∧ (r.1.1 = n ∨ r.1.2 = n))
  ∧ (∀ u v d, edge_data (utils.edges_df_to_nx edges_df) u v = Some d →
              d = None).
Proof.
  split_and!.
  - apply wf_edges_df_to_nx.
  - apply has_edge_edges_df_to_nx.
  - intros n. unfold utils.edges_df_to_nx. rewrite nodes_foldl_add_edge.
    split; [|by right]. by intros [?%elem_of_nil|?].
  - intros u v d. apply no_capacity_edge_data, no_capacity_edges_df_to_nx.
Qed.

(** ** The uniform split *)
Section fhs_uniform.
Implicit Types (g : graph) (node_to_hyperedges : gmap Z (list nat)).

Lemma split_evenly_spec (total_of : Z → Qc) node_to_hyperedges n i :
  fhs.split_evenly total_of node_to_hyperedges !! (n, i)
  = idxs ← node_to_hyperedges !! n;
    if decide (i ∈ idxs) then Some (total_of n / Qc_of_nat (length idxs))%Qc
    else None.
Proof.
  unfold fhs.split_evenly.
  destruct (lookup_foldl_shares
              (λ v l, (total_of v / Qc_of_nat (length l))%Qc)
              (map_to_list node_to_hyperedges) ∅ n i) as [H1 H2].
  { apply NoDup_fst_map_to_list. }
  cbv zeta in H1, H2.
  destruct (node_to_hyperedges !! n) as [idxs|] eqn:Hn; simpl.
  - case_decide as Hi.
    + apply (H1 idxs); [by apply elem_of_map_to_list|done].
    + rewrite H2; [apply lookup_empty|].
      intros idxs' Hin%elem_of_map_to_list. by simplify_eq.
  - rewrite H2; [apply lookup_empty|].
    intros idxs' Hin%elem_of_map_to_list. by simplify_eq.
Qed.

Lemma capacity_distribution_no_capacity g node_to_hyperedges :
  wf g → no_capacity g →
  fhs.capacity_distribution g node_to_hyperedges
  = Ok (fhs.split_evenly (λ _, 1%Qc) node_to_hyperedges).
Proof.
  intros Hwf Hnone. unfold fhs.capacity_distribution. cbv zeta.
  rewrite bool_decide_eq_false_2; [done|].
  intros (e & (adj & Hadj & Hin)%elem_of_edges_from & [c Hc])%Exists_exists.
  apply dict_get_elem_NoDup in Hadj; [|by apply wf_NoDup].
  specialize (Hnone _ _ Hadj). rewrite Forall_forall in Hnone.
  specialize (Hnone _ Hin). simpl in Hnone. congruence.
Qed.

End fhs_uniform.

(** X8. On the graph of an edge table (rows without self-loops), even
    with [use_edge_capacity] set and whatever capacities the table
    holds, [create_fhs] gives every node the share [1 / k] in each of
    the [k] hyperedges of its index list and no other entry, so that
    the shares of a node that is in some hyperedge sum to 1. *)
Theorem create_fhs_edge_table_uniform (fuel : nat)
    (edges_df : list (Z * Z * option Qc)) (m_max : Z) :
  (∀ r, r ∈ edges_df → r.1.1 ≠ r.1.2) → 2 ≤ m_max →
  (number_of_edges (utils.edges_df_to_nx edges_df) < fuel)%nat →
  ∃ h' hyperedges node_to_hyperedges caps,
    fhs.create_fhs fuel [utils.edges_df_to_nx edges_df] 0 m_max true
    = Ok (h', (hyperedges, node_to_hyperedges, caps))
    ∧ ∀ v idxs, node_to_hyperedges !! v = Some idxs →
        (∀ i, caps !! (v, i)
              = if decide (i ∈ idxs)
                then Some (1 / Qc_of_nat (length idxs))%Qc else None)
        ∧ (idxs ≠ [] →
           sum_Qc ((λ i, default 0%Qc (caps !! (v, i))) <$> idxs) = 1%Qc).
Proof.
  intros Hrows Hm Hfuel.
  set (g := utils.edges_df_to_nx edges_df) in *.
  assert (wf g) as Hwf by apply wf_edges_df_to_nx.
  assert (simple g) as Hsimple.
  { apply (simple_alt g (wf_NoDup _ Hwf)). intros u Hu.
    apply has_edge_edges_df_to_nx in Hu as (c & [Hin|Hin]);
      by apply (Hrows _ Hin). }
  destruct (create_fhs_structure fuel [g] 0 g m_max true)
    as (h' & hs & n2h & caps & Hrun & _ & _ & _ & Hcaps); [done..|].
  exists h', hs, n2h, caps. split; [done|].
  rewrite capacity_distribution_no_capacity in Hcaps;
    [|done|apply no_capacity_edges_df_to_nx].
  injection Hcaps as <-. intros v idxs Hv.
  assert (∀ i, fhs.split_evenly (λ _, 1%Qc) n2h !! (v, i)
               = if decide (i ∈ idxs)
                 then Some (1 / Qc_of_nat (length idxs))%Qc else None) as Hlk.
  { intros i. by rewrite split_evenly_spec, Hv. }
  split; [done|]. intros Hne.
  etrans; [|exact (sum_Qc_shares 1%Qc idxs Hne)]. f_equal.
  apply list_fmap_ext. intros j i Hi%list_elem_of_lookup_2.
  by rewrite Hlk, decide_True.
Qed.

Lemma create_fhs_edge_table_uniform_witness :
  ∃ h' hyperedges node_to_hyperedges caps,
    fhs.create_fhs 4
      [utils.edges_df_to_nx
         [(1, 2, Some (Qc_of_nat 7)); (2, 3, Some (Qc_of_nat 5)); (3, 4, None)]]
      0 2 true
    = Ok (h', (hyperedges, node_to_hyperedges, caps))
    ∧ ∀ v idxs, node_to_hyperedges !! v = Some idxs →
        (∀ i, caps !! (v, i)
              = if decide (i ∈ idxs)
                then Some (1 / Qc_of_nat (length idxs))%Qc else None)
        ∧ (idxs ≠ [] →
           sum_Qc ((λ i, default 0%Qc (caps !! (v, i))) <$> idxs) = 1%Qc).
Proof.
  apply (create_fhs_edge_table_uniform 4
           [(1, 2, Some (Qc_of_nat 7)); (2, 3, Some (Qc_of_nat 5)); (3, 4, None)]
           2).
  - intros r Hr. repeat (apply elem_of_cons in Hr as [->|Hr]; [done|]).
    by apply elem_of_nil in Hr.
  - lia.
  - vm_compute. lia.
Defined.

(** ** The cover and the hyperedges of NCH *)
Section nch_cover.
Implicit Types (G H : graph) (cover : gset Z).

Lemma elem_of_neighbour_set G c v : v ∈ neighbour_set G c ↔ has_edge G c v.
Proof.
  unfold neighbour_set. rewrite elem_of_list_to_set, has_edge_alt.
  destruct (dict_get G c) as [adj|]; simpl.
  - split; [by eauto|]. by intros (? & [= <-] & ?).
  - split; [by intros ?%elem_of_nil|]. by intros (? & ? & ?).
Qed.

Lemma greedy_while_spec fuel G H cover max_nodes :
  wf H → (length H < fuel)%nat →
  (∀ u v, has_edge H u v → has_edge G u v) →
  (∀ u v, has_edge G u v → u ∈ cover ∨ v ∈ cover ∨ has_edge H u v) →
  (∀ c, c ∈ cover → c ∉ nodes H) →
  (∀ c, c ∈ cover → ∃ b, has_edge G c b) →
  match max_nodes with
  | Some m => cover = ∅ ∨ (size cover < m)%nat
  | None => True
  end →
  ∃ cover', nch.greedy_while fuel H cover max_nodes = Ok cover'
    ∧ (∀ c, c ∈ cover' → ∃ b, has_edge G c b)
    ∧ match max_nodes with
      | Some m => (size cover' ≤ Nat.max 1 m)%nat
                  ∧ ((size cover' < m)%nat → vertex_cover G cover')
      | None => vertex_cover G cover'
      end.
Proof.
  revert H cover.
  induction fuel as [|fuel IH];
    intros H cover Hwf Hlen Hsub Hinv Hout Hdeg Hcap; [lia|].
  simpl. case_bool_decide as Hedges; last first.
  { exists cover. split_and!; [done..|].
    assert (vertex_cover G cover) as Hvc.
    { intros u v Huv. destruct (Hinv u v Huv) as [?|[?|Hh]]; [auto..|].
      exfalso. apply (no_edges H u v); [done|lia|done]. }
    destruct max_nodes as [m|]; [|done]. split; [|done].
    destruct Hcap as [->|?]; [rewrite size_empty|]; lia. }
  destruct (py_max_degree_spec (λ x y : Z * nat, bool_decide (y.2 < x.2)%nat) H)
    as (nd & nb & -> & Hnb); [|done..|].
  { intros x y. case_bool_decide; lia. }
  rewrite bind_Ok. pose proof (has_edge_node _ _ _ Hnb) as Hnd.
  unfold remove_node. rewrite (proj2 (has_node_spec H nd.1)) by done.
  rewrite bind_Ok.
  assert (nd.1 ∉ cover) as Hnew by (intros ?%Hout; done).
  assert (size (cover ∪ {[nd.1]}) = S (size cover)) as Hsize.
  { rewrite size_union by (by apply disjoint_singleton_r).
    rewrite size_singleton. lia. }
  assert (∀ c, c ∈ cover ∪ {[nd.1]} → ∃ b, has_edge G c b) as Hdeg'.
  { intros c [?| ->%elem_of_singleton]%elem_of_union; [by auto|].
    exists nb. by apply Hsub. }
  destruct max_nodes as [m|].
  - case_bool_decide as Hfull.
    + exists (cover ∪ {[nd.1]}). split_and!; [done..| |lia].
      destruct Hcap as [->|?]; [rewrite size_empty in Hsize|]; lia.
    + apply IH; [by apply wf_drop_node| |..].
      * pose proof (length_drop_node H nd.1 Hnd). lia.
      * intros u v [? _]%has_edge_drop_node. by apply Hsub.
      * intros u v Huv. rewrite has_edge_drop_node.
        rewrite !elem_of_union, !elem_of_singleton.
        destruct (Hinv u v Huv) as [?|[?|?]]; [by auto..|].
        destruct (decide (u = nd.1)); [by auto|].
        destruct (decide (v = nd.1)); by auto.
      * intros c Hc. rewrite nodes_drop_node, list_elem_of_filter.
        apply elem_of_union in Hc as [?%Hout| ->%elem_of_singleton]; tauto.
      * done.
      * right. lia.
  - apply IH; [by apply wf_drop_node| |..].
    + pose proof (length_drop_node H nd.1 Hnd). lia.
    + intros u v [? _]%has_edge_drop_node. by apply Hsub.
    + intros u v Huv. rewrite has_edge_drop_node.
      rewrite !elem_of_union, !elem_of_singleton.
      destruct (Hinv u v Huv) as [?|[?|?]]; [by auto..|].
      destruct (decide (u = nd.1)); [by auto|].
      destruct (decide (v = nd.1)); by auto.
    + intros c Hc. rewrite nodes_drop_node, list_elem_of_filter.
      apply elem_of_union in Hc as [?%Hout| ->%elem_of_singleton]; tauto.
    + done.
    + done.
Qed.

Lemma greedy_vertex_cover_spec fuel G max_nodes :
  wf G → (number_of_nodes G < fuel)%nat →
  ∃ cover, nch.greedy_vertex_cover fuel G max_nodes = Ok cover
    ∧ (∀ c, c ∈ cover → ∃ b, has_edge G c b)
    ∧ match max_nodes with
      | Some m => (size cover ≤ Nat.max 1 m)%nat
                  ∧ ((size cover < m)%nat → vertex_cover G cover)
      | None => vertex_cover G cover
      end.
Proof.
  intros Hwf Hfuel. unfold nch.greedy_vertex_cover.
  apply greedy_while_spec.
  - apply wf_copy.
  - rewrite length_copy by done. exact Hfuel.
  - intros u v. by apply has_edge_copy.
  - intros u v Huv. right. right. by apply has_edge_copy.
  - by intros c ?%not_elem_of_empty.
  - by intros c ?%not_elem_of_empty.
  - destruct max_nodes; [by left|done].
Qed.

Lemma member_index_snoc hyperedges (hed : gset Z) (d : gmap Z (list nat)) k :
  d !! k = member_index hyperedges k →
  foldl (λ d v, defaultdict_append d v (length hyperedges)) d (set_iter hed)
    !! k
  = member_index (hyperedges ++ [hed]) k.
Proof.
  intros Hd. rewrite lookup_foldl_defaultdict_append by apply NoDup_set_iter.
  assert (default [] (d !! k) = positions_of hyperedges k) as ->.
  { rewrite Hd. unfold member_index. by case_decide as Hp; [rewrite Hp|]. }
  unfold member_index. rewrite positions_of_snoc.
  destruct (decide (k ∈ set_iter hed)) as [Hk|Hk];
    rewrite elem_of_set_iter in Hk.
  - rewrite (decide_True (P := k ∈ hed)) by done.
    rewrite decide_False; [done|]. by intros [_ ?]%app_eq_nil.
  - rewrite (decide_False (P := k ∈ hed)) by done. rewrite app_nil_r.
    by rewrite Hd.
Qed.

Lemma create_nch_loop_spec G (cs : list Z) hyperedges
    (node_to_hyperedges : gmap Z (list nat)) :
  (∀ c, c ∈ cs → ∃ b, has_edge G c b) →
  (∀ k, node_to_hyperedges !! k = member_index hyperedges k) →
  ∃ node_to_hyperedges',
    for_each (zip (seq (length hyperedges) (length cs)) cs)
      (λ '(hyperedges, node_to_hyperedges) '(idx, c),
         nbs ← neighbors G c;
         let neighs : gset Z := list_to_set nbs in
         if bool_decide (size neighs = 0%nat)
         then Ok (hyperedges, node_to_hyperedges)
         else Ok (hyperedges ++ [neighs],
                  foldl (λ d v, defaultdict_append d v idx)
                    node_to_hyperedges (set_iter neighs)))
      (hyperedges, node_to_hyperedges)
    = Ok (hyperedges ++ (neighbour_set G <$> cs), node_to_hyperedges')
    ∧ ∀ k, node_to_hyperedges' !! k
           = member_index (hyperedges ++ (neighbour_set G <$> cs)) k.
Proof.
  revert hyperedges node_to_hyperedges.
  induction cs as [|c cs IH]; intros hs n2h Hcs Hidx.
  { exists n2h. simpl. by rewrite app_nil_r. }
  destruct (Hcs c) as (b & (adj & Hadj & Hb)%has_edge_alt); [by left|].
  simpl length. simpl seq. simpl zip. rewrite for_each_cons. cbn beta iota.
  rewrite (neighbors_Some _ _ _ Hadj), bind_Ok. cbv zeta.
  assert (list_to_set adj.*1 = neighbour_set G c) as Hset.
  { unfold neighbour_set. by rewrite Hadj. }
  rewrite Hset.
  rewrite bool_decide_eq_false_2; last first.
  { apply size_non_empty_iff. intros Hempty.
    assert (b ∈ neighbour_set G c) as Hin.
    { rewrite <-Hset. by apply elem_of_list_to_set. }
    rewrite Hempty in Hin. by apply not_elem_of_empty in Hin. }
  rewrite bind_Ok.
  destruct (IH (hs ++ [neighbour_set G c])
              (foldl (λ d v, defaultdict_append d v (length hs)) n2h
                 (set_iter (neighbour_set G c)))) as (n2h' & Hrun & Hidx').
  - intros c' Hc'. apply Hcs. by right.
  - intros k. by apply member_index_snoc.
  - exists n2h'. rewrite length_app in Hrun. simpl in Hrun.
    rewrite Nat.add_1_r in Hrun. rewrite Hrun.
    csimpl. rewrite <-!app_assoc in *. done.
Qed.

Lemma create_nch_spec (fuel : nat) G (max_cover_size : option nat)
    (use_edge_capacity : bool) :
  wf G → (number_of_nodes G < fuel)%nat →
  ∃ cover node_to_hyperedges,
    nch.greedy_vertex_cover fuel G max_cover_size = Ok cover
    ∧ nch.create_nch fuel G max_cover_size use_edge_capacity
      = Ok (neighbour_set G <$> merge_sort Z.le (elements cover),
            node_to_hyperedges, ∅)
    ∧ ∀ k, node_to_hyperedges !! k
           = member_index
               (neighbour_set G <$> merge_sort Z.le (elements cover)) k.
Proof.
  intros Hwf Hfuel. unfold nch.create_nch.
  destruct (greedy_vertex_cover_spec fuel G max_cover_size Hwf Hfuel)
    as (cover & Hcover & Hdeg & _).
  rewrite Hcover, bind_Ok. unfold enumerate.
  destruct (create_nch_loop_spec G (merge_sort Z.le (elements cover)) [] ∅)
    as (n2h & Hloop & Hidx).
  - intros c Hc. apply Hdeg. rewrite merge_sort_Permutation in Hc.
    by apply elem_of_elements.
  - intros k. by rewrite lookup_empty.
  - exists cover, n2h. split; [done|]. simpl in Hloop, Hidx.
    cbv zeta in Hloop. rewrite Hloop, bind_Ok. done.
Qed.

End nch_cover.

(** X9. With a size cap, [greedy_vertex_cover] returns at most
    [max(1, max_nodes)] nodes, each of which has an edge in the input
    graph; when it returns fewer nodes than the cap, what it returns is
    a vertex cover of the input graph. *)
Theorem greedy_vertex_cover_capped (fuel : nat) (G : graph) (max_nodes : nat) :
  wf G → (number_of_nodes G < fuel)%nat →
  ∃ cover, nch.greedy_vertex_cover fuel G (Some max_nodes) = Ok cover
    ∧ (size cover ≤ Nat.max 1 max_nodes)%nat
    ∧ ((size cover < max_nodes)%nat → vertex_cover G cover)
    ∧ ∀ c, c ∈ cover → ∃ b, has_edge G c b.
Proof.
  intros Hwf Hfuel.
  destruct (greedy_vertex_cover_spec fuel G (Some max_nodes) Hwf Hfuel)
    as (cover & Hrun & Hdeg & Hsize & Hvc).
  by exists cover.
Qed.

Lemma greedy_vertex_cover_capped_witness :
  ∃ cover, nch.greedy_vertex_cover 11 demo_graph (Some 2%nat) = Ok cover
    ∧ (size cover ≤ Nat.max 1 2)%nat
    ∧ ((size cover < 2)%nat → vertex_cover demo_graph cover)
    ∧ ∀ c, c ∈ cover → ∃ b, has_edge demo_graph c b.
Proof.
  apply (greedy_vertex_cover_capped 11 demo_graph 2).
  - apply (bool_decide_unpack _). vm_compute. exact I.
  - vm_compute. lia.
Defined.

(** X10. [create_nch] returns one hyperedge for each node of the greedy
    cover, in increasing order of the cover nodes; the hyperedge at
    position [i] is the set of the neighbours of the [i]-th cover node
    in the input graph (the cover node itself is not a member), and it
    is not empty. The capacity table is empty, also when
    [use_edge_capacity] is set. *)
Theorem create_nch_hyperedges (fuel : nat) (G : graph)
    (max_cover_size : option nat) (use_edge_capacity : bool) :
  wf G → (number_of_nodes G < fuel)%nat →
  ∃ cover hyperedges node_to_hyperedges,
    nch.greedy_vertex_cover fuel G max_cover_size = Ok cover
    ∧ nch.create_nch fuel G max_cover_size use_edge_capacity
      = Ok (hyperedges, node_to_hyperedges, ∅)
    ∧ length hyperedges = size cover
    ∧ ∀ i c, merge_sort Z.le (elements cover) !! i = Some c →
        ∃ hed, hyperedges !! i = Some hed ∧ hed ≠ ∅
               ∧ ∀ v, v ∈ hed ↔ has_edge G c v.
Proof.
  intros Hwf Hfuel.
  destruct (create_nch_spec fuel G max_cover_size use_edge_capacity Hwf Hfuel)
    as (cover & n2h & Hcover & Hrun & _).
  destruct (greedy_vertex_cover_spec fuel G max_cover_size Hwf Hfuel)
    as (cover' & Hcover' & Hdeg & _).
  rewrite Hcover in Hcover'. injection Hcover' as <-.
  exists cover, (neighbour_set G <$> merge_sort Z.le (elements cover)), n2h.
  split_and!; [done..| |].
  - by rewrite length_fmap, merge_sort_Permutation.
  - intros i c Hi. exists (neighbour_set G c). split_and!.
    + by rewrite list_lookup_fmap, Hi.
    + destruct (Hdeg c) as [b Hb].
      { apply elem_of_elements. rewrite <-(merge_sort_Permutation Z.le).
        by eapply list_elem_of_lookup_2. }
      intros Hempty. apply elem_of_neighbour_set in Hb.
      rewrite Hempty in Hb. by apply not_elem_of_empty in Hb.
    + intros v. apply elem_of_neighbour_set.
Qed.

Lemma create_nch_hyperedges_witness :
  ∃ cover hyperedges node_to_hyperedges,
    nch.greedy_vertex_cover 11 demo_graph None = Ok cover
    ∧ nch.create_nch 11 demo_graph None false
      = Ok (hyperedges, node_to_hyperedges, ∅)
    ∧ length hyperedges = size cover
    ∧ ∀ i c, merge_sort Z.le (elements cover) !! i = Some c →
        ∃ hed, hyperedges !! i = Some hed ∧ hed ≠ ∅
               ∧ ∀ v, v ∈ hed ↔ has_edge demo_graph c v.
Proof.
  apply (create_nch_hyperedges 11 demo_graph None false).
  - apply (bool_decide_unpack _). vm_compute. exact I.
  - vm_compute. lia.
Defined.

(** X11. The index that [create_nch] returns maps a node to the
    increasing list of the positions of the hyperedges that contain it,
    and has no key for a node that is in no hyperedge. *)
Theorem create_nch_membership_index (fuel : nat) (G : graph)
    (max_cover_size : option nat) (use_edge_capacity : bool) :
  wf G → (number_of_nodes G < fuel)%nat →
  ∃ hyperedges node_to_hyperedges caps,
    nch.create_nch fuel G max_cover_size use_edge_capacity
    = Ok (hyperedges, node_to_hyperedges, caps)
    ∧ ∀ v, node_to_hyperedges !! v
           = if decide (positions_of hyperedges v = []) then None
             else Some (positions_of hyperedges v).
Proof.
  intros Hwf Hfuel.
  destruct (create_nch_spec fuel G max_cover_size use_edge_capacity Hwf Hfuel)
    as (cover & n2h & _ & Hrun & Hidx).
  by exists (neighbour_set G <$> merge_sort Z.le (elements cover)), n2h, ∅.
Qed.

Lemma create_nch_membership_index_witness :
  ∃ hyperedges node_to_hyperedges caps,
    nch.create_nch 5 kite (Some 1%nat) true
    = Ok (hyperedges, node_to_hyperedges, caps)
    ∧ ∀ v, node_to_hyperedges !! v
           = if decide (positions_of hyperedges v = []) then None
             else Some (positions_of hyperedges v).
Proof.
  apply (create_nch_membership_index 5 kite (Some 1%nat) true).
  - apply (bool_decide_unpack _). vm_compute. exact I.
  - vm_compute. lia.
Defined.

(** ** The two-hop neighbourhood *)
Section two_hop.
Implicit Types (G : graph) (visited : gset Z) (q : list (Z * nat)).

Lemma neigh_Ok G n :
  n ∈ nodes G → supernodes.neigh G n = Ok (neighbour_set G n).
Proof.
  intros [adj Hadj]%dict_get_is_Some.
  unfold supernodes.neigh, neighbour_set. by rewrite Hadj.
Qed.

(** The [for nb in neigh[cur]] loop of [two_hop_nodes]. *)
Lemma two_hop_scan visited q (d : nat) (nbs : list Z) :
  NoDup nbs →
  foldl (λ (st : gset Z * list (Z * nat)) nb,
           if decide (nb ∈ st.1) then st
           else (st.1 ∪ {[nb]}, st.2 ++ [(nb, S d)]))
    (visited, q) nbs
  = (visited ∪ list_to_set nbs,
     q ++ ((λ nb, (nb, S d)) <$> filter (λ nb, nb ∉ visited) nbs)).
Proof.
  revert visited q. induction nbs as [|nb nbs IH]; intros visited q Hnd.
  - simpl. by rewrite union_empty_r_L, app_nil_r.
  - apply NoDup_cons in Hnd as [Hnb Hnd]. cbn [foldl fst snd].
    rewrite filter_cons. destruct (decide (nb ∈ visited)) as [Hin|Hout].
    + rewrite IH by done. rewrite decide_False by (by intros ?).
      f_equal. rewrite list_to_set_cons. apply set_eq. intros x.
      rewrite !elem_of_union, elem_of_singleton.
      split; [tauto|]. intros [?|[->|?]]; tauto.
    + rewrite IH by done. rewrite decide_True by done. f_equal.
      * rewrite list_to_set_cons. by rewrite (assoc_L (∪)).
      * rewrite <-app_assoc. f_equal. csimpl. f_equal. f_equal.
        apply filter_ext_elem. intros x Hx.
        rewrite elem_of_union, elem_of_singleton. split; [tauto|].
        intros ? [?| ->]; done.
Qed.

Lemma two_hop_measure_scan G visited q (nbs : list Z) (d : nat) :
  NoDup nbs → (∀ x, x ∈ nbs → x ∈ nodes G) →
  (two_hop_measure G (visited ∪ list_to_set nbs)
     (q ++ ((λ nb, (nb, S d)) <$> filter (λ nb, nb ∉ visited) nbs))
   ≤ two_hop_measure G visited q)%nat.
Proof.
  unfold two_hop_measure. revert visited q.
  induction nbs as [|nb nbs IH]; intros visited q Hnd Hnodes.
  - simpl. rewrite union_empty_r_L, app_nil_r. done.
  - apply NoDup_cons in Hnd as [Hnb Hnd].
    assert (∀ x, x ∈ nbs → x ∈ nodes G) as Hnodes'
      by (intros; apply Hnodes; by right).
    rewrite filter_cons. destruct (decide (nb ∉ visited)) as [Hout|Hin].
    + csimpl. specialize (IH (visited ∪ {[nb]}) (q ++ [(nb, S d)]) Hnd Hnodes').
      rewrite (assoc_L (∪)).
      replace (filter (λ x, x ∉ visited) nbs)
        with (filter (λ x, x ∉ visited ∪ {[nb]}) nbs); last first.
      { apply filter_ext_elem. intros x Hx.
        rewrite elem_of_union, elem_of_singleton. split; [tauto|].
        intros ? [?| ->]; done. }
      rewrite <-app_assoc in IH. simpl in IH.
      pose proof (length_filter_unvisited (nodes G) visited nb
                    (Hnodes nb ltac:(by left)) Hout) as Hlt.
      rewrite !length_app in *. simpl in *. lia.
    + apply dec_stable in Hin.
      replace (visited ∪ list_to_set (nb :: nbs))
        with (visited ∪ list_to_set nbs); [by apply IH|].
      rewrite list_to_set_cons. apply set_eq. intros x.
      rewrite !elem_of_union, elem_of_singleton.
      split; [tauto|]. intros [?|[->|?]]; tauto.
Qed.

(** The search returns; it visits every neighbour of a node it takes
    off the queue with depth below 2, and nothing but such neighbours. *)
Lemma two_hop_while_spec fuel G n visited q :
  wf G → (two_hop_measure G visited q < fuel)%nat →
  (∀ x d, (x, d) ∈ q → x ∈ nodes G) →
  (∀ x, x ∈ visited → within_two_hops G n x) →
  (∀ x d, (x, d) ∈ q → (d = 0%nat ∧ x = n) ∨ (d = 1%nat ∧ has_edge G n x)
                        ∨ (2 ≤ d)%nat) →
  ∃ visited', supernodes.two_hop_while fuel G visited q = Ok visited'
    ∧ visited ⊆ visited'
    ∧ (∀ x, x ∈ visited' → within_two_hops G n x)
    ∧ (∀ x d y, (x, d) ∈ q → (d < 2)%nat → has_edge G x y → y ∈ visited').
Proof.
  intros Hwf. revert visited q.
  induction fuel as [|fuel IH]; intros visited q Hfuel Hq Hvis Hdepth; [lia|].
  simpl. destruct q as [|[cur d] q].
  { exists visited. split_and!; [done..|]. by intros x d y ?%elem_of_nil. }
  assert (∀ x d', (x, d') ∈ q → x ∈ nodes G) as Hq'
    by (intros x d' ?; apply (Hq x d'); by right).
  assert (∀ x d', (x, d') ∈ q →
            (d' = 0%nat ∧ x = n) ∨ (d' = 1%nat ∧ has_edge G n x)
            ∨ (2 ≤ d')%nat) as Hdepth'
    by (intros x d' ?; apply Hdepth; by right).
  case_bool_decide as Hd.
  - destruct (IH visited q) as (visited' & -> & Hsub & Hvis' & Hnb);
      [unfold two_hop_measure in *; simpl in *; lia|done..|].
    exists visited'. split_and!; [done..|].
    intros x d' y [[= -> ->]|Hin]%elem_of_cons Hlt Hxy; [lia|].
    by apply (Hnb x d' y).
  - assert (cur ∈ nodes G) as Hcur by (apply (Hq cur d); by left).
    rewrite (neigh_Ok G cur Hcur), bind_Ok. cbv zeta.
    rewrite two_hop_scan by apply NoDup_set_iter.
    cbn [fst snd].
    assert (∀ x, x ∈ set_iter (neighbour_set G cur) → has_edge G cur x) as Hnbs.
    { intros x. by rewrite elem_of_set_iter, elem_of_neighbour_set. }
    assert (∀ x, has_edge G cur x → within_two_hops G n x) as Hnear.
    { intros x Hx. destruct (Hdepth cur d) as [[-> ->]|[[-> Hn]|?]];
        [by left| | |lia].
      - right. by left.
      - right. right. by exists cur. }
    destruct (IH (visited ∪ list_to_set (set_iter (neighbour_set G cur)))
                (q ++ ((λ nb, (nb, S d))
                         <$> filter (λ nb, nb ∉ visited)
                               (set_iter (neighbour_set G cur)))))
      as (visited' & -> & Hsub & Hvis' & Hnb).
    + pose proof (two_hop_measure_scan G visited q
                    (set_iter (neighbour_set G cur)) d
                    (NoDup_set_iter _)) as Hle.
      unfold two_hop_measure in *. simpl in *.
      assert (∀ x, x ∈ set_iter (neighbour_set G cur) → x ∈ nodes G) as Hn.
      { intros x Hx%Hnbs. eapply has_edge_node, wf_sym; done. }
      specialize (Hle Hn). lia.
    + intros x d' [Hin|Hin]%elem_of_app; [by eapply Hq'|].
      apply list_elem_of_fmap in Hin as (nb & [= -> ->] & [_ Hnb]%list_elem_of_filter).
      eapply has_edge_node, wf_sym; [done|]. by apply Hnbs.
    + intros x [?|Hx%elem_of_list_to_set]%elem_of_union; [by auto|].
      by apply Hnear, Hnbs.
    + intros x d' [Hin|Hin]%elem_of_app; [by apply Hdepth'|].
      apply list_elem_of_fmap in Hin as (nb & [= -> ->] & [_ Hnb]%list_elem_of_filter).
      destruct (Hdepth cur d) as [[-> ->]|[[-> Hn]|?]]; [by left| | |lia].
      * right. left. split; [done|]. by apply Hnbs.
      * right. right. lia.
    + exists visited'. split_and!; [done| |done|].
      * intros x Hx. apply Hsub, elem_of_union. by left.
      * intros x d' y [[= -> ->]|Hin]%elem_of_cons Hlt Hxy.
        -- apply Hsub, elem_of_union. right.
           by rewrite elem_of_list_to_set, elem_of_set_iter,
             elem_of_neighbour_set.
        -- apply (Hnb x d' y); [|done..]. apply elem_of_app. by left.
Qed.

Lemma two_hop_nodes_spec fuel G n :
  wf G → n ∈ nodes G → (length G + 1 < fuel)%nat →
  ∃ Vn, supernodes.two_hop_nodes fuel G n = Ok Vn
        ∧ ∀ x, x ∈ Vn ↔ within_two_hops G n x.
Proof.
  intros Hwf Hn Hfuel. destruct fuel as [|fuel]; [lia|].
  unfold supernodes.two_hop_nodes. simpl.
  rewrite (neigh_Ok G n Hn), bind_Ok. cbv zeta.
  rewrite two_hop_scan by apply NoDup_set_iter. cbn [fst snd app].
  set (nbs := set_iter (neighbour_set G n)).
  assert (∀ x, x ∈ nbs ↔ has_edge G n x) as Hnbs.
  { intros x. unfold nbs. by rewrite elem_of_set_iter, elem_of_neighbour_set. }
  assert (∀ x, x ∈ nbs → x ∈ nodes G) as Hnodes.
  { intros x Hx%Hnbs. eapply has_edge_node, wf_sym; done. }
  destruct (two_hop_while_spec fuel G n ({[n]} ∪ list_to_set nbs)
              ((λ nb, (nb, 1%nat)) <$> filter (λ nb, nb ∉ ({[n]} : gset Z)) nbs))
    as (Vn & -> & Hsub & Hnear & Hclosed); [done|..].
  - pose proof (two_hop_measure_scan G {[n]} [] nbs 0 (NoDup_set_iter _) Hnodes)
      as Hle.
    assert (two_hop_measure G {[n]} [] ≤ length G)%nat; [|simpl in Hle; lia].
    unfold two_hop_measure. simpl.
    pose proof (length_filter (λ x, x ∉ ({[n]} : gset Z)) (nodes G)) as Hf.
    unfold nodes in Hf at 2. by rewrite length_fmap in Hf.
  - intros x d (nb & [= -> ->] & [_ Hnb]%list_elem_of_filter)%list_elem_of_fmap.
    by apply Hnodes.
  - intros x [->%elem_of_singleton|Hx%elem_of_list_to_set%Hnbs]%elem_of_union.
    + by left.
    + right. by left.
  - intros x d (nb & [= -> ->] & [_ Hnb%Hnbs]%list_elem_of_filter)%list_elem_of_fmap.
    right. by left.
  - exists Vn. split; [done|]. intros x. split; [by apply Hnear|].
    intros [->|[Hx|(y & Hy & Hyx)]].
    + apply Hsub, elem_of_union. left. by apply elem_of_singleton.
    + apply Hsub, elem_of_union. right. by apply elem_of_list_to_set, Hnbs.
    + destruct (decide (y = n)) as [->|Hne].
      * apply Hsub, elem_of_union. right. by apply elem_of_list_to_set, Hnbs.
      * apply (Hclosed y 1%nat x); [|lia|done].
        apply list_elem_of_fmap. exists y. split; [done|].
        apply list_elem_of_filter. split; [|by apply Hnbs].
        by rewrite elem_of_singleton.
Qed.

End two_hop.

(** X12. For a node of a well-formed graph, [two_hop_nodes] returns
    exactly the nodes at most two edges away from it: the node itself,
    its neighbours and the neighbours of its neighbours. For a node
    that is not in the graph it raises [KeyError]. *)
Theorem two_hop_nodes_within_two_hops (fuel : nat) (G : graph) (n : Z) :
  wf G → (length G + 1 < fuel)%nat →
  (n ∈ nodes G →
   ∃ Vn, supernodes.two_hop_nodes fuel G n = Ok Vn
         ∧ ∀ x, x ∈ Vn ↔ within_two_hops G n x)
  ∧ (n ∉ nodes G → supernodes.two_hop_nodes fuel G n = Raise KeyError).
Proof.
  intros Hwf Hfuel. split; [intros Hn; by apply two_hop_nodes_spec|].
  intros Hn%dict_get_None. destruct fuel as [|fuel]; [lia|].
  unfold supernodes.two_hop_nodes. simpl. unfold supernodes.neigh.
  by rewrite Hn.
Qed.

Lemma two_hop_nodes_within_two_hops_witness :
  ∃ Vn, supernodes.two_hop_nodes 12 demo_graph 1 = Ok Vn
        ∧ ∀ x, x ∈ Vn ↔ within_two_hops demo_graph 1 x.
Proof.
  destruct (two_hop_nodes_within_two_hops 12 demo_graph 1) as [Hin _].
  - apply (bool_decide_unpack _). vm_compute. exact I.
  - vm_compute. lia.
  - apply Hin. apply (bool_decide_unpack _). vm_compute. exact I.
Defined.

(** ** The monotone path search *)
Section monotone.
Implicit Types (G : graph) (Vn_set : gset Z)
  (st : gset (Z * Z) * list (Z * option Z * nat)).

(** The scan returns only to report the destination. *)
Lemma monotone_scan_inl v Vn_set prev depth nbs st b :
  supernodes.monotone_scan v Vn_set prev depth nbs st = inl b → b = true.
Proof.
  revert st. induction nbs as [|nb nbs IH]; intros st; simpl; [done|].
  case_decide; [apply IH|]. case_decide; [by intros [= <-]|].
  destruct (_ && _); apply IH.
Qed.

(** Otherwise it only adds states at the end of the queue. *)
Lemma monotone_scan_inr v Vn_set prev depth nbs st st' :
  supernodes.monotone_scan v Vn_set prev depth nbs st = inr st' →
  ∃ new, st'.2 = st.2 ++ new.
Proof.
  revert st. induction nbs as [|nb nbs IH]; intros st; simpl.
  - intros [= <-]. exists []. by rewrite app_nil_r.
  - case_decide; [apply IH|]. case_decide; [done|].
    destruct (_ && _); [|apply IH].
    intros (new & ->)%IH. simpl. exists ((nb, Some (supernodes.id_map nb), S depth) :: new).
    by rewrite <-app_assoc.
Qed.

(** It reports the destination when it is among the neighbours. *)
Lemma monotone_scan_hits v Vn_set prev depth nbs st :
  v ∈ nbs → v ∈ Vn_set →
  supernodes.monotone_scan v Vn_set prev depth nbs st = inl true.
Proof.
  intros Hin Hv. revert st.
  induction nbs as [|nb nbs IH]; intros st; [by apply elem_of_nil in Hin|].
  simpl. apply elem_of_cons in Hin as [<-|Hin].
  - rewrite decide_False by (by intros ?). by rewrite decide_True.
  - specialize (IH Hin). case_decide; [apply IH|]. case_decide; [done|].
    destruct (_ && _); apply IH.
Qed.

(** From the start state every neighbour inside [Vn_set] is queued at
    depth 1, when the destination is not among the neighbours. *)
Lemma monotone_scan_first v Vn_set nbs st :
  NoDup nbs → v ∉ nbs →
  (∀ x, x ∈ nbs → (x, supernodes.id_map x) ∉ st.1) →
  ∃ seen,
    supernodes.monotone_scan v Vn_set None 0 nbs st
    = inr (seen,
           st.2 ++ ((λ x, (x, Some (supernodes.id_map x), 1%nat))
                      <$> filter (λ x, x ∈ Vn_set) nbs)).
Proof.
  revert st. induction nbs as [|nb nbs IH]; intros [seen q] Hnd Hv Hseen; simpl.
  - exists seen. by rewrite app_nil_r.
  - apply NoDup_cons in Hnd as [Hnb Hnd].
    apply not_elem_of_cons in Hv as [Hne Hv].
    rewrite filter_cons. destruct (decide (nb ∈ Vn_set)) as [Hin|Hout].
    + rewrite decide_False by (by intros ?).
      rewrite decide_False by done.
      rewrite (bool_decide_eq_false_2 ((nb, supernodes.id_map nb) ∈ seen));
        [|apply (Hseen nb); by left].
      simpl.
      destruct (IH (seen ∪ {[(nb, supernodes.id_map nb)]},
                    q ++ [(nb, Some (supernodes.id_map nb), 1%nat)]))
        as (seen' & ->); [done..| |].
      { intros x Hx. simpl. rewrite elem_of_union, elem_of_singleton.
        intros [?|[= -> _]]; [|done]. apply (Hseen x); [by right|done]. }
      exists seen'. simpl. by rewrite <-app_assoc.
    + rewrite decide_True by done.
      destruct (IH (seen, q)) as (seen' & ->); [done..| |].
      { intros x Hx. apply Hseen. by right. }
      by exists seen'.
Qed.

(** A state at depth 1 whose node is adjacent to the destination is
    reached when the budget covers the states queued before it. *)
Lemma monotone_while_reaches G v Vn_set max_depth n prev budget seen q1 q2 :
  wf G → (2 ≤ max_depth)%nat → has_edge G n v → v ∈ Vn_set →
  Forall (λ s, s.1.1 ∈ nodes G ∧ s.2 = 1%nat) q1 →
  (length q1 < budget)%nat →
  supernodes.monotone_while budget G v Vn_set max_depth
    (seen, q1 ++ (n, prev, 1%nat) :: q2) = Ok true.
Proof.
  intros Hwf Hdepth Hnv Hv. revert budget seen q2.
  induction q1 as [|[[cur p] d] q1 IH]; intros budget seen q2 Hq1 Hbudget.
  - destruct budget as [|budget]; [lia|]. simpl.
    rewrite bool_decide_eq_false_2 by lia.
    rewrite (neigh_Ok G n) by (by eapply has_edge_node). rewrite bind_Ok.
    rewrite monotone_scan_hits; [done| |done].
    by rewrite elem_of_set_iter, elem_of_neighbour_set.
  - apply Forall_cons in Hq1 as [[Hcur Hd] Hq1]. simpl in Hcur, Hd. subst d.
    destruct budget as [|budget]; [simpl in Hbudget; lia|]. simpl.
    rewrite bool_decide_eq_false_2 by lia.
    rewrite (neigh_Ok G cur Hcur), bind_Ok.
    destruct (supernodes.monotone_scan v Vn_set p 1
                (set_iter (neighbour_set G cur))
                (seen, q1 ++ (n, prev, 1%nat) :: q2)) as [b|[seen' q']] eqn:Hscan.
    + apply monotone_scan_inl in Hscan. by subst b.
    + apply monotone_scan_inr in Hscan as (new & Hq'). simpl in Hq'. subst q'.
      rewrite <-app_assoc. simpl. apply IH; [done|]. simpl in Hbudget. lia.
Qed.

(** Two neighbours [u], [v] of [n] that are not adjacent are joined by
    the path through [n] itself. *)
Lemma exists_monotone_path_via G u v n Vn_set max_depth max_states :
  wf G → (2 ≤ max_depth)%nat →
  (size (neighbour_set G u) < max_states)%nat →
  has_edge G n u → has_edge G n v → u ≠ v → ¬ has_edge G u v →
  u ∈ Vn_set → v ∈ Vn_set → n ∈ Vn_set →
  supernodes.exists_monotone_path G u v Vn_set max_depth max_states = Ok true.
Proof.
  intros Hwf Hdepth Hdeg Hnu Hnv Hne Huv Hu Hv Hn.
  unfold supernodes.exists_monotone_path.
  rewrite decide_False by done. rewrite decide_False by tauto.
  destruct max_states as [|budget]; [lia|]. simpl.
  rewrite bool_decide_eq_false_2 by lia.
  assert (u ∈ nodes G) as Hunode by (eapply has_edge_node, wf_sym; done).
  rewrite (neigh_Ok G u Hunode), bind_Ok.
  set (nbs := set_iter (neighbour_set G u)).
  assert (∀ x, x ∈ nbs ↔ has_edge G u x) as Hnbs.
  { intros x. unfold nbs. by rewrite elem_of_set_iter, elem_of_neighbour_set. }
  destruct (monotone_scan_first v Vn_set nbs (∅, [])) as (seen & ->).
  { apply NoDup_set_iter. }
  { by rewrite Hnbs. }
  { intros x _. apply not_elem_of_empty. }
  simpl.
  assert (n ∈ filter (λ x, x ∈ Vn_set) nbs) as Hin.
  { apply list_elem_of_filter. split; [done|]. by apply Hnbs, wf_sym. }
  apply list_elem_of_split in Hin as (l1 & l2 & Hsplit).
  rewrite Hsplit, fmap_app, fmap_cons.
  apply monotone_while_reaches; [done..| |].
  - apply Forall_fmap, Forall_forall. intros x Hx. simpl. split; [|done].
    assert (x ∈ filter (λ x, x ∈ Vn_set) nbs) as Hx'.
    { rewrite Hsplit, elem_of_app. by left. }
    apply list_elem_of_filter in Hx' as [_ Hx'%Hnbs].
    eapply has_edge_node, wf_sym; done.
  - rewrite length_fmap.
    assert (length (filter (λ x, x ∈ Vn_set) nbs) ≤ length nbs)%nat as Hle
      by apply length_filter.
    rewrite Hsplit, length_app in Hle. simpl in Hle.
    unfold nbs in Hle. rewrite length_set_iter in Hle. lia.
Qed.

End monotone.

(** ** The selection of the supernodes *)
Section selection.
Implicit Types (G : graph) (Vn_set S : gset Z).

(** A node with two neighbours is always found removable: the two are
    adjacent, or joined by the path through the node itself. *)
Lemma scan_pairs_two G Vn_set max_search_depth max_states n u v rest :
  wf G → (2 ≤ max_search_depth)%nat →
  (size (neighbour_set G u) < max_states)%nat →
  has_edge G n u → has_edge G n v → u ≠ v →
  u ∈ Vn_set → v ∈ Vn_set → n ∈ Vn_set →
  supernodes.scan_pairs G Vn_set max_search_depth max_states (u :: v :: rest)
  = Ok true.
Proof.
  intros Hwf Hdepth Hdeg Hnu Hnv Hne Hu Hv Hn. simpl.
  assert (u ∈ nodes G) as Hunode by (eapply has_edge_node, wf_sym; done).
  rewrite (neigh_Ok G u Hunode), bind_Ok.
  destruct (decide (v ∈ neighbour_set G u)) as [Hadj|Hadj]; [done|].
  rewrite decide_False by tauto.
  rewrite (exists_monotone_path_via G u v n); try done.
  by rewrite elem_of_neighbour_set in Hadj.
Qed.

Lemma scan_pairs_few G Vn_set max_search_depth max_states (l : list Z) :
  (length l ≤ 1)%nat →
  supernodes.scan_pairs G Vn_set max_search_depth max_states l = Ok false.
Proof. destruct l as [|u [|v l]]; simpl; [done..|lia]. Qed.

(** The body of the main selection loop. *)
Lemma select_body G fuel max_search_depth max_states S n :
  wf G → (2 ≤ max_search_depth)%nat →
  (∀ u, (size (neighbour_set G u) < max_states)%nat) →
  (length G + 1 < fuel)%nat → n ∈ nodes G →
  (Vn ← supernodes.two_hop_nodes fuel G n;
   NGn ← supernodes.neigh G n;
   removed ← supernodes.scan_pairs G Vn max_search_depth max_states
                (set_iter NGn);
   Ok (if (removed : bool) then S ∖ {[n]} else S))
  = Ok (if decide (size (neighbour_set G n) ≤ 1)%nat then S else S ∖ {[n]}).
Proof.
  intros Hwf Hdepth Hdeg Hfuel Hn.
  destruct (two_hop_nodes_spec fuel G n Hwf Hn Hfuel) as (Vn & -> & HVn).
  rewrite bind_Ok, (neigh_Ok G n Hn), bind_Ok.
  pose proof (length_set_iter (neighbour_set G n)) as Hlen.
  pose proof (NoDup_set_iter (neighbour_set G n)) as Hnd.
  assert (∀ x, x ∈ set_iter (neighbour_set G n) → has_edge G n x) as Hnbs.
  { intros x. by rewrite elem_of_set_iter, elem_of_neighbour_set. }
  destruct (set_iter (neighbour_set G n)) as [|u [|v rest]] eqn:Hl.
  - simpl. rewrite decide_True; [done|]. simpl in Hlen. lia.
  - simpl. rewrite decide_True; [done|]. simpl in Hlen. lia.
  - rewrite (scan_pairs_two G Vn max_search_depth max_states n u v rest);
      try done.
    + rewrite bind_Ok. rewrite decide_False; [done|]. simpl in Hlen. lia.
    + apply Hnbs. by left.
    + apply Hnbs. right. by left.
    + apply NoDup_cons in Hnd as [Hu _]. intros ->. apply Hu. by left.
    + apply HVn. right. left. apply Hnbs. by left.
    + apply HVn. right. left. apply Hnbs. right. by left.
    + apply HVn. by left.
Qed.

Lemma select_loop G fuel max_search_depth max_states (ns : list Z) S :
  wf G → (2 ≤ max_search_depth)%nat →
  (∀ u, (size (neighbour_set G u) < max_states)%nat) →
  (length G + 1 < fuel)%nat → (∀ n, n ∈ ns → n ∈ nodes G) →
  ∃ S',
    for_each ns
      (λ S n,
         Vn ← supernodes.two_hop_nodes fuel G n;
         NGn ← supernodes.neigh G n;
         removed ← supernodes.scan_pairs G Vn max_search_depth max_states
                      (set_iter NGn);
         Ok (if (removed : bool) then S ∖ {[n]} else S))
      S = Ok S'
    ∧ ∀ x, x ∈ S' ↔ x ∈ S ∧ (x ∈ ns → (size (neighbour_set G x) ≤ 1)%nat).
Proof.
  intros Hwf Hdepth Hdeg Hfuel. revert S.
  induction ns as [|n ns IH]; intros S Hns.
  - exists S. split; [done|]. intros x. split; [|by intros [? _]].
    intros ?. split; [done|]. by intros ?%elem_of_nil.
  - rewrite for_each_cons. cbv beta.
    rewrite (select_body G fuel max_search_depth max_states S n);
      [|done..|apply Hns; by left].
    rewrite bind_Ok.
    destruct (IH (if decide (size (neighbour_set G n) ≤ 1)%nat
                  then S else S ∖ {[n]})) as (S' & -> & HS').
    { intros x Hx. apply Hns. by right. }
    exists S'. split; [done|]. intros x. rewrite HS', elem_of_cons.
    case_decide as Hsize.
    + split; [|by intros [? Hx]; auto].
      intros [? Hx]. split; [done|]. by intros [->|?]; auto.
    + rewrite elem_of_difference, elem_of_singleton. split.
      * intros [[? Hne] Hx]. split; [done|]. by intros [->|?]; auto.
      * intros [? Hx]. split_and!; [done| |by auto].
        intros ->. apply Hsize, Hx. by left.
Qed.

End selection.

Lemma select_supernodes_leaves (fuel : nat) (G : graph)
    (max_search_depth max_states : nat) :
  wf G → (2 ≤ max_search_depth)%nat →
  (∀ u, (size (neighbour_set G u) < max_states)%nat) →
  (length G + 1 < fuel)%nat →
  ∃ S, supernodes.select_supernodes fuel G max_search_depth max_states = Ok S
       ∧ ∀ n, n ∈ S ↔ n ∈ nodes G ∧ (size (neighbour_set G n) ≤ 1)%nat.
Proof.
  intros Hwf Hdepth Hdeg Hfuel. unfold supernodes.select_supernodes.
  destruct (select_loop G fuel max_search_depth max_states (nodes G)
              (list_to_set (nodes G))) as (S & -> & HS); [done..|].
  exists S. split; [done|]. intros n. rewrite HS, elem_of_list_to_set.
  split; [intros [? Hn]|intros [? ?]]; auto.
Qed.

(** ** The hyperedges of the supernodes *)
Section supernode_hyperedges.
Implicit Types (G : graph) (hyperedges : list (gset Z)).

Lemma size_neighbour_set G u adj :
  dict_get G u = Some adj → (size (neighbour_set G u) ≤ length adj)%nat.
Proof.
  intros Hadj. unfold neighbour_set. rewrite Hadj. simpl.
  rewrite <-(length_fmap fst adj). generalize (adj.*1). intros l.
  induction l as [|x l IH]; [by rewrite list_to_set_nil, size_empty|].
  rewrite list_to_set_cons, size_union_alt, size_singleton.
  pose proof (subseteq_size (list_to_set l ∖ {[x]}) (list_to_set l : gset Z)
                ltac:(by apply subseteq_difference_l)).
  simpl. lia.
Qed.

Lemma neighbour_set_None G u : dict_get G u = None → neighbour_set G u = ∅.
Proof. unfold neighbour_set. by intros ->. Qed.

Lemma size_neighbour_set_bound G (max_states : nat) :
  G ≠ [] → Forall (λ ka, (length ka.2 < max_states)%nat) G →
  ∀ u, (size (neighbour_set G u) < max_states)%nat.
Proof.
  intros Hne Hall u. destruct (dict_get G u) as [adj|] eqn:Hadj.
  - pose proof (size_neighbour_set G u adj Hadj) as Hle.
    apply dict_get_Some_elem in Hadj. rewrite Forall_forall in Hall.
    specialize (Hall _ Hadj). simpl in Hall. lia.
  - rewrite (neighbour_set_None G u Hadj), size_empty.
    destruct G as [|ka G]; [done|]. apply Forall_cons in Hall as [Hka _]. lia.
Qed.

Lemma flat_map_nil {A B} (f : A → list B) (l : list A) :
  (∀ x, x ∈ l → f x = []) → flat_map f l = [].
Proof.
  induction l as [|x l IH]; intros Hf; simpl; [done|].
  rewrite Hf by (by left). apply IH. intros y Hy. apply Hf. by right.
Qed.

(** A hyperedge of one member projects to no pairwise record. *)
Lemma clique_rows_singletons (cap_of : Z → nat → Qc) (fee_of : Z → Qc)
    (fr : Qc) hyperedges :
  Forall (λ hed, size hed = 1%nat) hyperedges →
  clique_rows cap_of fee_of fr hyperedges = [].
Proof.
  intros Hall. unfold clique_rows. apply flat_map_nil. intros [i hed] Hin.
  apply flat_map_nil. intros u Hu%elem_of_set_iter. simpl in *.
  assert (hed ∈ hyperedges) as Hhed.
  { apply list_elem_of_lookup in Hin as [j Hj].
    rewrite lookup_enumerate in Hj.
    apply fmap_Some in Hj as (hed' & Hlk & [= -> ->]).
    by eapply list_elem_of_lookup_2. }
  rewrite Forall_forall in Hall. specialize (Hall hed Hhed).
  destruct (outgoing_records_spec (cap_of u i) (fee_of u) fr hed u Hu)
    as (Hlen & _).
  rewrite Hall in Hlen. by apply nil_length_inv.
Qed.

Lemma supernode_loop G (ss : list (nat * Z)) hyperedges
    (node_to_hyperedges : gmap Z (list nat)) :
  wf G →
  (∀ i s, (i, s) ∈ ss → s ∈ nodes G ∧ (size (neighbour_set G s) ≤ 1)%nat) →
  (∀ n, n ∈ nodes G → is_Some (node_to_hyperedges !! n)) →
  Forall (λ hed, size hed = 1%nat) hyperedges →
  ∃ hyperedges' node_to_hyperedges',
    for_each ss
      (λ '(hyperedges, node_to_hyperedges) '(i, s),
         nbs ← neighbors G s;
         let neighbors : gset Z := list_to_set nbs in
         if bool_decide (size neighbors = 0%nat)
         then Ok (hyperedges, node_to_hyperedges)
         else
           node_to_hyperedges ←
             for_each (set_iter neighbors) (λ d v, dict_append d v i)
               node_to_hyperedges;
           Ok (hyperedges ++ [neighbors], node_to_hyperedges))
      (hyperedges, node_to_hyperedges)
    = Ok (hyperedges', node_to_hyperedges')
    ∧ Forall (λ hed, size hed = 1%nat) hyperedges'.
Proof.
  intros Hwf. revert hyperedges node_to_hyperedges.
  induction ss as [|[i s] ss IH]; intros hs n2h His Hkeys Hall.
  { by exists hs, n2h. }
  destruct (His i s) as [Hs Hsize]; [by left|].
  assert (∀ i' s', (i', s') ∈ ss →
            s' ∈ nodes G ∧ (size (neighbour_set G s') ≤ 1)%nat) as His'
    by (intros i' s' ?; apply (His i' s'); by right).
  pose proof Hs as [adj Hadj]%dict_get_is_Some.
  rewrite for_each_cons. cbn beta iota.
  rewrite (neighbors_Some _ _ _ Hadj), bind_Ok. cbv zeta.
  assert (list_to_set adj.*1 = neighbour_set G s) as ->.
  { unfold neighbour_set. by rewrite Hadj. }
  case_bool_decide as Hempty.
  - rewrite bind_Ok. by apply IH.
  - destruct (for_each_dict_append (set_iter (neighbour_set G s)) n2h i)
      as (n2h' & -> & Hn2h').
    { apply NoDup_set_iter. }
    { intros v Hv%elem_of_set_iter%elem_of_neighbour_set.
      apply Hkeys. eapply has_edge_node, wf_sym; done. }
    rewrite !bind_Ok. apply IH; [done| |].
    + intros n Hn. rewrite Hn2h'. case_decide; [|by auto].
      apply fmap_is_Some. by auto.
    + apply Forall_app. split; [done|]. apply Forall_singleton. lia.
Qed.

End supernode_hyperedges.

(** [create_supernode_hyperedges] returns, with hyperedges of one member
    and the uniform deposits of lines 29-32. *)
Lemma create_supernode_hyperedges_spec (fuel : nat) (G : graph) :
  wf G → Forall (λ ka, (length ka.2 < 5000)%nat) G →
  (length G + 1 < fuel)%nat →
  ∃ hyperedges node_to_hyperedges,
    utils.create_supernode_hyperedges fuel G
    = Ok (hyperedges, node_to_hyperedges,
          foldl (λ caps vi,
                   foldl (λ caps idx,
                            <[(vi.1, idx)
                              := (1 / Qc_of_nat (length vi.2))%Qc]> caps)
                     caps vi.2)
            ∅ (map_to_list node_to_hyperedges))
    ∧ Forall (λ hed, size hed = 1%nat) hyperedges.
Proof.
  intros Hwf Hdeg Hfuel. unfold utils.create_supernode_hyperedges.
  destruct (select_supernodes_leaves fuel G 4 5000) as (S & -> & HS);
    [done|lia| |done|].
  { intros u. destruct (decide (G = [])) as [->|Hne].
    - rewrite (neighbour_set_None [] u eq_refl), size_empty. lia.
    - by apply size_neighbour_set_bound. }
  rewrite bind_Ok.
  destruct (supernode_loop G (enumerate (set_iter S)) [] (empty_membership G))
    as (hs & n2h & Hloop & Hall); [done| | |done|].
  { intros i s Hin. apply HS, elem_of_set_iter.
    apply list_elem_of_lookup in Hin as [j Hj]. rewrite lookup_enumerate in Hj.
    apply fmap_Some in Hj as (s' & Hlk & [= -> ->]).
    by eapply list_elem_of_lookup_2. }
  { intros n Hn. by apply lookup_node_init. }
  cbv zeta in Hloop. rewrite Hloop, bind_Ok. cbv zeta.
  by exists hs, n2h.
Qed.

(** X14. On a well-formed graph whose degrees are below 5000, every
    hyperedge that [create_supernode_hyperedges] returns has exactly
    one member, and the clique projection of [make_supernode_edges]
    writes no record for them. *)
Theorem create_supernode_hyperedges_singletons (fuel : nat) (G : graph) :
  wf G → Forall (λ ka, (length ka.2 < 5000)%nat) G →
  (length G + 1 < fuel)%nat →
  ∃ hyperedges node_to_hyperedges caps,
    utils.create_supernode_hyperedges fuel G
    = Ok (hyperedges, node_to_hyperedges, caps)
    ∧ Forall (λ hed, size hed = 1%nat) hyperedges
    ∧ make_supernode_edges.rows hyperedges caps = [].
Proof.
  intros Hwf Hdeg Hfuel.
  destruct (create_supernode_hyperedges_spec fuel G Hwf Hdeg Hfuel)
    as (hs & n2h & Hrun & Hall).
  eexists hs, n2h, _. split; [exact Hrun|]. split; [done|].
  rewrite rows_clique_rows. by apply clique_rows_singletons.
Qed.

Lemma create_supernode_hyperedges_singletons_witness :
  ∃ hyperedges node_to_hyperedges caps,
    utils.create_supernode_hyperedges 13 demo_graph
    = Ok (hyperedges, node_to_hyperedges, caps)
    ∧ Forall (λ hed, size hed = 1%nat) hyperedges
    ∧ make_supernode_edges.rows hyperedges caps = [].
Proof.
  apply (create_supernode_hyperedges_singletons 13 demo_graph).
  - apply (bool_decide_unpack _). vm_compute. exact I.
  - apply (bool_decide_unpack _). vm_compute. exact I.
  - vm_compute. lia.
Defined.

(** X13. With a search depth of at least 2 and every degree below
    [max_states], [select_supernodes] keeps exactly the nodes that have
    at most one neighbour: a node with two neighbours is always
    removed, because its two neighbours are adjacent or are joined by
    the path through the node itself. *)
Theorem select_supernodes_degree_one (fuel : nat) (G : graph)
    (max_search_depth max_states : nat) :
  wf G → (2 ≤ max_search_depth)%nat →
  Forall (λ ka, (length ka.2 < max_states)%nat) G →
  (length G + 1 < fuel)%nat →
  ∃ S, supernodes.select_supernodes fuel G max_search_depth max_states = Ok S
       ∧ ∀ n, n ∈ S
              ↔ n ∈ nodes G ∧ ∀ u v, has_edge G n u → has_edge G n v → u = v.
Proof.
  intros Hwf Hdepth Hdeg Hfuel.
  destruct (decide (G = [])) as [->|Hne].
  { exists ∅. split; [done|]. intros n. split; [by intros ?%not_elem_of_empty|].
    by intros [?%elem_of_nil _]. }
  destruct (select_supernodes_leaves fuel G max_search_depth max_states)
    as (S & HS & Hmem); [done..|by apply size_neighbour_set_bound|done|].
  exists S. split; [done|]. intros n. rewrite Hmem.
  assert ((size (neighbour_set G n) ≤ 1)%nat
          ↔ ∀ u v, has_edge G n u → has_edge G n v → u = v) as ->; [|done].
  split.
  - intros Hsize u v Hu%elem_of_neighbour_set Hv%elem_of_neighbour_set.
    destruct (decide (u = v)) as [|Hne']; [done|].
    assert ({[u; v]} ⊆ neighbour_set G n) as Hsub%subseteq_size.
    { intros x [->%elem_of_singleton| ->%elem_of_singleton]%elem_of_union; done. }
    rewrite size_union in Hsub by (by apply disjoint_singleton_l, not_elem_of_singleton).
    rewrite !size_singleton in Hsub. lia.
  - intros Hone.
    destruct (decide (size (neighbour_set G n) ≤ 1)%nat) as [|Hbig]; [done|].
    exfalso. destruct (set_choose_L (neighbour_set G n)) as [u Hu].
    { intros Hempty. rewrite Hempty, size_empty in Hbig. lia. }
    destruct (set_choose_L (neighbour_set G n ∖ {[u]})) as [v Hv].
    { intros Hempty.
      assert ({[u]} ⊆ neighbour_set G n) as Hs by (by apply singleton_subseteq_l).
      apply size_difference in Hs.
      rewrite Hempty, size_empty, size_singleton in Hs. lia. }
    apply elem_of_difference in Hv as [Hv Hne'%not_elem_of_singleton].
    apply Hne', eq_sym, Hone; by apply elem_of_neighbour_set.
Qed.

Lemma select_supernodes_degree_one_witness :
  ∃ S, supernodes.select_supernodes 13 demo_graph 4 5000 = Ok S
       ∧ ∀ n, n ∈ S
              ↔ n ∈ nodes demo_graph
                ∧ ∀ u v, has_edge demo_graph n u → has_edge demo_graph n v →
                         u = v.
Proof.
  apply (select_supernodes_degree_one 13 demo_graph 4 5000).
  - apply (bool_decide_unpack _). vm_compute. exact I.
  - lia.
  - apply (bool_decide_unpack _). vm_compute. exact I.
  - vm_compute. lia.
Defined.

(** ** The records of the clique exports *)
Section clique_pairs.
Implicit Types (hyperedges : list (gset Z)) (hed : gset Z).

Lemma elem_of_flat_map {A B} (f : A → list B) (l : list A) (y : B) :
  y ∈ flat_map f l ↔ ∃ x, x ∈ l ∧ y ∈ f x.
Proof.
  rewrite list_elem_of_In, in_flat_map. split.
  - intros (x & ?%list_elem_of_In & ?%list_elem_of_In). eauto.
  - intros (x & ? & ?). exists x. by rewrite <-!list_elem_of_In.
Qed.

Lemma elem_of_enumerate {A} (l : list A) i x :
  (i, x) ∈ enumerate l ↔ l !! i = Some x.
Proof.
  rewrite list_elem_of_lookup. split.
  - intros (j & Hj). rewrite lookup_enumerate in Hj.
    by apply fmap_Some in Hj as (x' & Hlk & [= -> ->]).
  - intros Hi. exists i. by rewrite lookup_enumerate, Hi.
Qed.

(** The records of the projection: one for every ordered pair of
    distinct members of a hyperedge. *)
Lemma elem_of_clique_rows (cap_of : Z → nat → Qc) (fee_of : Z → Qc) (fr : Qc)
    hyperedges (r : edge_row) :
  r ∈ clique_rows cap_of fee_of fr hyperedges
  ↔ ∃ idx hed u v,
      hyperedges !! idx = Some hed ∧ u ∈ hed ∧ v ∈ hed ∧ u ≠ v
      ∧ r = {| src := u; trg := v; capacity := cap_of u idx;
               base_fee := fee_of u; fee_rate := fr; enabled := true |}.
Proof.
  unfold clique_rows. rewrite elem_of_flat_map. split.
  - intros ([idx hed] & Hin%elem_of_enumerate & Hr). simpl in Hr.
    apply elem_of_flat_map in Hr as (u & Hu%elem_of_set_iter & Hr).
    unfold outgoing_records in Hr.
    apply list_elem_of_fmap in Hr as (v & -> & [Hne Hv%elem_of_set_iter]%list_elem_of_filter).
    exists idx, hed, u, v. by split_and!.
  - intros (idx & hed & u & v & Hidx & Hu & Hv & Hne & ->).
    exists (idx, hed). split; [by apply elem_of_enumerate|]. simpl.
    apply elem_of_flat_map. exists u. split; [by apply elem_of_set_iter|].
    unfold outgoing_records. apply list_elem_of_fmap. exists v. split; [done|].
    apply list_elem_of_filter. split; [by intros ->|by apply elem_of_set_iter].
Qed.

Lemma length_flat_map {A B} (f : A → list B) (l : list A) :
  length (flat_map f l) = sum_list ((λ x, length (f x)) <$> l).
Proof.
  induction l as [|x l IH]; csimpl; [done|]. by rewrite length_app, IH.
Qed.

Lemma sum_list_const {A} (c : nat) (f : A → nat) (l : list A) :
  (∀ x, x ∈ l → f x = c) → sum_list (f <$> l) = (length l * c)%nat.
Proof.
  induction l as [|x l IH]; intros Hf; csimpl; [done|].
  rewrite Hf by (by left). rewrite IH; [done|]. intros y Hy. apply Hf. by right.
Qed.

(** A hyperedge of [k] members gives [k * (k - 1)] records. *)
Lemma length_clique_rows (cap_of : Z → nat → Qc) (fee_of : Z → Qc) (fr : Qc)
    hyperedges :
  length (clique_rows cap_of fee_of fr hyperedges)
  = sum_list ((λ hed, size hed * (size hed - 1))%nat <$> hyperedges).
Proof.
  unfold clique_rows. rewrite length_flat_map. unfold enumerate.
  assert (∀ j,
            sum_list
              ((λ ih : nat * gset Z,
                  length
                    (flat_map
                       (λ u, outgoing_records (cap_of u ih.1) (fee_of u) fr
                               ih.2 u) (set_iter ih.2)))
                 <$> zip (seq j (length hyperedges)) hyperedges)
            = sum_list ((λ hed, size hed * (size hed - 1))%nat <$> hyperedges))
    as Hgen; [|apply Hgen].
  induction hyperedges as [|hed hs IH]; intros j; csimpl; [done|].
  rewrite IH. f_equal. rewrite length_flat_map.
  rewrite (sum_list_const (size hed - 1)); [by rewrite length_set_iter|].
  intros u Hu%elem_of_set_iter.
  by destruct (outgoing_records_spec (cap_of u j) (fee_of u) fr hed u Hu) as [-> _].
Qed.

End clique_pairs.

(** X15. When [export_clique_edges_csv] succeeds, no hyperedge has more
    than [max_size] members, and the records are exactly one for every
    ordered pair of distinct members of a hyperedge, with the deposit
    of the source node in that hyperedge (1 when it has none), the fee
    100 and the rate 1; a hyperedge of [k] members gives [k (k - 1)]
    records. The records are those of [make_supernode_edges]. *)
Theorem clique_export_rows (hyperedges : list (gset Z))
    (node_caps : gmap (Z * nat) Qc) (T : Z) (rows : list edge_row) :
  make_fhs_edges.export_clique_edges_csv hyperedges node_caps T = Ok rows →
  Forall (λ hed, Z.of_nat (size hed) ≤ T) hyperedges
  ∧ rows = make_supernode_edges.rows hyperedges node_caps
  ∧ length rows
    = sum_list ((λ hed, size hed * (size hed - 1))%nat <$> hyperedges)
  ∧ ∀ r, r ∈ rows
         ↔ ∃ idx hed u v,
             hyperedges !! idx = Some hed ∧ u ∈ hed ∧ v ∈ hed ∧ u ≠ v
             ∧ r = {| src := u; trg := v;
                      capacity := default 1%Qc (node_caps !! (u, idx));
                      base_fee := Qc_of_nat 100; fee_rate := 1;
                      enabled := true |}.
Proof.
  rewrite export_clique_edges_csv_spec. case_bool_decide as Hbig; [done|].
  intros [= <-]. split_and!.
  - apply Forall_forall. intros hed Hhed.
    destruct (decide (Z.of_nat (size hed) ≤ T)) as [|Hgt]; [done|].
    exfalso. apply Hbig, Exists_exists. exists hed. split; [done|lia].
  - by rewrite rows_clique_rows.
  - apply length_clique_rows.
  - intros r.
    apply (elem_of_clique_rows (λ u idx, default 1%Qc (node_caps !! (u, idx)))
             (λ _, Qc_of_nat 100)).
Qed.

Lemma clique_export_rows_witness :
  ∃ rows,
    make_fhs_edges.export_clique_edges_csv [{[1; 2; 3]}; {[3; 4]}] ∅ 3 = Ok rows
    ∧ length rows
      = sum_list ((λ hed : gset Z, size hed * (size hed - 1))%nat
                    <$> [{[1; 2; 3]}; {[3; 4]}]).
Proof.
  eexists.
  assert (make_fhs_edges.export_clique_edges_csv [{[1; 2; 3]}; {[3; 4]}] ∅ 3
          = Ok _) as Hrun by (vm_compute; reflexivity).
  split; [exact Hrun|].
  exact (proj1 (proj2 (proj2 (clique_export_rows _ _ _ _ Hrun)))).
Defined.

(** X16. When [export_clique] of the NCH script succeeds, the records
    are exactly one for every ordered pair of distinct members of a
    hyperedge, with the deposit of the source node in that hyperedge
    (1 when it has none) and, as base fee, the fee of the source node
    in the fee profile (100 when the profile has none). *)
Theorem export_clique_rows (hyperedges : list (gset Z))
    (node_caps : gmap (Z * nat) Qc) (T : Z) (fee_profile : gmap Z Qc)
    (rows : list edge_row) :
  make_nch_edges.export_clique hyperedges node_caps T fee_profile = Ok rows →
  length rows
  = sum_list ((λ hed, size hed * (size hed - 1))%nat <$> hyperedges)
  ∧ ∀ r, r ∈ rows
         ↔ ∃ idx hed u v,
             hyperedges !! idx = Some hed ∧ u ∈ hed ∧ v ∈ hed ∧ u ≠ v
             ∧ r = {| src := u; trg := v;
                      capacity := default 1%Qc (node_caps !! (u, idx));
                      base_fee := default (Qc_of_nat 100) (fee_profile !! u);
                      fee_rate := 1; enabled := true |}.
Proof.
  rewrite export_clique_spec. case_bool_decide as Hbig; [done|].
  intros [= <-]. split.
  - apply length_clique_rows.
  - intros r. rewrite elem_of_clique_rows.
    assert (∀ u, (if decide (fee_profile = ∅) then Qc_of_nat 100
                  else default (Qc_of_nat 100) (fee_profile !! u))
                 = default (Qc_of_nat 100) (fee_profile !! u)) as Hfee.
    { intros u. case_decide as Hempty; [|done]. by rewrite Hempty, lookup_empty. }
    split; intros (idx & hed & u & v & ? & ? & ? & ? & ->);
      exists idx, hed, u, v; by rewrite Hfee.
Qed.

Lemma export_clique_rows_witness :
  ∃ rows,
    make_nch_edges.export_clique [{[1; 2; 3]}] ∅ 3 {[1 := Qc_of_nat 7]} = Ok rows
    ∧ length rows
      = sum_list ((λ hed : gset Z, size hed * (size hed - 1))%nat
                    <$> [{[1; 2; 3]}]).
Proof.
  eexists.
  assert (make_nch_edges.export_clique [{[1; 2; 3]}] ∅ 3 {[1 := Qc_of_nat 7]}
          = Ok _) as Hrun by (vm_compute; reflexivity).
  split; [exact Hrun|].
  exact (proj1 (export_clique_rows _ _ _ _ _ Hrun)).
Defined.

(** X17. [hyperedges_to_directed_edges_df] gives one record for every
    ordered pair of distinct members of a hyperedge; the capacity of a
    record is the entry of the map for the pair (source, hyperedge
    index) when there is one, otherwise the entry for the source node
    alone, otherwise 1. *)
Theorem hyperedges_to_directed_edges_df_rows (hyperedges : list (gset Z))
    (node_capacity_map : gmap (Z * nat + Z) Qc) (base_fee fee_rate : Qc) :
  let rows :=
    hyper_to_edges.hyperedges_to_directed_edges_df hyperedges
      node_capacity_map base_fee fee_rate in
  length rows
  = sum_list ((λ hed, size hed * (size hed - 1))%nat <$> hyperedges)
  ∧ ∀ r, r ∈ rows
         ↔ ∃ idx hed u v,
             hyperedges !! idx = Some hed ∧ u ∈ hed ∧ v ∈ hed ∧ u ≠ v
             ∧ r = {| src := u; trg := v;
                      capacity :=
                        match node_capacity_map !! inl (u, idx) with
                        | Some c => c
                        | None => default 1%Qc (node_capacity_map !! inr u)
                        end;
                      base_fee := base_fee; fee_rate := fee_rate;
                      enabled := true |}.
Proof.
  intros rows. unfold rows.
  rewrite hyperedges_to_directed_edges_df_clique_rows. split.
  - apply length_clique_rows.
  - intros r. rewrite elem_of_clique_rows.
    split; intros (idx & hed & u & v & ? & ? & ? & ? & ->);
      exists idx, hed, u, v; split_and!; try done;
      by destruct (node_capacity_map !! inl (u, idx)).
Qed.

(** ** The deposits written by the scripts *)
(** The deposits of the NCH script, entry by entry. *)
Lemma nch_main_node_caps_lookup (edges_df : list (Z * Z * option Qc))
    (node_to_hyperedges : gmap Z (list nat)) (n : Z) (idx : nat) :
  make_nch_edges.main_node_caps edges_df node_to_hyperedges !! (n, idx)
  = match node_to_hyperedges !! n with
    | Some idxs =>
        if decide (idx ∈ idxs)
        then Some ((if decide (incident_total edges_df n = 0)%Qc then 1%Qc
                    else incident_total edges_df n)
                   / Qc_of_nat (length idxs))%Qc
        else None
    | None => None
    end.
Proof.
  unfold make_nch_edges.main_node_caps. cbv zeta.
  destruct (lookup_foldl_shares
              (λ v l,
                 ((if decide (default 0%Qc
                                (make_nch_edges.compute_node_totals edges_df
                                   !! v) = 0)%Qc
                   then 1%Qc
                   else default 0%Qc
                          (make_nch_edges.compute_node_totals edges_df !! v))
                  / Qc_of_nat (length l))%Qc)
              (map_to_list node_to_hyperedges) ∅ n idx) as [H1 H2].
  { apply NoDup_fst_map_to_list. }
  cbv zeta in H1, H2.
  destruct (node_to_hyperedges !! n) as [idxs|] eqn:Hn.
  - destruct (decide (idx ∈ idxs)) as [Hidx|Hidx].
    + rewrite (H1 idxs); [|by apply elem_of_map_to_list|done].
      change (make_nch_edges.compute_node_totals edges_df)
        with (make_fhs_edges.compute_node_totals edges_df).
      by rewrite compute_node_totals_spec.
    + rewrite H2; [apply lookup_empty|].
      intros idxs' Hin%elem_of_map_to_list. by simplify_eq.
  - rewrite H2; [apply lookup_empty|].
    intros idxs' Hin%elem_of_map_to_list. by simplify_eq.
Qed.

(** X18. The deposits that [main] of the NCH script computes: a node
    with a non-empty index list gets, in each hyperedge of the list and
    nowhere else, its incident capacity total divided by the length of
    the list, where a total that is exactly zero is replaced by 1 (a
    negative total is kept); the deposits of the node sum to that
    total. *)
Theorem nch_main_node_caps_split (edges_df : list (Z * Z * option Qc))
    (node_to_hyperedges : gmap Z (list nat)) (n : Z) (idxs : list nat) :
  node_to_hyperedges !! n = Some idxs → idxs ≠ [] →
  let caps := make_nch_edges.main_node_caps edges_df node_to_hyperedges in
  let T := incident_total edges_df n in
  let T' := if decide (T = 0)%Qc then 1%Qc else T in
  (∀ idx, caps !! (n, idx)
          = if decide (idx ∈ idxs)
            then Some (T' / Qc_of_nat (length idxs))%Qc else None)
  ∧ sum_Qc ((λ idx, default 0%Qc (caps !! (n, idx))) <$> idxs) = T'.
Proof.
  intros Hn Hne caps T T'.
  assert (∀ idx, caps !! (n, idx)
                 = if decide (idx ∈ idxs)
                   then Some (T' / Qc_of_nat (length idxs))%Qc else None)
    as Hlookup.
  { intros idx. unfold caps. by rewrite nch_main_node_caps_lookup, Hn. }
  split; [done|].
  etrans; [|exact (sum_Qc_shares T' idxs Hne)]. f_equal.
  apply list_fmap_ext. intros i idx Hidx%list_elem_of_lookup_2.
  by rewrite Hlookup, decide_True.
Qed.

Lemma nch_main_node_caps_split_witness :
  make_nch_edges.main_node_caps
    [(1, 2, Some (Qc_of_nat 6)); (1, 3, None)] {[1 := [0%nat; 4%nat]]}
    !! (1, 4%nat)
  = Some (Qc_of_nat 6 / Qc_of_nat 2)%Qc.
Proof.
  destruct (nch_main_node_caps_split
              [(1, 2, Some (Qc_of_nat 6)); (1, 3, None)]
              {[1 := [0%nat; 4%nat]]} 1 [0%nat; 4%nat]) as [Hlk _].
  - reflexivity.
  - discriminate.
  - rewrite (Hlk 4%nat). vm_compute. reflexivity.
Defined.

(** X19. [main] of the FHS script, on a table without self-loops: the
    hypergraph is built, every endpoint of a row is in at least one
    hyperedge, and its deposits, one per hyperedge of its index list,
    are its incident capacity total of the table (1 when that total is
    not positive) divided evenly, so that they sum to it. *)
Theorem main_hypergraph_deposits (fuel : nat)
    (edges_df : list (Z * Z * option Qc)) (m_max : Z) :
  (∀ r, r ∈ edges_df → r.1.1 ≠ r.1.2) → 2 ≤ m_max →
  (number_of_edges (utils.edges_df_to_nx edges_df) < fuel)%nat →
  ∃ hyperedges node_to_hyperedges caps,
    make_fhs_edges.main_hypergraph fuel edges_df m_max
    = Ok (hyperedges, node_to_hyperedges, caps)
    ∧ ∀ r n, r ∈ edges_df → r.1.1 = n ∨ r.1.2 = n →
        let T := incident_total edges_df n in
        let T' := if decide (T ≤ 0)%Qc then 1%Qc else T in
        ∃ idxs,
          node_to_hyperedges !! n = Some idxs ∧ idxs ≠ []
          ∧ (∀ idx, idx ∈ idxs →
               caps !! (n, idx) = Some (T' / Qc_of_nat (length idxs))%Qc)
          ∧ sum_Qc ((λ idx, default 0%Qc (caps !! (n, idx))) <$> idxs) = T'.
Proof.
  intros Hrows Hm Hfuel. unfold make_fhs_edges.main_hypergraph. cbv zeta.
  set (g := utils.edges_df_to_nx edges_df) in *.
  assert (wf g) as Hwf by apply wf_edges_df_to_nx.
  assert (simple g) as Hsimple.
  { apply (simple_alt g (wf_NoDup _ Hwf)). intros u Hu.
    apply has_edge_edges_df_to_nx in Hu as (c & [Hin|Hin]);
      by apply (Hrows _ Hin). }
  destruct (create_fhs_structure fuel [g] 0 g m_max false)
    as (h' & hs & n2h & caps & -> & [_ Hidx] & _ & Hcov & _); [done..|].
  rewrite bind_Ok. exists hs, n2h, (make_fhs_edges.main_node_caps edges_df n2h).
  split; [done|]. intros r n Hr Hn.
  assert (∃ w, has_edge g n w) as [w Hnw].
  { destruct r as [[u v] c]. simpl in Hn. pose proof (Hrows _ Hr) as Hne.
    simpl in Hne. destruct Hn as [<-|<-].
    - exists v. apply has_edge_edges_df_to_nx. exists c. by left.
    - exists u. apply has_edge_edges_df_to_nx. exists c. by right. }
  exists (positions_of hs n).
  assert (n2h !! n = Some (positions_of hs n)) as Hlk.
  { rewrite Hidx, decide_True; [done|]. by eapply has_edge_node. }
  assert (positions_of hs n ≠ []) as Hne.
  { destruct (Hcov n w Hnw) as (i & Ve & Hi & Hin & _).
    intros Hnil.
    assert (i ∈ positions_of hs n) as Hpos; [|by rewrite Hnil in Hpos;
                                               apply elem_of_nil in Hpos].
    apply list_elem_of_filter. rewrite Hi. split; [done|].
    apply elem_of_seq. apply lookup_lt_Some in Hi. lia. }
  destruct (main_node_caps_uniform edges_df n2h n (positions_of hs n) Hlk Hne)
    as (Hshare & _ & Hsum).
  by split_and!.
Qed.

Lemma main_hypergraph_deposits_witness :
  ∃ hyperedges node_to_hyperedges caps,
    make_fhs_edges.main_hypergraph 3
      [(1, 2, Some (Qc_of_nat 7)); (2, 3, Some (Qc_of_nat 0))] 2
    = Ok (hyperedges, node_to_hyperedges, caps)
    ∧ ∀ r n, r ∈ [(1, 2, Some (Qc_of_nat 7)); (2, 3, Some (Qc_of_nat 0))] →
        r.1.1 = n ∨ r.1.2 = n →
        let T :=
          incident_total
            [(1, 2, Some (Qc_of_nat 7)); (2, 3, Some (Qc_of_nat 0))] n in
        let T' := if decide (T ≤ 0)%Qc then 1%Qc else T in
        ∃ idxs,
          node_to_hyperedges !! n = Some idxs ∧ idxs ≠ []
          ∧ (∀ idx, idx ∈ idxs →
               caps !! (n, idx) = Some (T' / Qc_of_nat (length idxs))%Qc)
          ∧ sum_Qc ((λ idx, default 0%Qc (caps !! (n, idx))) <$> idxs) = T'.
Proof.
  apply (main_hypergraph_deposits 3
           [(1, 2, Some (Qc_of_nat 7)); (2, 3, Some (Qc_of_nat 0))] 2).
  - intros r Hr. repeat (apply elem_of_cons in Hr as [->|Hr]; [done|]).
    by apply elem_of_nil in Hr.
  - lia.
  - vm_compute. lia.
Defined.
(** ** The capacity split of FHS *)
Section fhs_split.
Implicit Types (g : graph) (node_to_hyperedges : gmap Z (list nat)).

(** The accumulation of lines 87-91 adds to every node the capacities
    of the edges it is an endpoint of. *)
Lemma for_each_total_add_spec (es : list (Z * Z * option Qc))
    (tot : gmap Z Qc) :
  (∀ e, e ∈ es → is_Some (tot !! e.1.1) ∧ is_Some (tot !! e.1.2)) →
  ∃ tot',
    for_each es
      (λ tot e,
         tot ← fhs.total_add tot e.1.1 (default 0%Qc e.2);
         fhs.total_add tot e.1.2 (default 0%Qc e.2))
      tot = Ok tot'
    ∧ ∀ n, tot' !! n = (λ t, (t + incident_total es n)%Qc) <$> tot !! n.
Proof.
  revert tot. induction es as [|e es IH]; intros tot Hes.
  { exists tot. split; [done|]. intros n. simpl.
    destruct (tot !! n) as [t|]; simpl; [|done]. f_equal. ring. }
  rewrite for_each_cons. cbv beta zeta.
  destruct (Hes e) as [[t1 Ht1] [t2 Ht2]]; [by left|].
  rewrite (total_add_Some _ _ _ _ Ht1), bind_Ok.
  assert (is_Some (<[e.1.1 := (t1 + default 0 e.2)%Qc]> tot !! e.1.2))
    as [t2' Ht2'].
  { rewrite lookup_insert_is_Some. destruct (decide (e.1.1 = e.1.2)); eauto. }
  rewrite (total_add_Some _ _ _ _ Ht2'), bind_Ok.
  destruct (IH (<[e.1.2 := (t2' + default 0 e.2)%Qc]>
                  (<[e.1.1 := (t1 + default 0 e.2)%Qc]> tot)))
    as (tot' & -> & Htot').
  { intros e' He'. rewrite !lookup_insert_is_Some.
    destruct (Hes e') as [? ?]; [by right|].
    split.
    - destruct (decide (e.1.2 = e'.1.1)); [by left|right]. split; [done|].
      destruct (decide (e.1.1 = e'.1.1)); [by left|by right].
    - destruct (decide (e.1.2 = e'.1.2)); [by left|right]. split; [done|].
      destruct (decide (e.1.1 = e'.1.2)); [by left|by right]. }
  exists tot'. split; [done|]. intros n. rewrite Htot'. simpl.
  destruct (decide (e.1.2 = n)) as [H2|H2].
  - subst n. rewrite lookup_insert_eq. simpl.
    destruct (decide (e.1.1 = e.1.2)) as [H1|H1].
    + rewrite H1 in Ht2'. rewrite lookup_insert_eq in Ht2'.
      injection Ht2' as <-. rewrite Ht2. simpl. f_equal.
      rewrite H1 in Ht1. rewrite Ht1 in Ht2. injection Ht2 as ->. ring.
    + rewrite lookup_insert_ne in Ht2' by done.
      rewrite Ht2 in Ht2'. injection Ht2' as <-. rewrite Ht2. simpl.
      f_equal. ring.
  - rewrite lookup_insert_ne by done.
    destruct (decide (e.1.1 = n)) as [H1|H1].
    + subst n. rewrite lookup_insert_eq, Ht1. simpl. f_equal. ring.
    + rewrite lookup_insert_ne by done.
      destruct (tot !! n) as [t|]; simpl; [|done]. f_equal. ring.
Qed.

Lemma lookup_node_init_Some {V} g (x : V) n :
  n ∈ nodes g →
  (list_to_map ((λ n, (n, x)) <$> nodes g) : gmap Z V) !! n = Some x.
Proof.
  intros Hn. destruct (lookup_node_init g x n Hn) as [y Hy].
  rewrite Hy. f_equal.
  apply elem_of_list_to_map_2, list_elem_of_fmap in Hy as (m & [= -> ->] & _).
  done.
Qed.

(** Lines 83-100 on a graph one of whose edges carries a capacity. *)
Lemma capacity_distribution_capacity g node_to_hyperedges :
  wf g → Exists (λ e, is_Some e.2) (edges g) →
  ∃ node_total : gmap Z Qc,
    fhs.capacity_distribution g node_to_hyperedges
    = Ok (fhs.split_evenly (λ v, default 0%Qc (node_total !! v))
            node_to_hyperedges)
    ∧ ∀ n, n ∈ nodes g → node_total !! n = Some (incident_total (edges g) n).
Proof.
  intros Hwf Hcap. unfold fhs.capacity_distribution. cbv zeta.
  rewrite bool_decide_eq_true_2 by done.
  destruct (for_each_total_add_spec (edges g)
              (list_to_map ((λ n, (n, 0%Qc)) <$> nodes g)))
    as (tot & -> & Htot).
  - intros e He%edges_has_edge; [|done]. split; apply lookup_node_init.
    + by eapply has_edge_node.
    + eapply has_edge_node, wf_sym; eauto.
  - rewrite bind_Ok. exists tot. split; [done|]. intros n Hn.
    rewrite Htot, (lookup_node_init_Some g 0%Qc n Hn). simpl. f_equal. ring.
Qed.

End fhs_split.

(** X20. On a graph one of whose edges carries a capacity, [create_fhs]
    with [use_edge_capacity] gives a node with the index list [idxs] the
    share [T / k] in each hyperedge of the list and no other entry,
    where [k] is the length of the list and [T] the sum, over
    [G_input.edges(data=True)], of the capacities of the edges the node
    is an endpoint of (a missing capacity counts as 0). The shares of a
    node that is in some hyperedge sum to [T]; no floor is applied. *)
Theorem create_fhs_capacity_split (fuel : nat) (h : heap) (G_input : nat)
    (g : graph) (m_max : Z) :
  h !! G_input = Some g → wf g → simple g → 2 ≤ m_max →
  (number_of_edges g < fuel)%nat →
  Exists (λ e, is_Some e.2) (edges g) →
  ∃ h' hyperedges node_to_hyperedges caps,
    fhs.create_fhs fuel h G_input m_max true
    = Ok (h', (hyperedges, node_to_hyperedges, caps))
    ∧ ∀ v idxs, node_to_hyperedges !! v = Some idxs →
        let T := incident_total (edges g) v in
        (∀ i, caps !! (v, i)
              = if decide (i ∈ idxs)
                then Some (T / Qc_of_nat (length idxs))%Qc else None)
        ∧ (idxs ≠ [] →
           sum_Qc ((λ i, default 0%Qc (caps !! (v, i))) <$> idxs) = T).
Proof.
  intros Hh Hwf Hsimple Hm Hfuel Hcap.
  destruct (create_fhs_structure fuel h G_input g m_max true)
    as (h' & hs & n2h & caps & Hrun & [_ Hidx] & _ & _ & Hcaps); [done..|].
  exists h', hs, n2h, caps. split; [done|].
  destruct (capacity_distribution_capacity g n2h Hwf Hcap)
    as (node_total & Hdist & Htotal).
  rewrite Hdist in Hcaps. injection Hcaps as <-. intros v idxs Hv T.
  assert (v ∈ nodes g) as Hnode.
  { specialize (Hidx v). rewrite Hv in Hidx. by case_decide. }
  assert (∀ i, fhs.split_evenly (λ v, default 0%Qc (node_total !! v)) n2h
                 !! (v, i)
               = if decide (i ∈ idxs)
                 then Some (T / Qc_of_nat (length idxs))%Qc else None) as Hlk.
  { intros i. by rewrite split_evenly_spec, Hv, (Htotal v Hnode). }
  split; [done|]. intros Hne.
  etrans; [|exact (sum_Qc_shares T idxs Hne)]. f_equal.
  apply list_fmap_ext. intros j i Hi%list_elem_of_lookup_2.
  by rewrite Hlk, decide_True.
Qed.

Lemma create_fhs_capacity_split_witness :
  ∃ h' hyperedges node_to_hyperedges caps,
    fhs.create_fhs 12 [demo_graph] 0 3 true
    = Ok (h', (hyperedges, node_to_hyperedges, caps))
    ∧ ∀ v idxs, node_to_hyperedges !! v = Some idxs →
        let T := incident_total (edges demo_graph) v in
        (∀ i, caps !! (v, i)
              = if decide (i ∈ idxs)
                then Some (T / Qc_of_nat (length idxs))%Qc else None)
        ∧ (idxs ≠ [] →
           sum_Qc ((λ i, default 0%Qc (caps !! (v, i))) <$> idxs) = T).
Proof.
  apply (create_fhs_capacity_split 12 [demo_graph] 0 demo_graph 3).
  - reflexivity.
  - apply (bool_decide_unpack _). vm_compute. exact I.
  - apply (bool_decide_unpack _). vm_compute. exact I.
  - lia.
  - vm_compute. lia.
  - apply (bool_decide_unpack _). vm_compute. exact I.
Defined.

(** ** The hubs of the NCH hyperedges *)
(** X21. Without a size cap and on a graph without self-loops, the
    cover node of an NCH hyperedge is not a member of that hyperedge,
    and every edge of the graph has an endpoint in the cover whose
    hyperedge contains the other endpoint. *)
Theorem create_nch_hub_outside (fuel : nat) (G : graph)
    (use_edge_capacity : bool) :
  wf G → simple G → (number_of_nodes G < fuel)%nat →
  ∃ cover hyperedges node_to_hyperedges,
    nch.greedy_vertex_cover fuel G None = Ok cover
    ∧ nch.create_nch fuel G None use_edge_capacity
      = Ok (hyperedges, node_to_hyperedges, ∅)
    ∧ (∀ i c hed, merge_sort Z.le (elements cover) !! i = Some c →
         hyperedges !! i = Some hed → c ∉ hed)
    ∧ ∀ u v, has_edge G u v →
        ∃ i c hed, merge_sort Z.le (elements cover) !! i = Some c
                   ∧ hyperedges !! i = Some hed
                   ∧ (c = u ∧ v ∈ hed ∨ c = v ∧ u ∈ hed).
Proof.
  intros Hwf Hsimple Hfuel.
  destruct (create_nch_spec fuel G None use_edge_capacity Hwf Hfuel)
    as (cover & n2h & Hcover & Hrun & _).
  destruct (greedy_vertex_cover_spec fuel G None Hwf Hfuel)
    as (cover' & Hcover' & _ & Hvc).
  rewrite Hcover in Hcover'. injection Hcover' as <-.
  exists cover, (neighbour_set G <$> merge_sort Z.le (elements cover)), n2h.
  split_and!; [done..| |].
  - intros i c hed Hi Hhed. rewrite list_lookup_fmap, Hi in Hhed.
    injection Hhed as <-. rewrite elem_of_neighbour_set.
    intros Hcc. by apply (proj1 (simple_alt G (wf_NoDup _ Hwf)) Hsimple c).
  - intros u v Huv.
    assert (∀ c, c ∈ cover →
              ∃ i, merge_sort Z.le (elements cover) !! i = Some c) as Hpos.
    { intros c Hc. apply list_elem_of_lookup.
      rewrite merge_sort_Permutation. by apply elem_of_elements. }
    destruct (Hvc u v Huv) as [Hu|Hv].
    + destruct (Hpos u Hu) as [i Hi]. exists i, u, (neighbour_set G u).
      split_and!; [done|by rewrite list_lookup_fmap, Hi|].
      left. split; [done|]. by apply elem_of_neighbour_set.
    + destruct (Hpos v Hv) as [i Hi]. exists i, v, (neighbour_set G v).
      split_and!; [done|by rewrite list_lookup_fmap, Hi|].
      right. split; [done|]. by apply elem_of_neighbour_set, wf_sym.
Qed.

Lemma create_nch_hub_outside_witness :
  ∃ cover hyperedges node_to_hyperedges,
    nch.greedy_vertex_cover 11 demo_graph None = Ok cover
    ∧ nch.create_nch 11 demo_graph None true
      = Ok (hyperedges, node_to_hyperedges, ∅)
    ∧ (∀ i c hed, merge_sort Z.le (elements cover) !! i = Some c →
         hyperedges !! i = Some hed → c ∉ hed)
    ∧ ∀ u v, has_edge demo_graph u v →
        ∃ i c hed, merge_sort Z.le (elements cover) !! i = Some c
                   ∧ hyperedges !! i = Some hed
                   ∧ (c = u ∧ v ∈ hed ∨ c = v ∧ u ∈ hed).
Proof.
  apply (create_nch_hub_outside 11 demo_graph true).
  - apply (bool_decide_unpack _). vm_compute. exact I.
  - apply (bool_decide_unpack _). vm_compute. exact I.
  - vm_compute. lia.
Defined.

(** ** The split of a hypergraph by hyperedge size *)
Section hyperjson_split.
Import hyperjson_split_and_export.
Implicit Types (hyperedges : list (list Z)) (node_caps : gmap (Z * nat) Qc).






End hyperjson_split.


(** ** The deposits of the supernode scripts *)
Section supernode_deposits.
Implicit Types (G : graph) (node_to_hyperedges : gmap Z (list nat))
  (node_caps : gmap (Z * nat) Qc).

(** The deposits that [create_supernode_hyperedges] returns. *)
Lemma create_supernode_hyperedges_caps fuel G hyperedges node_to_hyperedges
    node_caps :
  utils.create_supernode_hyperedges fuel G
  = Ok (hyperedges, node_to_hyperedges, node_caps) →
  node_caps
  = foldl (λ caps vi,
             foldl (λ caps idx,
                      <[(vi.1, idx) := (1 / Qc_of_nat (length vi.2))%Qc]> caps)
               caps vi.2)
      ∅ (map_to_list node_to_hyperedges).
Proof.
  unfold utils.create_supernode_hyperedges.
  destruct (supernodes.select_supernodes fuel G 4 5000) as [S| |];
    [|done..]. rewrite bind_Ok.
  destruct (for_each _ _ _) as [[hs n2h]| |]; [|done..].
  rewrite bind_Ok. cbv zeta. by intros [= <- <- <-].
Qed.

(** The uniform deposits, entry by entry. *)
Lemma uniform_caps_lookup node_to_hyperedges v i :
  foldl (λ caps vi,
           foldl (λ caps idx,
                    <[(vi.1, idx) := (1 / Qc_of_nat (length vi.2))%Qc]> caps)
             caps vi.2)
    (∅ : gmap (Z * nat) Qc) (map_to_list node_to_hyperedges) !! (v, i)
  = match node_to_hyperedges !! v with
    | Some idxs =>
        if decide (i ∈ idxs) then Some (1 / Qc_of_nat (length idxs))%Qc
        else None
    | None => None
    end.
Proof.
  destruct (lookup_foldl_shares
              (λ v l, (1 / Qc_of_nat (length l))%Qc)
              (map_to_list node_to_hyperedges) ∅ v i) as [H1 H2].
  { apply NoDup_fst_map_to_list. }
  cbv zeta in H1, H2.
  assert (∀ (L : list (Z * list nat)) (caps : gmap (Z * nat) Qc),
            foldl (λ caps vi,
                     foldl (λ caps idx,
                              <[(vi.1, idx)
                                := (1 / Qc_of_nat (length vi.2))%Qc]> caps)
                       caps vi.2) caps L
            = foldl (λ caps nh,
                       if bool_decide (nh.2 = []) then caps
                       else foldl (λ caps idx,
                                     <[(nh.1, idx)
                                       := (1 / Qc_of_nat (length nh.2))%Qc]>
                                       caps)
                              caps nh.2) caps L) as ->.
  { intros L. induction L as [|[w l] L IH]; intros caps; simpl; [done|].
    rewrite IH. case_bool_decide as Hl; [|done]. by rewrite Hl. }
  destruct (node_to_hyperedges !! v) as [idxs|] eqn:Hv.
  - case_decide as Hi.
    + apply (H1 idxs); [by apply elem_of_map_to_list|done].
    + rewrite H2; [apply lookup_empty|].
      intros idxs' Hin%elem_of_map_to_list. by simplify_eq.
  - rewrite H2; [apply lookup_empty|].
    intros idxs' Hin%elem_of_map_to_list. by simplify_eq.
Qed.

(** The second loop of the capacity block adds nothing when every index
    list is empty. *)
Lemma split_loop_idle (per : Z → list nat → Qc) (L : list (Z * list nat))
    node_caps :
  (∀ ni, ni ∈ L → ni.2 = []) →
  foldl (λ node_caps ni,
           if bool_decide (ni.2 = []) then node_caps
           else foldl (λ node_caps idx,
                         <[(ni.1, idx) := per ni.1 ni.2]> node_caps)
                  node_caps ni.2)
    node_caps L
  = node_caps.
Proof.
  induction L as [|ni L IH]; intros Hall; simpl; [done|].
  rewrite bool_decide_eq_true_2 by (apply Hall; by left).
  apply IH. intros ni' Hin. apply Hall. by right.
Qed.

(** The capacity block leaves the deposits of the builder as they are. *)
Lemma main_node_caps_idle fuel G hyperedges node_to_hyperedges node_caps
    (edges_df : list (Z * Z * option Qc)) node_caps' :
  utils.create_supernode_hyperedges fuel G
  = Ok (hyperedges, node_to_hyperedges, node_caps) →
  make_supernode_edges.main_node_caps edges_df node_to_hyperedges node_caps
  = Ok node_caps' →
  node_caps' = node_caps.
Proof.
  intros Hcaps%create_supernode_hyperedges_caps.
  unfold make_supernode_edges.main_node_caps.
  case_bool_decide as Hempty; [|by intros [= <-]].
  destruct (make_supernode_edges.node_totals edges_df) as [node_totals| |];
    [|done..].
  rewrite bind_Ok. intros [= <-]. unfold make_supernode_edges.split_totals.
  apply (split_loop_idle
           (λ v l, (default 1%Qc (node_totals !! v) / Qc_of_nat (length l))%Qc)).
  intros [v idxs] Hin%elem_of_map_to_list. simpl.
  destruct idxs as [|i idxs]; [done|]. exfalso.
  apply map_size_empty_inv in Hempty.
  pose proof (uniform_caps_lookup node_to_hyperedges v i) as Hlk.
  rewrite <-Hcaps, Hempty, lookup_empty, Hin in Hlk.
  rewrite decide_True in Hlk by (by left). done.
Qed.

(** The accumulation of the totals returns when every capacity is a
    number. *)
Lemma node_totals_returns (edges_df : list (Z * Z * option Qc)) :
  (∀ r, r ∈ edges_df → is_Some r.2) →
  ∃ totals, make_supernode_edges.node_totals edges_df = Ok totals.
Proof.
  unfold make_supernode_edges.node_totals. generalize (∅ : gmap Z Qc).
  induction edges_df as [|r df IH]; intros tot Hall.
  { by exists tot. }
  rewrite for_each_cons. destruct (Hall r) as [cap Hcap]; [by left|].
  rewrite Hcap. cbv zeta. rewrite bind_Ok. apply IH.
  intros r' Hr'. apply Hall. by right.
Qed.

(** On a table whose capacities are numbers the block returns, with the
    deposits of the builder. *)
Lemma main_node_caps_same fuel G hyperedges node_to_hyperedges node_caps
    (edges_df : list (Z * Z * option Qc)) :
  utils.create_supernode_hyperedges fuel G
  = Ok (hyperedges, node_to_hyperedges, node_caps) →
  (∀ r, r ∈ edges_df → is_Some r.2) →
  make_supernode_edges.main_node_caps edges_df node_to_hyperedges node_caps
  = Ok node_caps.
Proof.
  intros Hrun Hnum.
  assert (∃ node_caps',
            make_supernode_edges.main_node_caps edges_df node_to_hyperedges
              node_caps = Ok node_caps') as [node_caps' Hblock].
  { unfold make_supernode_edges.main_node_caps.
    case_bool_decide; [|by eexists].
    destruct (node_totals_returns edges_df Hnum) as (tot & ->).
    rewrite bind_Ok. by eexists. }
  rewrite Hblock. f_equal. by eapply main_node_caps_idle.
Qed.




End supernode_deposits.

(** X23. The capacity block of [make_supernode_edges.py] never changes
    the deposits that [create_supernode_hyperedges] returned: whenever
    it ends without raising, [node_caps] is unchanged, and it does so
    when every capacity cell is a number. The deposits are therefore
    the uniform ones, [1 / k] for each of the [k] entries of a node's
    index list, whatever capacities the table holds. *)
Theorem supernode_deposits_never_from_table (fuel : nat) (G : graph)
    (edges_df : list (Z * Z * option Qc)) (hyperedges : list (gset Z))
    (node_to_hyperedges : gmap Z (list nat)) (node_caps : gmap (Z * nat) Qc) :
  utils.create_supernode_hyperedges fuel G
  = Ok (hyperedges, node_to_hyperedges, node_caps) →
  (∀ node_caps',
     make_supernode_edges.main_node_caps edges_df node_to_hyperedges node_caps
     = Ok node_caps' →
     node_caps' = node_caps)
  ∧ ((∀ r, r ∈ edges_df → is_Some r.2) →
     make_supernode_edges.main_node_caps edges_df node_to_hyperedges node_caps
     = Ok node_caps)
  ∧ ∀ v idxs i, node_to_hyperedges !! v = Some idxs →
      node_caps !! (v, i)
      = if decide (i ∈ idxs) then Some (1 / Qc_of_nat (length idxs))%Qc
        else None.
Proof.
  intros Hrun. split_and!.
  - intros node_caps'. by eapply main_node_caps_idle.
  - intros Hnum. by eapply main_node_caps_same.
  - intros v idxs i Hv.
    rewrite (create_supernode_hyperedges_caps _ _ _ _ _ Hrun).
    by rewrite uniform_caps_lookup, Hv.
Qed.

Lemma supernode_deposits_never_from_table_witness :
  ∃ hyperedges node_to_hyperedges node_caps,
    utils.create_supernode_hyperedges 6 kite
    = Ok (hyperedges, node_to_hyperedges, node_caps)
    ∧ make_supernode_edges.main_node_caps
        [(0, 1, Some (Qc_of_nat 5)); (1, 2, Some (Qc_of_nat 7))]
        node_to_hyperedges node_caps
      = Ok node_caps.
Proof.
  assert (∀ r : Z * Z * option Qc,
            r ∈ [(0, 1, Some (Qc_of_nat 5)); (1, 2, Some (Qc_of_nat 7))] →
            is_Some r.2) as Hnum.
  { intros r Hr. repeat (apply elem_of_cons in Hr as [->|Hr]; [by eexists|]).
    by apply elem_of_nil in Hr. }
  eexists _, _, _.
  assert (utils.create_supernode_hyperedges 6 kite = Ok (_, _, _)) as Hrun
    by (vm_compute; reflexivity).
  split; [exact Hrun|].
  exact (proj1 (proj2 (supernode_deposits_never_from_table 6 kite
                         [(0, 1, Some (Qc_of_nat 5)); (1, 2, Some (Qc_of_nat 7))]
                         _ _ _ Hrun)) Hnum).
Defined.



(** ** The endpoint columns of a table *)

(** X25. [detect_endpoint_cols] of both scripts returns names of columns
    of the table. The one of [make_fhs_edges.py] fails exactly when the
    table has fewer than three columns and none of the five pairs of
    names it knows; the one of [make_nch_edges.py] fails exactly when
    the table has fewer than three columns and neither [src]/[trg] nor
    [source]/[target]. They agree whenever the table has none of the
    pairs [node1]/[node2], [u]/[v], [from]/[to]. *)
Theorem detect_endpoint_cols_columns (cols : list string) :
  (∀ a b, make_fhs_edges.detect_endpoint_cols cols = Some (a, b) →
          a ∈ cols ∧ b ∈ cols)
  ∧ (make_fhs_edges.detect_endpoint_cols cols = None
     ↔ (length cols < 3)%nat
       ∧ ∀ ab, ab ∈ known_endpoint_cols → ¬ (ab.1 ∈ cols ∧ ab.2 ∈ cols))
  ∧ (∀ a b, make_nch_edges.detect_endpoint_cols cols = Some (a, b) →
          a ∈ cols ∧ b ∈ cols)
  ∧ (make_nch_edges.detect_endpoint_cols cols = None
     ↔ (length cols < 3)%nat
       ∧ ¬ ("src" ∈ cols ∧ "trg" ∈ cols)
       ∧ ¬ ("source" ∈ cols ∧ "target" ∈ cols))
  ∧ ((∀ ab, ab ∈ [("node1", "node2"); ("u", "v"); ("from", "to")] →
            ¬ (ab.1 ∈ cols ∧ ab.2 ∈ cols)) →
     make_fhs_edges.detect_endpoint_cols cols
     = make_nch_edges.detect_endpoint_cols cols).
Proof.
  assert (∀ a b, (a ← cols !! 1%nat; b ← cols !! 2%nat; Some (a, b))
                 = Some (a, b) → a ∈ cols ∧ b ∈ cols) as Hpos.
  { intros a b Hab.
    destruct (cols !! 1%nat) as [a'|] eqn:Ha; [|done].
    destruct (cols !! 2%nat) as [b'|] eqn:Hb; [|done].
    simpl in Hab. injection Hab as -> ->.
    split; by eapply list_elem_of_lookup_2. }
  assert ((a ← cols !! 1%nat; b ← cols !! 2%nat; Some (a, b)) = None
          ↔ (length cols < 3)%nat) as Hnone.
  { destruct cols as [|c0 [|c1 [|c2 cols]]]; simpl; split; try done; lia. }
  unfold make_fhs_edges.detect_endpoint_cols,
    make_nch_edges.detect_endpoint_cols, known_endpoint_cols.
  destruct (decide ("src" ∈ cols ∧ "trg" ∈ cols)) as [Hsrc|Hsrc].
  { split_and!.
    - by intros a b [= <- <-].
    - split; [done|]. intros [_ Hno]. destruct (Hno ("src", "trg")); [by left|done].
    - by intros a b [= <- <-].
    - split; [done|]. by intros (_ & ? & _).
    - done. }
  destruct (decide ("source" ∈ cols ∧ "target" ∈ cols)) as [Hsource|Hsource].
  { split_and!.
    - by intros a b [= <- <-].
    - split; [done|]. intros [_ Hno].
      destruct (Hno ("source", "target")); [right; by left|done].
    - by intros a b [= <- <-].
    - split; [done|]. by intros (_ & _ & ?).
    - done. }
  destruct (List.find _ _) as [[a' b']|] eqn:Hfind.
  { apply find_some in Hfind as [Hin Hboth].
    apply bool_decide_eq_true in Hboth. simpl in Hboth.
    apply list_elem_of_In in Hin. split_and!.
    - by intros a b [= <- <-].
    - split; [done|]. intros [_ Hno].
      destruct (Hno (a', b')); [by do 2 right|done].
    - done.
    - rewrite Hnone. tauto.
    - intros Hno. by destruct (Hno (a', b')). }
  assert (∀ ab, ab ∈ [("node1", "node2"); ("u", "v"); ("from", "to")] →
            ¬ (ab.1 ∈ cols ∧ ab.2 ∈ cols)) as Halt.
  { intros ab Hin%list_elem_of_In Hboth.
    apply (find_none _ _ Hfind) in Hin.
    by apply bool_decide_eq_false in Hin. }
  split_and!.
  - case_decide; [done|]. done.
  - case_decide as Hlen.
    + rewrite Hnone. split; [lia|]. intros [? _]. lia.
    + split; [|done]. intros _. split; [lia|].
      intros ab [->|[->|Hin]%elem_of_cons]%elem_of_cons; [done..|].
      by apply Halt.
  - done.
  - rewrite Hnone. tauto.
  - intros _. case_decide as Hlen; [done|]. symmetry. apply Hnone. lia.
Qed.

(** ** What the monotone path search finds *)
Section monotone_sound.
Implicit Types (G : graph) (Vn_set : gset Z)
  (st : gset (Z * Z) * list (Z * option Z * nat)).

Lemma monotone_scan_sound G Vn_set u v mid cur nbs st :
  trail G Vn_set u mid cur →
  (∀ nb, nb ∈ nbs → has_edge G cur nb) →
  Forall (reached G Vn_set u) st.2 →
  match
    supernodes.monotone_scan v Vn_set (supernodes.id_map <$> last mid)
      (length mid) nbs st
  with
  | inl _ => has_edge G cur v
  | inr st' => Forall (reached G Vn_set u) st'.2
  end.
Proof.
  intros Htrail. revert st.
  induction nbs as [|nb nbs IH]; intros st Hnbs Hq; simpl; [done|].
  assert (∀ nb', nb' ∈ nbs → has_edge G cur nb') as Hnbs'
    by (intros nb' ?; apply Hnbs; by right).
  case_decide as Hin; [by apply IH|].
  case_decide as Hv; [subst nb; apply Hnbs; by left|].
  destruct (_ && _) eqn:Hadm; [|by apply IH].
  apply IH; [done|]. simpl. apply Forall_app. split; [done|].
  apply Forall_singleton. exists (mid ++ [nb]). simpl.
  rewrite last_snoc, length_app. simpl. split_and!; [|done|lia].
  apply andb_prop in Hadm as [Hadm _].
  apply (trail_step G Vn_set u mid cur nb);
    [done|apply Hnbs; by left|done|].
  intros p Hp. rewrite Hp in Hadm. simpl in Hadm.
  by apply bool_decide_eq_true in Hadm.
Qed.

Lemma monotone_while_sound G Vn_set u v max_depth budget st :
  Forall (reached G Vn_set u) st.2 →
  supernodes.monotone_while budget G v Vn_set max_depth st = Ok true →
  ∃ mid cur, trail G Vn_set u mid cur ∧ has_edge G cur v
             ∧ (length mid < max_depth)%nat.
Proof.
  revert st. induction budget as [|budget IH]; intros [seen q] Hq; simpl.
  { by destruct q as [|[[cur prev] depth] q]. }
  destruct q as [|[[cur prev] depth] q]; [done|].
  apply Forall_cons in Hq as [(mid & Htrail & Hprev & Hdepth) Hq].
  simpl in Htrail, Hprev, Hdepth. subst prev depth.
  case_bool_decide as Hdeep; [by apply IH|].
  unfold supernodes.neigh.
  destruct (dict_get G cur) as [adj|] eqn:Hadj; [|done].
  rewrite bind_Ok.
  pose proof (monotone_scan_sound G Vn_set u v mid cur
                (set_iter (list_to_set adj.*1)) (seen, q) Htrail) as Hscan.
  destruct (supernodes.monotone_scan _ _ _ _ _ _) as [b|st'] eqn:Hrun.
  - intros _. exists mid, cur. split_and!; [done| |lia]. apply Hscan; [|done].
    intros nb Hnb%elem_of_set_iter%elem_of_list_to_set.
    apply has_edge_alt. by exists adj.
  - apply IH. apply Hscan; [|done].
    intros nb Hnb%elem_of_set_iter%elem_of_list_to_set.
    apply has_edge_alt. by exists adj.
Qed.

End monotone_sound.

(** X26. When [exists_monotone_path] answers [True] for two different
    nodes, both are in [Vn_set] and there is a walk from [u] to [v]
    along edges of the graph, of at most [max_depth] edges, whose
    internal nodes are all in [Vn_set] and have strictly decreasing
    identifiers. *)
Theorem exists_monotone_path_sound (G : graph) (u v : Z) (Vn_set : gset Z)
    (max_depth max_states_local : nat) :
  supernodes.exists_monotone_path G u v Vn_set max_depth max_states_local
  = Ok true →
  u = v
  ∨ (u ∈ Vn_set ∧ v ∈ Vn_set
     ∧ ∃ mid cur, trail G Vn_set u mid cur ∧ has_edge G cur v
                  ∧ (length mid < max_depth)%nat).
Proof.
  unfold supernodes.exists_monotone_path.
  case_decide as Huv; [by left|]. case_decide as Hin; [done|].
  intros Hrun. right.
  assert (u ∈ Vn_set ∧ v ∈ Vn_set) as [Hu Hv].
  { split; apply dec_stable; tauto. }
  split_and!; [done..|].
  apply (monotone_while_sound G Vn_set u v max_depth max_states_local
           (∅, [(u, None, 0%nat)])); [|done].
  apply Forall_singleton. exists []. simpl. split_and!; [|done..].
  apply trail_start.
Qed.

Lemma exists_monotone_path_sound_witness :
  2 = 3
  ∨ (2 ∈ ({[1; 2; 3]} : gset Z) ∧ 3 ∈ ({[1; 2; 3]} : gset Z)
     ∧ ∃ mid cur, trail demo_graph {[1; 2; 3]} 2 mid cur
                  ∧ has_edge demo_graph cur 3 ∧ (length mid < 4)%nat).
Proof.
  apply (exists_monotone_path_sound demo_graph 2 3 {[1; 2; 3]} 4 5000).
  vm_compute. reflexivity.
Defined.

(** ** The NCH script *)
Section nch_main.
Implicit Types (df : list (Z * Z * option Qc)).

(** The two accumulators of the fee loop. *)
Lemma fee_loop_spec df (pc : gmap Z Qc * gmap Z nat) n :
  let pc' :=
    foldl (λ (pc : gmap Z Qc * gmap Z nat) (r : Z * Z * option Qc),
             let fee : Qc := default 0%Qc r.2 in
             let profile :=
               <[r.1.1 := (default 0 (pc.1 !! r.1.1) + fee)%Qc]> pc.1 in
             let counts :=
               <[r.1.1 := (default 0 (pc.2 !! r.1.1) + 1)%nat]> pc.2 in
             let profile :=
               <[r.1.2 := (default 0 (profile !! r.1.2) + fee)%Qc]> profile in
             let counts :=
               <[r.1.2 := (default 0 (counts !! r.1.2) + 1)%nat]> counts in
             (profile, counts))
      pc df in
  default 0%Qc (pc'.1 !! n) = (default 0 (pc.1 !! n) + incident_total df n)%Qc
  ∧ default 0%nat (pc'.2 !! n)
    = (default 0 (pc.2 !! n) + incident_count df n)%nat
  ∧ (is_Some (pc'.1 !! n)
     ↔ is_Some (pc.1 !! n) ∨ (0 < incident_count df n)%nat)
  ∧ (is_Some (pc'.2 !! n)
     ↔ is_Some (pc.2 !! n) ∨ (0 < incident_count df n)%nat).
Proof.
  cbv zeta. revert pc.
  induction df as [|[[u v] c] df IH]; intros [profile counts]; simpl.
  { split_and!; [ring|lia| |]; (split; [by left|by intros [?|?]; [|lia]]). }
  destruct (IH (<[v := (default 0
                          (<[u := (default 0 (profile !! u) + default 0 c)%Qc]>
                             profile !! v)
                        + default 0 c)%Qc]>
                  (<[u := (default 0 (profile !! u) + default 0 c)%Qc]> profile),
                <[v := (default 0
                          (<[u := (default 0 (counts !! u) + 1)%nat]> counts
                             !! v) + 1)%nat]>
                  (<[u := (default 0 (counts !! u) + 1)%nat]> counts)))
    as (H1 & H2 & H3 & H4).
  clear IH. simpl in H1, H2, H3, H4. rewrite H1, H2, H3, H4. clear H1 H2 H3 H4.
  destruct (decide (v = n)) as [->|Hv], (decide (u = n)) as [->|Hu];
    repeat (rewrite lookup_insert_eq || rewrite lookup_insert_ne by done);
    cbn [from_option id];
    (split_and!; [ring|lia| |]);
    rewrite ?lookup_insert_is_Some;
    (split; [intros [?|?]|intros [?|?]]);
    first [by auto | right; lia | tauto | (left; tauto)
          | (destruct (decide (n = n)); tauto) | idtac].
  all: try (left; by eauto).
  all: try (by left; left).
  all: try (by left; right; split; [done|left]).
Qed.

(** The comprehension that ends the fee loop. *)
Lemma fee_comprehension_spec (counts : gmap Z nat) (L : list (Z * Qc))
    (fp0 : gmap Z Qc) :
  NoDup L.*1 → (∀ np, np ∈ L → is_Some (counts !! np.1)) →
  ∃ fp,
    for_each L
      (λ (fee_profile : gmap Z Qc) np,
         c ← make_nch_edges.counts_get counts np.1;
         Ok (<[np.1 := if bool_decide (0 < c)%nat
                        then (np.2 / Qc_of_nat c)%Qc else Qc_of_nat 100]>
               fee_profile))
      fp0 = Ok fp
    ∧ ∀ n, fp !! n
           = match (list_to_map L : gmap Z Qc) !! n with
             | Some p =>
                 Some (if bool_decide (0 < default 0 (counts !! n))%nat
                       then (p / Qc_of_nat (default 0%nat (counts !! n)))%Qc
                       else Qc_of_nat 100)
             | None => fp0 !! n
             end.
Proof.
  revert fp0. induction L as [|[n0 p0] L IH]; intros fp0 Hnd Hkeys.
  { exists fp0. split; [done|]. intros n. by rewrite list_to_map_nil, lookup_empty. }
  apply NoDup_cons in Hnd as [Hn0 Hnd].
  destruct (Hkeys (n0, p0)) as [c Hc]; [by left|]. simpl in Hc.
  rewrite for_each_cons. cbn [fst snd].
  assert (make_nch_edges.counts_get counts n0 = Ok c) as ->
    by (unfold make_nch_edges.counts_get; by rewrite Hc).
  rewrite !bind_Ok.
  destruct (IH (<[n0 := if bool_decide (0 < c)%nat
                        then (p0 / Qc_of_nat c)%Qc else Qc_of_nat 100]> fp0))
    as (fp & -> & Hfp); [done|by intros np ?; apply Hkeys; right|].
  exists fp. split; [done|]. intros n. rewrite Hfp. simpl.
  destruct (decide (n = n0)) as [->|Hne].
  - rewrite (not_elem_of_list_to_map_1 L n0 Hn0).
    by rewrite !lookup_insert_eq, Hc.
  - by rewrite !lookup_insert_ne by done.
Qed.

End nch_main.

(** X27. The fee profile that [main] of the NCH script builds never
    raises; it has an entry exactly for the nodes that are an endpoint
    of some row, and the entry of a node is the mean of the fees of the
    rows it is an endpoint of (a fee that is no number counts as 0, and
    a row from a node to itself counts twice). The default 100 of the
    comprehension is never used. *)
Theorem fee_profile_mean (df : list (Z * Z * option Qc)) :
  ∃ fee_profile,
    make_nch_edges.fee_profile df = Ok fee_profile
    ∧ ∀ n, fee_profile !! n
           = if decide (incident_count df n = 0%nat) then None
             else Some (incident_total df n
                        / Qc_of_nat (incident_count df n))%Qc.
Proof.
  unfold make_nch_edges.fee_profile. cbv zeta.
  set (pc := foldl _ (∅, ∅) df).
  assert (∀ n,
            default 0%Qc (pc.1 !! n) = incident_total df n
            ∧ default 0%nat (pc.2 !! n) = incident_count df n
            ∧ (is_Some (pc.1 !! n) ↔ (0 < incident_count df n)%nat)
            ∧ (is_Some (pc.2 !! n) ↔ (0 < incident_count df n)%nat)) as Hpc.
  { intros n. destruct (fee_loop_spec df (∅, ∅) n) as (H1 & H2 & H3 & H4).
    cbv zeta in H1, H2, H3, H4. fold pc in H1, H2, H3, H4.
    cbn [fst snd] in H1, H2, H3, H4. rewrite lookup_empty in H1. rewrite lookup_empty in H2.
    rewrite lookup_empty in H3. rewrite lookup_empty in H4.
    cbn [from_option] in H1, H2. split_and!.
    - rewrite H1. ring.
    - by rewrite H2.
    - rewrite H3. split; [by intros [[? [=]]|?]|by right].
    - rewrite H4. split; [by intros [[? [=]]|?]|by right]. }
  destruct (fee_comprehension_spec pc.2 (map_to_list pc.1) ∅)
    as (fp & Hrun & Hfp).
  { apply NoDup_fst_map_to_list. }
  { intros [n p] Hin%elem_of_map_to_list. simpl.
    destruct (Hpc n) as (_ & _ & H3 & H4). apply H4, H3. by eexists. }
  exists fp. split; [exact Hrun|]. intros n. rewrite Hfp.
  rewrite list_to_map_to_list.
  destruct (Hpc n) as (Htot & Hcount & Hsome & _).
  case_decide as Hzero.
  - destruct (pc.1 !! n) as [p|] eqn:Hp; [|by rewrite lookup_empty].
    assert (0 < incident_count df n)%nat by (apply Hsome; by eexists). lia.
  - destruct (pc.1 !! n) as [p|] eqn:Hp.
    + simpl in Htot. rewrite Hcount, bool_decide_eq_true_2 by lia.
      by rewrite Htot.
    + destruct Hsome as [_ Hsome]. destruct Hsome as [? [=]]. lia.
Qed.

(** X28. [main] of the NCH script with [--use_edge_capacity]: the
    hypergraph is built, and a node gets a deposit exactly in the
    hyperedges it is a member of, each equal to its incident capacity
    total in the table (1 when that total is zero) divided by the
    number of these hyperedges, so that the deposits of a node that is
    in some hyperedge sum to that total. *)
Theorem nch_main_hypergraph_deposits (fuel : nat)
    (df : list (Z * Z * option Qc)) (max_cover_size : option nat) :
  (number_of_nodes (utils.edges_df_to_nx df) < fuel)%nat →
  ∃ hyperedges node_to_hyperedges caps,
    make_nch_edges.main_hypergraph fuel df max_cover_size
    = Ok (hyperedges, node_to_hyperedges, caps)
    ∧ ∀ n,
        let T := incident_total df n in
        let T' := if decide (T = 0)%Qc then 1%Qc else T in
        let idxs := positions_of hyperedges n in
        (∀ idx, caps !! (n, idx)
                = if decide (idx ∈ idxs)
                  then Some (T' / Qc_of_nat (length idxs))%Qc else None)
        ∧ (idxs ≠ [] →
           sum_Qc ((λ idx, default 0%Qc (caps !! (n, idx))) <$> idxs) = T').
Proof.
  intros Hfuel. unfold make_nch_edges.main_hypergraph. cbv zeta.
  destruct (create_nch_spec fuel (utils.edges_df_to_nx df) max_cover_size false)
    as (cover & n2h & _ & -> & Hidx); [apply wf_edges_df_to_nx|done|].
  rewrite bind_Ok. cbn beta iota.
  set (hs := neighbour_set (utils.edges_df_to_nx df)
               <$> merge_sort Z.le (elements cover)) in *.
  exists hs, n2h, (make_nch_edges.main_node_caps df n2h).
  split; [done|]. intros n.
  set (T' := if decide (incident_total df n = 0)%Qc then 1%Qc
             else incident_total df n).
  set (idxs := positions_of hs n).
  assert (∀ idx, make_nch_edges.main_node_caps df n2h !! (n, idx)
                 = if decide (idx ∈ idxs)
                   then Some (T' / Qc_of_nat (length idxs))%Qc else None)
    as Hlookup.
  { intros idx. rewrite nch_main_node_caps_lookup, Hidx.
    unfold member_index. fold idxs. case_decide as Hnil.
    - rewrite decide_False; [done|]. rewrite Hnil. apply not_elem_of_nil.
    - done. }
  split; [done|]. intros Hne.
  etrans; [|exact (sum_Qc_shares T' idxs Hne)]. f_equal.
  apply list_fmap_ext. intros i idx Hi%list_elem_of_lookup_2.
  by rewrite Hlookup, decide_True.
Qed.

Lemma nch_main_hypergraph_deposits_witness :
  ∃ hyperedges node_to_hyperedges caps,
    make_nch_edges.main_hypergraph 5
      [(1, 2, Some (Qc_of_nat 7)); (2, 3, Some (Qc_of_nat 0)); (2, 4, None)]
      None
    = Ok (hyperedges, node_to_hyperedges, caps)
    ∧ ∀ n,
        let T :=
          incident_total
            [(1, 2, Some (Qc_of_nat 7)); (2, 3, Some (Qc_of_nat 0));
             (2, 4, None)] n in
        let T' := if decide (T = 0)%Qc then 1%Qc else T in
        let idxs := positions_of hyperedges n in
        (∀ idx, caps !! (n, idx)
                = if decide (idx ∈ idxs)
                  then Some (T' / Qc_of_nat (length idxs))%Qc else None)
        ∧ (idxs ≠ [] →
           sum_Qc ((λ idx, default 0%Qc (caps !! (n, idx))) <$> idxs) = T').
Proof.
  apply (nch_main_hypergraph_deposits 5
           [(1, 2, Some (Qc_of_nat 7)); (2, 3, Some (Qc_of_nat 0));
            (2, 4, None)] None).
  vm_compute. lia.
Defined.

